(** * Boolean combination of shells (srf/boolean.cpp)

    A shallow embedding of the keep policy, the UV BSP, the curve splitter,
    the choosing-point selection and the handle plumbing of the Boolean and
    assembly orchestrators, followed by the properties proved about them.

    Conventions.  A [double] is a primitive binary64 float.  A nullable
    pointer is an [option].  A failed [ssassert] is [None].  Routines of the
    code base that this translation unit only calls (vector algebra, surface
    evaluation, shell classification, the intersector, [std::sort]) are the
    fields of the class [Extern]; diagnostics ([dbp], the counter [I], the
    naked-edge list) are not modelled.

    State.  The shells of a run (the two operands and the result) are three
    different objects, named by a [ShellId]; a routine that writes into a
    shell returns the shell it wrote.  The copy [ret = *this] of a curve or
    of a surface has lists of its own: the code replaces [pts] and [trim] of
    the copy before it uses them, and does not read the [edges] of a copy
    (whose elements the code shares with the list of the operand).

    Loops.  A loop whose repetitions tag or remove an edge takes a [fuel]
    that bounds the repetitions.  The fuel that the callers give is never
    spent ([FindChainAvoiding_total], [keep_chains_fuel],
    [TrimFromEdgeList_total]), so that [None] is a failed assertion or a
    failed lookup. *)

From Stdlib Require Import ZArith NArith List Bool Lia Floats Permutation.
Import ListNotations.

Set Implicit Arguments.
Set Warnings "-register-all,-inexact-float".

(** * Part I: data model *)

(** Geometry of an exact curve and of a surface patch: only the external
    evaluators look inside. *)
Class Payload : Type := {
  SBezier : Type;
  SurfaceData : Type
}.

Module Point2d.
Record t : Type := mk { x : float; y : float }.
End Point2d.

Module Vector.
Record t : Type := mk { x : float; y : float; z : float }.
End Vector.

(** [SSurface::CombineAs].  The source names [UNION] and [DIFFERENCE]; any
    other value of the enumeration reaches the [default:] branch of a
    [switch] and is represented by [UNEXPECTED]. *)
Inductive CombineAs : Type :=
  | UNION
  | DIFFERENCE
  | UNEXPECTED.

(** [SShell::Class]. *)
Module ShellClass.
Inductive t : Type :=
  | INSIDE
  | OUTSIDE
  | COINC_SAME
  | COINC_OPP.

Definition eqb (c d : t) : bool :=
  match c, d with
  | INSIDE, INSIDE | OUTSIDE, OUTSIDE
  | COINC_SAME, COINC_SAME | COINC_OPP, COINC_OPP => true
  | _, _ => false
  end.
End ShellClass.

(** [SBspUv::Class]. *)
Module BspClass.
Inductive t : Type :=
  | INSIDE
  | OUTSIDE
  | EDGE_PARALLEL
  | EDGE_ANTIPARALLEL
  | EDGE_OTHER.

Definition eqb (c d : t) : bool :=
  match c, d with
  | INSIDE, INSIDE | OUTSIDE, OUTSIDE | EDGE_PARALLEL, EDGE_PARALLEL
  | EDGE_ANTIPARALLEL, EDGE_ANTIPARALLEL | EDGE_OTHER, EDGE_OTHER => true
  | _, _ => false
  end.
End BspClass.

(** [SCurve::Source]. *)
Module Source.
Inductive t : Type :=
  | A
  | B
  | INTERSECTION.

Definition eqb (c d : t) : bool :=
  match c, d with
  | A, A | B, B | INTERSECTION, INTERSECTION => true
  | _, _ => false
  end.
End Source.

(** [SSurface::MakeAs]. *)
Inductive MakeAs : Type :=
  | UV
  | XYZ.

(** Handles: the [v] member of [hSCurve] and [hSSurface]. *)
Definition hSCurve : Type := N.
Definition hSSurface : Type := N.

(** A node of the UV BSP: the segment [(a, b)], the subtrees on its positive
    and negative side, and the chain of segments on the same line. *)
Inductive SBspUv : Type :=
  | Node (a b : Point2d.t) (pos neg more : option SBspUv).

(** Elements of a [List<T>] carry an integer [tag]. *)
Class Tagged (T : Type) : Type := {
  tag : T -> Z;
  with_tag : Z -> T -> T
}.

Module SCurvePt.
Record t : Type := mk { tag : Z; p : Vector.t; vertex : bool }.
End SCurvePt.

Module SEdge.
Record t : Type :=
  mk { tag : Z; auxA : Z; auxB : Z; a : Vector.t; b : Vector.t }.
End SEdge.

Module SPoint.
Record t : Type := mk { tag : Z; p : Vector.t }.
End SPoint.

Module STrimBy.
Record t : Type :=
  mk { curve : hSCurve; backwards : bool;
       start : Vector.t; finish : Vector.t }.
End STrimBy.

#[export] Instance SCurvePt_Tagged : Tagged SCurvePt.t :=
  {| tag := SCurvePt.tag;
     with_tag := fun v e => SCurvePt.mk v (SCurvePt.p e) (SCurvePt.vertex e) |}.

#[export] Instance SEdge_Tagged : Tagged SEdge.t :=
  {| tag := SEdge.tag;
     with_tag := fun v e =>
       SEdge.mk v (SEdge.auxA e) (SEdge.auxB e) (SEdge.a e) (SEdge.b e) |}.

#[export] Instance SPoint_Tagged : Tagged SPoint.t :=
  {| tag := SPoint.tag;
     with_tag := fun v e => SPoint.mk v (SPoint.p e) |}.

Module SCurve.
Section WithPayload.
Context {P : Payload}.
Record t : Type :=
  mk { h : hSCurve; newH : hSCurve; source : Source.t;
       surfA : hSSurface; surfB : hSSurface;
       isExact : bool; exact : SBezier;
       pts : list SCurvePt.t }.

Definition with_pts (l : list SCurvePt.t) (c : t) : t :=
  mk (h c) (newH c) (source c) (surfA c) (surfB c) (isExact c) (exact c) l.

Definition with_h (v : hSCurve) (c : t) : t :=
  mk v (newH c) (source c) (surfA c) (surfB c) (isExact c) (exact c) (pts c).

Definition with_newH (v : hSCurve) (c : t) : t :=
  mk (h c) v (source c) (surfA c) (surfB c) (isExact c) (exact c) (pts c).

Definition with_source (s : Source.t) (c : t) : t :=
  mk (h c) (newH c) s (surfA c) (surfB c) (isExact c) (exact c) (pts c).

Definition with_surfs (sa sb : hSSurface) (c : t) : t :=
  mk (h c) (newH c) (source c) sa sb (isExact c) (exact c) (pts c).
End WithPayload.
End SCurve.

Module SSurface.
Section WithPayload.
Context {P : Payload}.
Record t : Type :=
  mk { h : hSSurface; newH : hSSurface; geom : SurfaceData;
       trim : list STrimBy.t;
       bsp : option SBspUv;
       edges : list SEdge.t }.

Definition with_h (v : hSSurface) (s : t) : t :=
  mk v (newH s) (geom s) (trim s) (bsp s) (edges s).

Definition with_newH (v : hSSurface) (s : t) : t :=
  mk (h s) v (geom s) (trim s) (bsp s) (edges s).

Definition with_trim (l : list STrimBy.t) (s : t) : t :=
  mk (h s) (newH s) (geom s) l (bsp s) (edges s).

Definition with_bsp (b : option SBspUv) (s : t) : t :=
  mk (h s) (newH s) (geom s) (trim s) b (edges s).

Definition with_edges (l : list SEdge.t) (s : t) : t :=
  mk (h s) (newH s) (geom s) (trim s) (bsp s) l.
End WithPayload.
End SSurface.

Module SShell.
Section WithPayload.
Context {P : Payload}.
Record t : Type :=
  mk { curve : list SCurve.t; surface : list SSurface.t;
       booleanFailed : bool }.

Definition with_curve (l : list SCurve.t) (s : t) : t :=
  mk l (surface s) (booleanFailed s).

Definition with_surface (l : list SSurface.t) (s : t) : t :=
  mk (curve s) l (booleanFailed s).

Definition with_booleanFailed (f : bool) (s : t) : t :=
  mk (curve s) (surface s) f.
End WithPayload.
End SShell.

(** The shells of one run: the operands and the result under construction. *)
Inductive ShellId : Type :=
  | OperandA
  | OperandB
  | Result.

Definition ShellId_eqb (i j : ShellId) : bool :=
  match i, j with
  | OperandA, OperandA | OperandB, OperandB | Result, Result => true
  | _, _ => false
  end.

(** An [SSurface *]: where the surface lives (its shell and its position in
    the shell's list) and the surface it designates.  Two pointers are equal
    when they designate the same place. *)
Module SurfPtr.
Section WithPayload.
Context {P : Payload}.
Record t : Type := mk { shell : ShellId; index : nat; target : SSurface.t }.

Definition eqb (p q : t) : bool :=
  ShellId_eqb (shell p) (shell q) && Nat.eqb (index p) (index q).
End WithPayload.
End SurfPtr.

(** An intersection record: the point and the surface that generated it. *)
Module SInter.
Section WithPayload.
Context {P : Payload}.
Record t : Type := mk { tag : Z; p : Vector.t; srf : SurfPtr.t }.
End WithPayload.
End SInter.

#[export] Instance SInter_Tagged {P : Payload} : Tagged SInter.t :=
  {| tag := SInter.tag;
     with_tag := fun v e => SInter.mk v (SInter.p e) (SInter.srf e) |}.

(** An [SShell *]. *)
Module ShellPtr.
Section WithPayload.
Context {P : Payload}.
Record t : Type := mk { id : ShellId; target : SShell.t }.
End WithPayload.
End ShellPtr.

(** Elements of an [IdList<T, H>] carry a handle [h]. *)
Class Identified (T : Type) : Type := {
  handle : T -> N;
  with_handle : N -> T -> T;
  handle_with_handle : forall (v : N) (t : T), handle (with_handle v t) = v
}.

#[export] Instance SCurve_Identified {P : Payload} : Identified SCurve.t :=
  {| handle := SCurve.h; with_handle := SCurve.with_h;
     handle_with_handle := fun _ _ => eq_refl |}.

#[export] Instance SSurface_Identified {P : Payload}
  : Identified SSurface.t :=
  {| handle := SSurface.h; with_handle := SSurface.with_h;
     handle_with_handle := fun _ _ => eq_refl |}.

(** Sequencing of steps that may fail an assertion. *)
Notation "' pat <- e ;; k" :=
  (match e with
   | Some pat => k
   | None => None
   end)
  (at level 61, pat pattern, e at next level, right associativity).

(** * Part II: collaborators *)

(** What this translation unit calls and does not define.  Out-parameters
    are results; a method's receiver is its first argument. *)
Class Extern {P : Payload} : Type := {
  (* tolerances and limits *)
  LENGTH_EPS : float;
  VERY_POSITIVE : float;
  ChordTolMm : float;
  fmin : float -> float -> float;
  std_sort : forall T : Type, (T -> T -> bool) -> list T -> list T;
  (* Point2d *)
  Point2d_Plus : Point2d.t -> Point2d.t -> Point2d.t;
  Point2d_Minus : Point2d.t -> Point2d.t -> Point2d.t;
  Point2d_ScaledBy : Point2d.t -> float -> Point2d.t;
  Point2d_Dot : Point2d.t -> Point2d.t -> float;
  Point2d_Normal : Point2d.t -> Point2d.t;
  Point2d_WithMagnitude : Point2d.t -> float -> Point2d.t;
  Point2d_DistanceToLine :
    Point2d.t -> Point2d.t -> Point2d.t -> bool -> float;
  (* Vector *)
  Vector_Minus : Vector.t -> Vector.t -> Vector.t;
  Vector_Cross : Vector.t -> Vector.t -> Vector.t;
  Vector_Dot : Vector.t -> Vector.t -> float;
  Vector_Magnitude : Vector.t -> float;
  Vector_MagSquared : Vector.t -> float;
  Vector_WithMagnitude : Vector.t -> float -> Vector.t;
  Vector_DivProjected : Vector.t -> Vector.t -> float;
  Vector_Equals : Vector.t -> Vector.t -> bool;
  Vector_ProjectXy : Vector.t -> Point2d.t;
  (* SBezier *)
  SBezier_deg : SBezier -> Z;
  SBezier_ClosestPointTo : SBezier -> Vector.t -> bool -> float;
  SBezier_PointAt : SBezier -> float -> Vector.t;
  (* SSurface *)
  TangentsAt : SSurface.t -> float -> float -> Vector.t * Vector.t;
  NormalAt : SSurface.t -> float -> float -> Vector.t;
  PointAt : SSurface.t -> Point2d.t -> Vector.t;
  ClosestPointTo : SSurface.t -> Vector.t -> bool -> Point2d.t;
  ClosestPointOnThisAndSurface :
    SSurface.t -> SSurface.t -> Vector.t -> Vector.t;
  PointOnSurfaces :
    SSurface.t -> option SurfPtr.t -> option SurfPtr.t ->
    Point2d.t -> Point2d.t;
  Reverse : SSurface.t -> SSurface.t;
  MakeEdgesInto :
    SSurface.t -> SShell.t -> MakeAs -> option SShell.t -> list SEdge.t;
  SSurface_FromTransformationOf : SSurface.t -> SSurface.t;
  IntersectAgainst :
    SSurface.t -> SSurface.t -> SShell.t -> SShell.t -> SShell.t ->
    list SCurve.t;
  (* SCurve *)
  SCurve_FromTransformationOf : SCurve.t -> SCurve.t;
  RemoveShortSegments :
    SCurve.t -> SSurface.t -> SSurface.t -> list SCurvePt.t;
  (* SShell *)
  AllPointsIntersecting :
    ShellPtr.t -> Vector.t -> Vector.t -> list SInter.t ->
    bool -> bool -> bool -> list SInter.t;
  SShell_ClassifyEdge :
    SShell.t -> Vector.t -> Vector.t -> Vector.t ->
    Vector.t -> Vector.t -> Vector.t -> ShellClass.t * ShellClass.t;
  (* SEdgeList *)
  CullExtraneousEdges : list SEdge.t -> list SEdge.t;
  AssemblePolygon : list SEdge.t -> bool
}.

(** * Part III: the translation unit *)

Section Boolean.
Context {P : Payload} {E : Extern}.

(** ** Containers *)

(** Modelled from the spec: the list utilities support tagging and removal;
    [ClearTags] resets every tag and [RemoveTagged] drops the elements whose
    tag is set. *)
Definition ClearTags {T : Type} `{Tagged T} (l : list T) : list T :=
  map (with_tag 0%Z) l.

Definition RemoveTagged {T : Type} `{Tagged T} (l : list T) : list T :=
  filter (fun e => Z.eqb (tag e) 0) l.

(** ** Keep policy *)

(** [KeepRegion]: [None] is the failed assertion of the [default:] branch. *)
Definition KeepRegion (type : CombineAs) (opA : bool)
    (shell orig : ShellClass.t) : option bool :=
  let inShell := ShellClass.eqb shell ShellClass.INSIDE in
  let inSame := ShellClass.eqb shell ShellClass.COINC_SAME in
  let inOpp := ShellClass.eqb shell ShellClass.COINC_OPP in
  let inOrig := ShellClass.eqb orig ShellClass.INSIDE in
  let inFace := inSame || inOpp in
  if negb inOrig then Some false
  else
    match type with
    | UNION =>
        if opA then Some (negb inShell && negb inFace)
        else Some ((negb inShell && negb inFace) || inSame)
    | DIFFERENCE =>
        if opA then Some (negb inShell && negb inFace)
        else Some ((inShell && negb inFace) || inSame)
    | UNEXPECTED => None
    end.

(** [KeepEdge]: both regions are evaluated before the test. *)
Definition KeepEdge (type : CombineAs) (opA : bool)
    (indir_shell outdir_shell indir_orig outdir_orig : ShellClass.t)
    : option bool :=
  match KeepRegion type opA indir_shell indir_orig with
  | None => None
  | Some keepIn =>
      match KeepRegion type opA outdir_shell outdir_orig with
      | None => None
      | Some keepOut =>
          if keepIn && negb keepOut then Some true else Some false
      end
  end.

(** The side of an edge relative to the face's own trim polygon, as the
    specification has it: [INSIDE] or [OUTSIDE], nothing else. *)
Definition side_orig (within : bool) : ShellClass.t :=
  if within then ShellClass.INSIDE else ShellClass.OUTSIDE.

(** The keep table as the specification words it, over the sides the
    specification defines: nothing is kept when the side is [OUTSIDE] of the
    face ([within] false), otherwise the operation and the operand decide. *)
Definition keep_table (type : CombineAs) (opA : bool)
    (shell : ShellClass.t) (within : bool) : option bool :=
  let inside := ShellClass.eqb shell ShellClass.INSIDE in
  let same := ShellClass.eqb shell ShellClass.COINC_SAME in
  let inFace := same || ShellClass.eqb shell ShellClass.COINC_OPP in
  if negb within then Some false
  else
    match type, opA with
    | UNION, true | DIFFERENCE, true => Some (negb inside && negb inFace)
    | UNION, false => Some ((negb inside && negb inFace) || same)
    | DIFFERENCE, false => Some ((inside && negb inFace) || same)
    | UNEXPECTED, _ => None
    end.

(** [TagByClassifiedEdge]: the pair [(indir, outdir)]. *)
Definition TagByClassifiedEdge (bspclass : BspClass.t)
    : ShellClass.t * ShellClass.t :=
  match bspclass with
  | BspClass.INSIDE => (ShellClass.INSIDE, ShellClass.INSIDE)
  | BspClass.OUTSIDE => (ShellClass.OUTSIDE, ShellClass.OUTSIDE)
  | BspClass.EDGE_PARALLEL => (ShellClass.INSIDE, ShellClass.OUTSIDE)
  | BspClass.EDGE_ANTIPARALLEL => (ShellClass.OUTSIDE, ShellClass.INSIDE)
  | _ => (ShellClass.OUTSIDE, ShellClass.OUTSIDE)
  end.

(** ** UV BSP *)

(** [ScalePoints]: the three points after scaling. *)
Definition ScalePoints (pt a b : Point2d.t) (srf : SSurface.t)
    : Point2d.t * Point2d.t * Point2d.t :=
  let '(tu, tv) := TangentsAt srf (Point2d.x pt) (Point2d.y pt) in
  let mu := Vector_Magnitude tu in
  let mv := Vector_Magnitude tv in
  (Point2d.mk (Point2d.x pt * mu) (Point2d.y pt * mv),
   Point2d.mk (Point2d.x a * mu) (Point2d.y a * mv),
   Point2d.mk (Point2d.x b * mu) (Point2d.y b * mv))%float.

Definition ScaledSignedDistanceToLine (pt a b : Point2d.t)
    (srf : SSurface.t) : float :=
  let '(pt, a, b) := ScalePoints pt a b srf in
  let n := Point2d_WithMagnitude (Point2d_Normal (Point2d_Minus b a)) 1 in
  let d := Point2d_Dot a n in
  (Point2d_Dot pt n - d)%float.

Definition ScaledDistanceToLine (pt a b : Point2d.t) (asSegment : bool)
    (srf : SSurface.t) : float :=
  let '(pt, a, b) := ScalePoints pt a b srf in
  Point2d_DistanceToLine pt a b asSegment.

(** [Alloc] followed by the assignment of the segment. *)
Definition new_node (ea eb : Point2d.t) : SBspUv :=
  Node ea eb None None None.

(** [InsertEdge], with [InsertOrCreateEdge] as the local [ioc]: the tree
    after the insertion. *)
Fixpoint InsertEdge (this : SBspUv) (ea eb : Point2d.t) (srf : SSurface.t)
    {struct this} : SBspUv :=
  match this with
  | Node a b pos neg more =>
      let ioc (where_ : option SBspUv) (ea eb : Point2d.t) : option SBspUv :=
        match where_ with
        | None => Some (new_node ea eb)
        | Some w => Some (InsertEdge w ea eb srf)
        end in
      let dea := ScaledSignedDistanceToLine ea a b srf in
      let deb := ScaledSignedDistanceToLine eb a b srf in
      let near (d : float) : bool := (abs d <? LENGTH_EPS)%float in
      if near dea && near deb then
        Node a b pos neg (Some (Node ea eb None None more))
      else if near dea then
        if (0 <? deb)%float then Node a b (ioc pos ea eb) neg more
        else Node a b pos (ioc neg ea eb) more
      else if near deb then
        if (0 <? dea)%float then Node a b (ioc pos ea eb) neg more
        else Node a b pos (ioc neg ea eb) more
      else if (0 <? dea)%float && (0 <? deb)%float then
        Node a b (ioc pos ea eb) neg more
      else if (dea <? 0)%float && (deb <? 0)%float then
        Node a b pos (ioc neg ea eb) more
      else
        let n :=
          Point2d_WithMagnitude (Point2d_Normal (Point2d_Minus b a)) 1 in
        let d := Point2d_Dot a n in
        let t := ((d - Point2d_Dot n ea)
                  / Point2d_Dot n (Point2d_Minus eb ea))%float in
        let pi := Point2d_Plus ea (Point2d_ScaledBy (Point2d_Minus eb ea) t) in
        if (0 <? dea)%float then
          Node a b (ioc pos ea pi) (ioc neg pi eb) more
        else
          Node a b (ioc pos pi eb) (ioc neg ea pi) more
  end.

Definition InsertOrCreateEdge (where_ : option SBspUv) (ea eb : Point2d.t)
    (srf : SSurface.t) : option SBspUv :=
  match where_ with
  | None => Some (new_node ea eb)
  | Some w => Some (InsertEdge w ea eb srf)
  end.

(** [SBspUv::From]: longest edges first. *)
Definition SBspUv_From (el : list SEdge.t) (srf : SSurface.t)
    : option SBspUv :=
  let work :=
    map (fun se => SEdge.mk 0 (SEdge.auxA se) (SEdge.auxB se)
                     (SEdge.a se) (SEdge.b se)) el in
  let longer (a b : SEdge.t) : bool :=
    let la := Vector_Magnitude (Vector_Minus (SEdge.a a) (SEdge.b a)) in
    let lb := Vector_Magnitude (Vector_Minus (SEdge.a b) (SEdge.b b)) in
    (lb <? la)%float in
  fold_left
    (fun bsp se =>
       InsertOrCreateEdge bsp (Vector_ProjectXy (SEdge.a se))
         (Vector_ProjectXy (SEdge.b se)) srf)
    (std_sort longer work) None.

(** The [while(f)] walk of [ClassifyPoint] over the node and its [more]
    chain: the edge class decided by the first segment that [p] lies on, or
    [None] when the walk ends undecided. *)
Fixpoint classify_on_chain (f : SBspUv) (p eb : Point2d.t)
    (srf : SSurface.t) {struct f} : option BspClass.t :=
  match f with
  | Node fa fb _ _ fmore =>
      let ba := Point2d_Minus fb fa in
      if (ScaledDistanceToLine p fa ba true srf <? LENGTH_EPS)%float then
        if (ScaledDistanceToLine eb fa ba false srf <? LENGTH_EPS)%float then
          if (0 <? Point2d_Dot ba (Point2d_Minus eb p))%float
          then Some BspClass.EDGE_PARALLEL
          else Some BspClass.EDGE_ANTIPARALLEL
        else Some BspClass.EDGE_OTHER
      else
        match fmore with
        | Some m => classify_on_chain m p eb srf
        | None => None
        end
  end.

Fixpoint ClassifyPoint (this : SBspUv) (p eb : Point2d.t)
    (srf : SSurface.t) {struct this} : BspClass.t :=
  match this with
  | Node a b pos neg more =>
      let dp := ScaledSignedDistanceToLine p a b srf in
      if (abs dp <? LENGTH_EPS)%float then
        match classify_on_chain this p eb srf with
        | Some c => c
        | None =>
            let c1 :=
              match neg with
              | Some n => ClassifyPoint n p eb srf
              | None => BspClass.OUTSIDE
              end in
            let c2 :=
              match pos with
              | Some n => ClassifyPoint n p eb srf
              | None => BspClass.INSIDE
              end in
            (* [c1 != c2] only prints a diagnostic *)
            c1
        end
      else if (0 <? dp)%float then
        match pos with
        | Some n => ClassifyPoint n p eb srf
        | None => BspClass.INSIDE
        end
      else
        match neg with
        | Some n => ClassifyPoint n p eb srf
        | None => BspClass.OUTSIDE
        end
  end.

Definition ClassifyEdge (this : SBspUv) (ea eb : Point2d.t)
    (srf : SSurface.t) : BspClass.t :=
  let ret :=
    ClassifyPoint this (Point2d_ScaledBy (Point2d_Plus ea eb) 0.5) eb srf in
  if BspClass.eqb ret BspClass.EDGE_OTHER then
    ClassifyPoint this
      (Point2d_Plus ea (Point2d_ScaledBy (Point2d_Minus eb ea) 0.294)) eb srf
  else ret.

Fixpoint MinimumDistanceToEdge (this : SBspUv) (p : Point2d.t)
    (srf : SSurface.t) {struct this} : float :=
  match this with
  | Node a b pos neg _ =>
      let dn :=
        match neg with
        | Some n => MinimumDistanceToEdge n p srf
        | None => VERY_POSITIVE
        end in
      let dp :=
        match pos with
        | Some n => MinimumDistanceToEdge n p srf
        | None => VERY_POSITIVE
        end in
      let '(p, as_, bs) := ScalePoints p a b srf in
      let d := Point2d_DistanceToLine p as_ (Point2d_Minus bs as_) true in
      fmin d (fmin dn dp)
  end.

(** ** Curve splitter *)

(** [pi->srf == srfA] for a possibly null [srfA]. *)
Definition same_surface (q : SurfPtr.t) (r : option SurfPtr.t) : bool :=
  match r with
  | Some r => SurfPtr.eqb q r
  | None => false
  end.

(** The classification of an intersection in the UV of its surface, and its
    distance to the trim boundary, as [MakeCopySplitAgainst] computes them:
    [OUTSIDE] and [VERY_POSITIVE] for a surface without a BSP. *)
Definition inter_class (pi : SInter.t) : BspClass.t :=
  let s := SurfPtr.target (SInter.srf pi) in
  let puv := ClosestPointTo s (SInter.p pi) false in
  let dummy := Point2d.mk 0 0 in
  match SSurface.bsp s with
  | Some t => ClassifyPoint t puv dummy s
  | None => BspClass.OUTSIDE
  end.

Definition inter_distance (pi : SInter.t) : float :=
  let s := SurfPtr.target (SInter.srf pi) in
  let puv := ClosestPointTo s (SInter.p pi) false in
  match SSurface.bsp s with
  | Some t => MinimumDistanceToEdge t puv s
  | None => VERY_POSITIVE
  end.

(** The body of the loop over [il]: the intersection is tagged for removal,
    or refined to lie on the three surfaces. *)
Definition refine_inter (srfA srfB : option SurfPtr.t) (pi : SInter.t)
    : SInter.t :=
  if same_surface (SInter.srf pi) srfA || same_surface (SInter.srf pi) srfB
  then with_tag 1%Z pi
  else
    let s := SurfPtr.target (SInter.srf pi) in
    let puv := ClosestPointTo s (SInter.p pi) false in
    let c := inter_class pi in
    if BspClass.eqb c BspClass.OUTSIDE
       && (ChordTolMm <? inter_distance pi)%float
    then with_tag 1%Z pi
    else
      let puv := PointOnSurfaces s srfA srfB puv in
      SInter.mk (SInter.tag pi) (PointAt s puv) (SInter.srf pi).

(** [il] after [ClearTags], the loop and [RemoveTagged]. *)
Definition refine_intersections (srfA srfB : option SurfPtr.t)
    (il : list SInter.t) : list SInter.t :=
  RemoveTagged (map (refine_inter srfA srfB) (ClearTags il)).

(** The points emitted for the sorted intersections, [prev] being the last
    intersection seen. *)
Fixpoint emit_split_points (prev : Vector.t) (il : list SInter.t)
    : list SCurvePt.t :=
  match il with
  | [] => []
  | pi :: il' =>
      (if negb (Vector_Equals prev (SInter.p pi))
       then [SCurvePt.mk 0 (SInter.p pi) true]
       else [])
      ++ emit_split_points (SInter.p pi) il'
  end.

(** What one iteration of the loop over the PWL adds to [ret.pts] before the
    end point [p] of the segment. *)
Definition split_segment (agnstA agnstB : option ShellPtr.t)
    (srfA srfB : option SurfPtr.t) (prev p : SCurvePt.t)
    : list SCurvePt.t :=
  let il := [] in
  let il :=
    match agnstA with
    | Some s =>
        AllPointsIntersecting s (SCurvePt.p prev) (SCurvePt.p p) il
          true false true
    | None => il
    end in
  let il :=
    match agnstB with
    | Some s =>
        AllPointsIntersecting s (SCurvePt.p prev) (SCurvePt.p p) il
          true false true
    | None => il
    end in
  match il with
  | [] => []
  | _ :: _ =>
      let il := refine_intersections srfA srfB il in
      let lineStart := SCurvePt.p prev in
      let lineDirection := Vector_Minus (SCurvePt.p p) (SCurvePt.p prev) in
      let before (a b : SInter.t) : bool :=
        let ta :=
          Vector_DivProjected (Vector_Minus (SInter.p a) lineStart)
            lineDirection in
        let tb :=
          Vector_DivProjected (Vector_Minus (SInter.p b) lineStart)
            lineDirection in
        (ta <? tb)%float in
      let il := std_sort before il in
      emit_split_points (Vector.mk VERY_POSITIVE 0 0) il
  end.

(** The loop over the PWL points after the first: [ret_pts] is [ret.pts]. *)
Fixpoint split_loop (agnstA agnstB : option ShellPtr.t)
    (srfA srfB : option SurfPtr.t) (prev : SCurvePt.t)
    (rest ret_pts : list SCurvePt.t) {struct rest} : list SCurvePt.t :=
  match rest with
  | [] => ret_pts
  | p :: rest' =>
      split_loop agnstA agnstB srfA srfB p rest'
        ((ret_pts ++ split_segment agnstA agnstB srfA srfB prev p) ++ [p])
  end.

(** [SCurve::MakeCopySplitAgainst]: [None] is the failed assertion on an
    empty curve. *)
Definition MakeCopySplitAgainst (this : SCurve.t)
    (agnstA agnstB : option ShellPtr.t) (srfA srfB : option SurfPtr.t)
    : option SCurve.t :=
  match SCurve.pts this with
  | [] => None
  | p :: rest =>
      Some (SCurve.with_pts
              (split_loop agnstA agnstB srfA srfB p rest [p]) this)
  end.

(** ** Point list and edge list *)

(** Modelled from the spec: the point list keeps an incidence count per
    point.  [IncrementTagFor] adds one to the tag of the entry for the
    point, or appends an entry of tag one for a point not yet listed;
    [ContainsPoint] tells whether the point has an entry. *)
Fixpoint IncrementTagFor (l : list SPoint.t) (pt : Vector.t)
    : list SPoint.t :=
  match l with
  | [] => [SPoint.mk 1 pt]
  | sp :: l' =>
      if Vector_Equals pt (SPoint.p sp)
      then SPoint.mk (SPoint.tag sp + 1) (SPoint.p sp) :: l'
      else sp :: IncrementTagFor l' pt
  end.

Definition ContainsPoint (l : list SPoint.t) (pt : Vector.t) : bool :=
  existsb (fun sp => Vector_Equals pt (SPoint.p sp)) l.

(** Modelled from the spec: an edge carries two endpoints and the two
    auxiliaries; [AddEdge] appends an untagged edge. *)
Definition AddEdge (l : list SEdge.t) (a b : Vector.t) (auxA auxB : Z)
    : list SEdge.t :=
  l ++ [SEdge.mk 0 auxA auxB a b].

(** Conversions between [int] and [uint32_t]. *)
Definition u32_of_int (z : Z) : N := Z.to_N (z mod 2 ^ 32).

Definition int_of_u32 (v : N) : Z :=
  let z := (Z.of_N v mod 2 ^ 32)%Z in
  if (z <? 2 ^ 31)%Z then z else (z - 2 ^ 32)%Z.

(** ** Choosing points *)

(** The two loops of [MakeCopyTrimAgainst] that count the endpoints of an
    edge list into [choosing]. *)
Definition count_endpoints (choosing : list SPoint.t) (el : list SEdge.t)
    : list SPoint.t :=
  fold_left
    (fun ch se => IncrementTagFor (IncrementTagFor ch (SEdge.a se)) (SEdge.b se))
    el choosing.

(** The loop over [choosing.l]: a count of two becomes a set tag, any other
    count a clear tag. *)
Definition mark_degree_two (sp : SPoint.t) : SPoint.t :=
  if Z.eqb (SPoint.tag sp) 2 then with_tag 1%Z sp else with_tag 0%Z sp.

(** The list [choosing] that [MakeCopyTrimAgainst] hands to
    [FindChainAvoiding]. *)
Definition choosing_points (orig inter : list SEdge.t) : list SPoint.t :=
  let choosing := [] in
  let choosing := count_endpoints choosing orig in
  let choosing := count_endpoints choosing inter in
  RemoveTagged (map mark_degree_two choosing).

(** ** Edge chains *)

(** One run of the [for] loop of [FindChainAvoiding] from the edge [src]
    starts with: the edges with their tags, the chain, and whether an edge
    was attached. *)
Fixpoint chain_pass (avoid : list SPoint.t) (src dest : list SEdge.t)
    (s f : Vector.t) (startOkay finishOkay added : bool) {struct src}
    : list SEdge.t * list SEdge.t * bool :=
  match src with
  | [] => ([], dest, added)
  | se :: src' =>
      if negb (Z.eqb (SEdge.tag se) 0) then
        let '(r, d, m) :=
          chain_pass avoid src' dest s f startOkay finishOkay added in
        (se :: r, d, m)
      else if startOkay && Vector_Equals s (SEdge.b se) then
        let s := SEdge.a se in
        let '(r, d, m) :=
          chain_pass avoid src' (se :: dest) s f
            (negb (ContainsPoint avoid s)) finishOkay true in
        (with_tag 1%Z se :: r, d, m)
      else if finishOkay && Vector_Equals f (SEdge.a se) then
        let f := SEdge.b se in
        let '(r, d, m) :=
          chain_pass avoid src' (dest ++ [se]) s f
            startOkay (negb (ContainsPoint avoid f)) true in
        (with_tag 1%Z se :: r, d, m)
      else
        let '(r, d, m) :=
          chain_pass avoid src' dest s f startOkay finishOkay added in
        (se :: r, d, m)
  end.

(** The [do ... while(added)] loop.  Every repetition tags an edge, so the
    number of edges bounds the repetitions; [None] when [fuel] is spent or
    the chain is empty. *)
Fixpoint chain_passes (fuel : nat) (avoid : list SPoint.t)
    (src dest : list SEdge.t) {struct fuel}
    : option (list SEdge.t * list SEdge.t) :=
  match fuel with
  | O => None
  | S fuel' =>
      match dest with
      | [] => None
      | first :: _ =>
          let s := SEdge.a first in
          let f := SEdge.b (last dest first) in
          let startOkay := negb (ContainsPoint avoid s) in
          let finishOkay := negb (ContainsPoint avoid f) in
          let '(src', dest', added) :=
            chain_pass avoid src dest s f startOkay finishOkay false in
          if added then chain_passes fuel' avoid src' dest'
          else Some (src', dest')
      end
  end.

(** [SSurface::FindChainAvoiding]: the source list without the chain, and
    the chain. *)
Definition FindChainAvoiding (src dest : list SEdge.t)
    (avoid : list SPoint.t) : option (list SEdge.t * list SEdge.t) :=
  match src with
  | [] => None
  | first :: _ =>
      let dest := dest ++ [first] in
      match ClearTags src with
      | [] => None
      | first' :: rest =>
          let src := with_tag 1%Z first' :: rest in
          match chain_passes (S (length src)) avoid src dest with
          | None => None
          | Some (src, dest) => Some (RemoveTagged src, dest)
          end
      end
  end.

(** ** Trim reassembly *)

(** The [for] loop that merges the adjoining edges of one curve into the
    trim [stb]. *)
Fixpoint merge_pass (el : list SEdge.t) (stb : STrimBy.t) (merged : bool)
    {struct el} : list SEdge.t * STrimBy.t * bool :=
  match el with
  | [] => ([], stb, merged)
  | se :: el' =>
      let skip :=
        let '(r, s, m) := merge_pass el' stb merged in (se :: r, s, m) in
      let auxB := negb (Z.eqb (SEdge.auxB se) 0) in
      if negb (Z.eqb (SEdge.tag se) 0) then skip
      else if negb (Z.eqb (SEdge.auxA se) (int_of_u32 (STrimBy.curve stb)))
      then skip
      else if (auxB && negb (STrimBy.backwards stb))
              || (negb auxB && STrimBy.backwards stb)
      then skip
      else if Vector_Equals (SEdge.a se) (STrimBy.finish stb) then
        let stb :=
          STrimBy.mk (STrimBy.curve stb) (STrimBy.backwards stb)
            (STrimBy.start stb) (SEdge.b se) in
        let '(r, s, m) := merge_pass el' stb true in
        (with_tag 1%Z se :: r, s, m)
      else if Vector_Equals (SEdge.b se) (STrimBy.start stb) then
        let stb :=
          STrimBy.mk (STrimBy.curve stb) (STrimBy.backwards stb)
            (SEdge.a se) (STrimBy.finish stb) in
        let '(r, s, m) := merge_pass el' stb true in
        (with_tag 1%Z se :: r, s, m)
      else skip
  end.

(** The [do ... while(merged)] loop; [None] when [fuel] is spent. *)
Fixpoint merge_passes (fuel : nat) (el : list SEdge.t) (stb : STrimBy.t)
    {struct fuel} : option (list SEdge.t * STrimBy.t) :=
  match fuel with
  | O => None
  | S fuel' =>
      let '(el', stb', merged) := merge_pass el stb false in
      if merged then merge_passes fuel' el' stb' else Some (el', stb')
  end.

(** The search for an edge to start from: the edge, and the list with that
    edge tagged. *)
Fixpoint take_untagged (el : list SEdge.t)
    : option (SEdge.t * list SEdge.t) :=
  match el with
  | [] => None
  | se :: el' =>
      if negb (Z.eqb (SEdge.tag se) 0) then
        match take_untagged el' with
        | Some (e, r) => Some (e, se :: r)
        | None => None
        end
      else Some (se, with_tag 1%Z se :: el')
  end.

(** The [for(;;)] loop of [TrimFromEdgeList]: every repetition tags an
    edge; [None] when [fuel] is spent. *)
Fixpoint trim_loop (fuel : nat) (this : SSurface.t) (asUv : bool)
    (el : list SEdge.t) (trim : list STrimBy.t) {struct fuel}
    : option (list SEdge.t * list STrimBy.t) :=
  match fuel with
  | O => None
  | S fuel' =>
      match take_untagged el with
      | None => Some (el, trim)
      | Some (se, el) =>
          let stb :=
            STrimBy.mk (u32_of_int (SEdge.auxA se))
              (negb (Z.eqb (SEdge.auxB se) 0)) (SEdge.a se) (SEdge.b se) in
          match merge_passes (S (length el)) el stb with
          | None => None
          | Some (el, stb) =>
              let lift (v : Vector.t) : Vector.t :=
                PointAt this (Point2d.mk (Vector.x v) (Vector.y v)) in
              let stb :=
                if asUv then
                  STrimBy.mk (STrimBy.curve stb) (STrimBy.backwards stb)
                    (lift (STrimBy.start stb)) (lift (STrimBy.finish stb))
                else stb in
              trim_loop fuel' this asUv el (trim ++ [stb])
          end
      end
  end.

(** [SSurface::TrimFromEdgeList]: the surface with the merged trims added,
    and the edge list with its tags. *)
Definition TrimFromEdgeList (this : SSurface.t) (el : list SEdge.t)
    (asUv : bool) : option (SSurface.t * list SEdge.t) :=
  match trim_loop (S (length el)) this asUv (ClearTags el)
          (SSurface.trim this) with
  | None => None
  | Some (el, trim) => Some (SSurface.with_trim trim this, el)
  end.

(** ** Handles *)

(** Modelled from the spec: handles are opaque integers that index an arena,
    and the orchestrator allocates the identifiers of the result.
    [AddAndAssignId] gives the element the handle after the largest one in
    the list, appends it and returns the handle; [FindById] is the element
    with the handle, and the lookup of a handle that the list does not hold
    is an error. *)
Definition MaximumId {T : Type} `{Identified T} (l : list T) : N :=
  fold_right (fun e m => N.max (handle e) m) 0%N l.

Definition AddAndAssignId {T : Type} `{Identified T} (l : list T) (t : T)
    : list T * N :=
  let v := (MaximumId l + 1)%N in
  (l ++ [with_handle v t], v).

Definition FindById {T : Type} `{Identified T} (l : list T) (v : N)
    : option T :=
  find (fun e => N.eqb (handle e) v) l.

(** The position of the element that [FindById] returns. *)
Fixpoint IndexById {T : Type} `{Identified T} (l : list T) (v : N)
    : option nat :=
  match l with
  | [] => None
  | e :: l' =>
      if N.eqb (handle e) v then Some O
      else
        match IndexById l' v with
        | Some i => Some (S i)
        | None => None
        end
  end.

(** [shell->surface.FindById(v)] as a pointer. *)
Definition SurfaceById (sh : ShellPtr.t) (v : hSSurface)
    : option SurfPtr.t :=
  let l := SShell.surface (ShellPtr.target sh) in
  ' s <- FindById l v ;;
  ' i <- IndexById l v ;;
  Some (SurfPtr.mk (ShellPtr.id sh) i s).

(** Modelled from the spec: [GetSurfaceA] and [GetSurfaceB] resolve which
    operand shell owns the bounding surface.  A curve that came from an
    operand has both surfaces there; an intersection curve has [surfA] in
    the first operand and [surfB] in the second. *)
Definition GetSurfaceA (sc : SCurve.t) (a b : SShell.t)
    : option SSurface.t :=
  match SCurve.source sc with
  | Source.B => FindById (SShell.surface b) (SCurve.surfA sc)
  | _ => FindById (SShell.surface a) (SCurve.surfA sc)
  end.

Definition GetSurfaceB (sc : SCurve.t) (a b : SShell.t)
    : option SSurface.t :=
  match SCurve.source sc with
  | Source.A => FindById (SShell.surface a) (SCurve.surfB sc)
  | _ => FindById (SShell.surface b) (SCurve.surfB sc)
  end.

(** ** Copying the curves *)

(** The loop of [CopyCurvesSplitAgainst] over the curves [todo] that remain:
    [done] are the curves already visited, with their [newH] set. *)
Fixpoint copy_curves_loop (this : ShellPtr.t) (opA : bool)
    (agnst : ShellPtr.t) (todo done : list SCurve.t) (into : SShell.t)
    {struct todo} : option (list SCurve.t * SShell.t) :=
  match todo with
  | [] => Some (done, into)
  | sc :: todo' =>
      ' srfA <- SurfaceById this (SCurve.surfA sc) ;;
      ' srfB <- SurfaceById this (SCurve.surfB sc) ;;
      ' scn <- MakeCopySplitAgainst sc (Some agnst) None
                 (Some srfA) (Some srfB) ;;
      let scn := SCurve.with_source (if opA then Source.A else Source.B) scn in
      let '(curves, hsc) := AddAndAssignId (SShell.curve into) scn in
      copy_curves_loop this opA agnst todo'
        (done ++ [SCurve.with_newH hsc sc]) (SShell.with_curve curves into)
  end.

(** [SShell::CopyCurvesSplitAgainst]: the shell with the new handles noted,
    and [into]. *)
Definition CopyCurvesSplitAgainst (this : ShellPtr.t) (opA : bool)
    (agnst : ShellPtr.t) (into : SShell.t) : option (SShell.t * SShell.t) :=
  ' (curves, into) <-
      copy_curves_loop this opA agnst
        (SShell.curve (ShellPtr.target this)) [] into ;;
  Some (SShell.with_curve curves (ShellPtr.target this), into).

(** ** Trimming a surface *)

(** [SSurface::EdgeNormalsWithinSurface]: the results [pt], [enin], [enout]
    and [surfn]. *)
Definition EdgeNormalsWithinSurface (this : SSurface.t)
    (auv buv : Point2d.t) (auxA : N) (shell sha shb : SShell.t)
    : option (Vector.t * Vector.t * Vector.t * Vector.t) :=
  let muv := Point2d_ScaledBy (Point2d_Plus auv buv) 0.5 in
  let pt := PointAt this muv in
  ' sc <- FindById (SShell.curve shell) auxA ;;
  ' (pt, muv) <-
      (if SCurve.isExact sc
          && negb (Z.eqb (SBezier_deg (SCurve.exact sc)) 1)
       then
         let t := SBezier_ClosestPointTo (SCurve.exact sc) pt false in
         let pt := SBezier_PointAt (SCurve.exact sc) t in
         Some (pt, ClosestPointTo this pt true)
       else if negb (SCurve.isExact sc) then
         ' trimmedA <- GetSurfaceA sc sha shb ;;
         ' trimmedB <- GetSurfaceB sc sha shb ;;
         let pt := ClosestPointOnThisAndSurface trimmedA trimmedB pt in
         Some (pt, ClosestPointTo this pt true)
       else Some (pt, muv)) ;;
  let surfn := NormalAt this (Point2d.x muv) (Point2d.y muv) in
  let ab := Vector_Minus (PointAt this auv) (PointAt this buv) in
  let enxyz := Vector_WithMagnitude (Vector_Cross ab surfn) ChordTolMm in
  let '(tu, tv) := TangentsAt this (Point2d.x muv) (Point2d.y muv) in
  let enuv :=
    Point2d.mk (Vector_Dot enxyz tu / Vector_MagSquared tu)%float
               (Vector_Dot enxyz tv / Vector_MagSquared tv)%float in
  let pin := PointAt this (Point2d_Minus muv enuv) in
  let pout := PointAt this (Point2d_Plus muv enuv) in
  Some (pt, Vector_Minus pin pt, Vector_Minus pout pt, surfn).

(** The first loop of [MakeCopyTrimAgainst]: the trims with their curves
    renamed to the split curves. *)
Fixpoint rewrite_trims (curves : list SCurve.t) (trim ret_trim : list STrimBy.t)
    {struct trim} : option (list STrimBy.t) :=
  match trim with
  | [] => Some ret_trim
  | stb :: trim' =>
      ' sc <- FindById curves (STrimBy.curve stb) ;;
      let stn :=
        STrimBy.mk (SCurve.newH sc) (STrimBy.backwards stb)
          (STrimBy.start stb) (STrimBy.finish stb) in
      rewrite_trims curves trim' (ret_trim ++ [stn])
  end.

(** The loop over the segments of an intersection curve: [a] is the point
    before [rest]. *)
Fixpoint inter_segments (ret ss : SSurface.t) (flip : bool) (hv : Z)
    (a : Vector.t) (rest : list SCurvePt.t) (inter : list SEdge.t)
    {struct rest} : list SEdge.t :=
  match rest with
  | [] => inter
  | q :: rest' =>
      let b := SCurvePt.p q in
      let auv := ClosestPointTo ss a true in
      let buv := ClosestPointTo ss b true in
      let c :=
        match SSurface.bsp ss with
        | Some t => ClassifyEdge t auv buv ss
        | None => BspClass.OUTSIDE
        end in
      let inter :=
        if negb (BspClass.eqb c BspClass.OUTSIDE) then
          let tauv := ClosestPointTo ret a true in
          let tbuv := ClosestPointTo ret b true in
          let ta := Vector.mk (Point2d.x tauv) (Point2d.y tauv) 0 in
          let tb := Vector.mk (Point2d.x tbuv) (Point2d.y tbuv) 0 in
          let tn := NormalAt ret (Vector.x ta) (Vector.y ta) in
          let sn := NormalAt ss (Point2d.x auv) (Point2d.y auv) in
          let bkwds := true in
          let bkwds :=
            if (Vector_Dot (Vector_Cross tn (Vector_Minus b a)) sn <? 0)%float
            then negb bkwds else bkwds in
          let bkwds := if flip then negb bkwds else bkwds in
          if bkwds then AddEdge inter tb ta hv 1
          else AddEdge inter ta tb hv 0
        else inter in
      inter_segments ret ss flip hv b rest' inter
  end.

(** The loop over the curves of [into] for one surface [ss] of the other
    shell. *)
Definition inter_of_surface (this ret ss : SSurface.t) (opA flip : bool)
    (curves : list SCurve.t) (inter : list SEdge.t) : list SEdge.t :=
  fold_left
    (fun inter sc =>
       if negb (Source.eqb (SCurve.source sc) Source.INTERSECTION) then inter
       else if
         (if opA
          then negb (N.eqb (SCurve.surfA sc) (SSurface.h this))
               || negb (N.eqb (SCurve.surfB sc) (SSurface.h ss))
          else negb (N.eqb (SCurve.surfB sc) (SSurface.h this))
               || negb (N.eqb (SCurve.surfA sc) (SSurface.h ss)))
       then inter
       else
         match SCurve.pts sc with
         | [] => inter
         | p0 :: rest =>
             inter_segments ret ss flip (int_of_u32 (SCurve.h sc))
               (SCurvePt.p p0) rest inter
         end)
    curves inter.

(** The two [while] loops that consume an edge list chain by chain:
    [orig_side] classifies the chosen edge against the original trim
    polygon.  Every repetition removes an edge from [src]; [None] when
    [fuel] is spent or an assertion fails. *)
Fixpoint keep_chains (fuel : nat) (ret : SSurface.t)
    (agnst into sha shb : SShell.t) (type : CombineAs) (opA : bool)
    (choosing : list SPoint.t)
    (orig_side : Point2d.t -> Point2d.t -> ShellClass.t * ShellClass.t)
    (src final : list SEdge.t) {struct fuel} : option (list SEdge.t) :=
  match src with
  | [] => Some final
  | _ :: _ =>
      match fuel with
      | O => None
      | S fuel' =>
          ' (src, chain) <- FindChainAvoiding src [] choosing ;;
          ' se <- nth_error chain (length chain / 2) ;;
          let auv := Vector_ProjectXy (SEdge.a se) in
          let buv := Vector_ProjectXy (SEdge.b se) in
          ' (pt, enin, enout, surfn) <-
              EdgeNormalsWithinSurface ret auv buv
                (u32_of_int (SEdge.auxA se)) into sha shb ;;
          let '(indir_orig, outdir_orig) := orig_side auv buv in
          let '(indir_shell, outdir_shell) :=
            SShell_ClassifyEdge agnst (PointAt ret auv) (PointAt ret buv)
              pt enin enout surfn in
          ' keep <-
              KeepEdge type opA indir_shell outdir_shell
                indir_orig outdir_orig ;;
          let final :=
            if keep then
              fold_left
                (fun fl se =>
                   AddEdge fl (SEdge.a se) (SEdge.b se)
                     (SEdge.auxA se) (SEdge.auxB se))
                chain final
            else final in
          keep_chains fuel' ret agnst into sha shb type opA choosing
            orig_side src final
      end
  end.

(** [SSurface::MakeCopyTrimAgainst]: the trimmed copy, and [into] with its
    failure flag. *)
Definition MakeCopyTrimAgainst (this : SSurface.t)
    (parent sha shb : ShellPtr.t) (into : SShell.t) (type : CombineAs)
    : option (SSurface.t * SShell.t) :=
  let opA := ShellId_eqb (ShellPtr.id parent) (ShellPtr.id sha) in
  let agnst := ShellPtr.target (if opA then shb else sha) in
  let sha := ShellPtr.target sha in
  let shb := ShellPtr.target shb in
  ' trims <-
      rewrite_trims (SShell.curve (ShellPtr.target parent))
        (SSurface.trim this) [] ;;
  let ret := SSurface.with_trim trims this in
  let flip :=
    match type with
    | DIFFERENCE => negb opA
    | _ => false
    end in
  let ret := if flip then Reverse ret else ret in
  let orig := MakeEdgesInto ret into UV None in
  let ret := SSurface.with_trim [] ret in
  let origBsp := SBspUv_From orig ret in
  let inter :=
    fold_left
      (fun inter ss =>
         inter_of_surface this ret ss opA flip (SShell.curve into) inter)
      (SShell.surface agnst) [] in
  let choosing := choosing_points orig inter in
  ' final <-
      keep_chains (length orig) ret agnst into sha shb type opA choosing
        (fun _ _ => (ShellClass.INSIDE, ShellClass.OUTSIDE)) orig [] ;;
  ' final <-
      keep_chains (length inter) ret agnst into sha shb type opA choosing
        (fun auv buv =>
           TagByClassifiedEdge
             match origBsp with
             | Some t => ClassifyEdge t auv buv ret
             | None => BspClass.OUTSIDE
             end)
        inter final ;;
  let final := CullExtraneousEdges final in
  ' (ret, final) <- TrimFromEdgeList ret final true ;;
  let final := ClearTags final in
  let into :=
    if negb (AssemblePolygon final)
    then SShell.with_booleanFailed true into
    else into in
  Some (ret, into).

(** The loop of [CopySurfacesTrimAgainst]: [this] is the shell whose
    surfaces are copied, and one of [sha] and [shb] points to it. *)
Fixpoint copy_surfaces_loop (this sha shb : ShellPtr.t)
    (todo done : list SSurface.t) (into : SShell.t) (type : CombineAs)
    {struct todo} : option (list SSurface.t * SShell.t) :=
  match todo with
  | [] => Some (done, into)
  | ss :: todo' =>
      let now :=
        ShellPtr.mk (ShellPtr.id this)
          (SShell.with_surface (done ++ todo) (ShellPtr.target this)) in
      let sync (q : ShellPtr.t) : ShellPtr.t :=
        if ShellId_eqb (ShellPtr.id q) (ShellPtr.id this) then now else q in
      ' (ssn, into) <-
          MakeCopyTrimAgainst ss now (sync sha) (sync shb) into type ;;
      let '(surfaces, hs) := AddAndAssignId (SShell.surface into) ssn in
      copy_surfaces_loop this sha shb todo'
        (done ++ [SSurface.with_newH hs ss])
        (SShell.with_surface surfaces into) type
  end.

(** [SShell::CopySurfacesTrimAgainst]: the shell with the new handles
    noted, and [into]. *)
Definition CopySurfacesTrimAgainst (this sha shb : ShellPtr.t)
    (into : SShell.t) (type : CombineAs) : option (SShell.t * SShell.t) :=
  ' (surfaces, into) <-
      copy_surfaces_loop this sha shb
        (SShell.surface (ShellPtr.target this)) [] into type ;;
  Some (SShell.with_surface surfaces (ShellPtr.target this), into).

(** ** Intersection curves *)

(** Modelled from the spec: [IntersectAgainst] appends intersection curves
    to [into]; each gets its identifier from [AddAndAssignId]. *)
Definition add_curves (into : SShell.t) (l : list SCurve.t) : SShell.t :=
  fold_left
    (fun into sc =>
       SShell.with_curve (fst (AddAndAssignId (SShell.curve into) sc)) into)
    l into.

(** [SShell::MakeIntersectionCurvesAgainst]: [into] with the curves. *)
Definition MakeIntersectionCurvesAgainst (this agnst into : SShell.t)
    : SShell.t :=
  fold_left
    (fun into sa =>
       fold_left
         (fun into sb =>
            add_curves into (IntersectAgainst sa sb this agnst into))
         (SShell.surface agnst) into)
    (SShell.surface this) into.

(** ** Clean-up and handle rewriting *)

(** [SShell::CleanupAfterBoolean]. *)
Definition CleanupAfterBoolean (this : SShell.t) : SShell.t :=
  SShell.with_surface (map (SSurface.with_edges []) (SShell.surface this)) this.

(** The loop of [RewriteSurfaceHandlesForCurves]. *)
Fixpoint rewrite_handles_loop (a b : SShell.t) (todo done : list SCurve.t)
    {struct todo} : option (list SCurve.t) :=
  match todo with
  | [] => Some done
  | sc :: todo' =>
      ' sa <- GetSurfaceA sc a b ;;
      ' sb <- GetSurfaceB sc a b ;;
      rewrite_handles_loop a b todo'
        (done ++ [SCurve.with_surfs (SSurface.newH sa) (SSurface.newH sb) sc])
  end.

(** [SShell::RewriteSurfaceHandlesForCurves]. *)
Definition RewriteSurfaceHandlesForCurves (this a b : SShell.t)
    : option SShell.t :=
  ' curves <- rewrite_handles_loop a b (SShell.curve this) [] ;;
  Some (SShell.with_curve curves this).

(** ** Assembly *)

(** The loop of [MakeFromAssemblyOf] that copies the curves of the operand
    [ab] into [this]. *)
Fixpoint assemble_curves (src : Source.t) (todo done : list SCurve.t)
    (this : SShell.t) {struct todo} : list SCurve.t * SShell.t :=
  match todo with
  | [] => (done, this)
  | c :: todo' =>
      let cn := SCurve_FromTransformationOf c in
      let cn := SCurve.with_source src cn in
      let '(curves, hc) := AddAndAssignId (SShell.curve this) cn in
      assemble_curves src todo' (done ++ [SCurve.with_newH hc c])
        (SShell.with_curve curves this)
  end.

(** The loop that copies the surfaces of the operand, whose curves are
    [ab_curves], into [this]. *)
Fixpoint assemble_surfaces (ab_curves : list SCurve.t)
    (todo done : list SSurface.t) (this : SShell.t) {struct todo}
    : option (list SSurface.t * SShell.t) :=
  match todo with
  | [] => Some (done, this)
  | s :: todo' =>
      let sn := SSurface_FromTransformationOf s in
      ' trims <- rewrite_trims ab_curves (SSurface.trim sn) [] ;;
      let sn := SSurface.with_trim trims sn in
      let '(surfaces, hs) := AddAndAssignId (SShell.surface this) sn in
      assemble_surfaces ab_curves todo' (done ++ [SSurface.with_newH hs s])
        (SShell.with_surface surfaces this)
  end.

(** [SShell::MakeFromAssemblyOf]: the result and the two operands. *)
Definition MakeFromAssemblyOf (this a b : SShell.t)
    : option (SShell.t * SShell.t * SShell.t) :=
  let this := SShell.with_booleanFailed false this in
  let '(ca, this) := assemble_curves Source.A (SShell.curve a) [] this in
  let a := SShell.with_curve ca a in
  let '(cb, this) := assemble_curves Source.B (SShell.curve b) [] this in
  let b := SShell.with_curve cb b in
  ' (sa, this) <-
      assemble_surfaces (SShell.curve a) (SShell.surface a) [] this ;;
  let a := SShell.with_surface sa a in
  ' (sb, this) <-
      assemble_surfaces (SShell.curve b) (SShell.surface b) [] this ;;
  let b := SShell.with_surface sb b in
  ' this <- RewriteSurfaceHandlesForCurves this a b ;;
  Some (this, a, b).

(** ** Boolean *)

(** [SSurface::MakeClassifyingBsp]; [shell_with s] is the shell that holds
    the surface, with [s] in the place of the surface. *)
Definition MakeClassifyingBsp (this : SSurface.t)
    (shell_with : SSurface.t -> SShell.t) (useCurvesFrom : option SShell.t)
    : SSurface.t :=
  let el := MakeEdgesInto this (shell_with this) UV useCurvesFrom in
  let this := SSurface.with_bsp (SBspUv_From el this) this in
  let this := SSurface.with_edges [] this in
  SSurface.with_edges
    (MakeEdgesInto this (shell_with this) XYZ useCurvesFrom) this.

Fixpoint classifying_bsps_loop (this : SShell.t)
    (useCurvesFrom : option SShell.t) (todo done : list SSurface.t)
    {struct todo} : list SSurface.t :=
  match todo with
  | [] => done
  | ss :: todo' =>
      let shell_with (s : SSurface.t) : SShell.t :=
        SShell.with_surface (done ++ s :: todo') this in
      classifying_bsps_loop this useCurvesFrom todo'
        (done ++ [MakeClassifyingBsp ss shell_with useCurvesFrom])
  end.

(** [SShell::MakeClassifyingBsps]. *)
Definition MakeClassifyingBsps (this : SShell.t)
    (useCurvesFrom : option SShell.t) : SShell.t :=
  SShell.with_surface
    (classifying_bsps_loop this useCurvesFrom (SShell.surface this) [])
    this.

(** The loop of [MakeFromBoolean] that removes the short segments of the
    curves of the result. *)
Fixpoint short_segments_loop (a b : SShell.t) (todo done : list SCurve.t)
    {struct todo} : option (list SCurve.t) :=
  match todo with
  | [] => Some done
  | sc :: todo' =>
      ' srfA <- GetSurfaceA sc a b ;;
      ' srfB <- GetSurfaceB sc a b ;;
      short_segments_loop a b todo'
        (done ++ [SCurve.with_pts (RemoveShortSegments sc srfA srfB) sc])
  end.

(** [SShell::MakeFromBoolean]: the result and the two operands. *)
Definition MakeFromBoolean (this a b : SShell.t) (type : CombineAs)
    : option (SShell.t * SShell.t * SShell.t) :=
  let this := SShell.with_booleanFailed false this in
  let a := MakeClassifyingBsps a None in
  let b := MakeClassifyingBsps b None in
  ' (a, this) <-
      CopyCurvesSplitAgainst (ShellPtr.mk OperandA a) true
        (ShellPtr.mk OperandB b) this ;;
  ' (b, this) <-
      CopyCurvesSplitAgainst (ShellPtr.mk OperandB b) false
        (ShellPtr.mk OperandA a) this ;;
  let this := MakeIntersectionCurvesAgainst a b this in
  ' curves <- short_segments_loop a b (SShell.curve this) [] ;;
  let this := SShell.with_curve curves this in
  let a := CleanupAfterBoolean a in
  let b := CleanupAfterBoolean b in
  let a := MakeClassifyingBsps a (Some this) in
  let b := MakeClassifyingBsps b (Some this) in
  ' (a, this) <-
      CopySurfacesTrimAgainst (ShellPtr.mk OperandA a)
        (ShellPtr.mk OperandA a) (ShellPtr.mk OperandB b) this type ;;
  ' (b, this) <-
      CopySurfacesTrimAgainst (ShellPtr.mk OperandB b)
        (ShellPtr.mk OperandA a) (ShellPtr.mk OperandB b) this type ;;
  ' this <- RewriteSurfaceHandlesForCurves this a b ;;
  let a := CleanupAfterBoolean a in
  let b := CleanupAfterBoolean b in
  Some (this, a, b).

Definition MakeFromUnionOf (this a b : SShell.t)
    : option (SShell.t * SShell.t * SShell.t) :=
  MakeFromBoolean this a b UNION.

Definition MakeFromDifferenceOf (this a b : SShell.t)
    : option (SShell.t * SShell.t * SShell.t) :=
  MakeFromBoolean this a b DIFFERENCE.

(** ** Vocabulary of the properties *)

(** [p] lies on a segment of the node or of its [more] chain: its scaled
    distance to the segment is below [LENGTH_EPS]. *)
Fixpoint on_chain_segment (f : SBspUv) (p : Point2d.t) (srf : SSurface.t)
    {struct f} : bool :=
  match f with
  | Node fa fb _ _ fmore =>
      (ScaledDistanceToLine p fa (Point2d_Minus fb fa) true srf
       <? LENGTH_EPS)%float
      || match fmore with
         | Some m => on_chain_segment m p srf
         | None => false
         end
  end.

(** The tie-break of [ClassifyPoint] in the words of the specification: the
    query descends into the child that exists, and into [neg] when both
    exist. *)
Definition tie_break_as_specified (pos neg : option SBspUv)
    (p eb : Point2d.t) (srf : SSurface.t) (c : BspClass.t) : Prop :=
  match pos, neg with
  | Some t, None => c = ClassifyPoint t p eb srf
  | _, Some n => c = ClassifyPoint n p eb srf
  | None, None => True
  end.

(** The splitting rule in the words of the specification: an intersection
    is kept when it is classified [INSIDE], or [OUTSIDE] and within the
    chord tolerance of the trim boundary, and dropped otherwise. *)
Definition keep_as_specified (pi : SInter.t) : bool :=
  BspClass.eqb (inter_class pi) BspClass.INSIDE
  || (BspClass.eqb (inter_class pi) BspClass.OUTSIDE
      && (inter_distance pi <=? ChordTolMm)%float).

(** The intersection [pi] after its refinement onto the three surfaces. *)
Definition refined (srfA srfB : option SurfPtr.t) (pi : SInter.t)
    : SInter.t :=
  let s := SurfPtr.target (SInter.srf pi) in
  SInter.mk 0
    (PointAt s (PointOnSurfaces s srfA srfB (ClosestPointTo s (SInter.p pi) false)))
    (SInter.srf pi).

(** [refines orig out]: [out] lists the points of [orig] in their order,
    starts and ends with the first and the last of them, and has its other
    points between two consecutive points of [orig]. *)
Inductive refines : list SCurvePt.t -> list SCurvePt.t -> Prop :=
  | refines_last (p : SCurvePt.t) : refines [p] [p]
  | refines_step (p : SCurvePt.t) (added rest out : list SCurvePt.t) :
      refines rest out -> refines (p :: rest) (p :: added ++ out).

(** The endpoints of the edges of a list, and the number of times a point
    occurs among the endpoints of the original and intersection edges. *)
Definition endpoints (el : list SEdge.t) : list Vector.t :=
  flat_map (fun se => [SEdge.a se; SEdge.b se]) el.

Definition incidence (q : Vector.t) (orig inter : list SEdge.t) : nat :=
  length (filter (Vector_Equals q) (endpoints (orig ++ inter))).

(** The number of elements of a list with the handle [v]. *)
Definition count_handle {T : Type} `{Identified T} (v : N) (l : list T)
    : nat :=
  length (filter (fun e => N.eqb (handle e) v) l).

(** The handle [v] designates exactly one element of the list [l], and that
    element is not among the first [n0], the ones the list held before the
    run. *)
Definition designates_one_added {T : Type} `{Identified T} (n0 : nat)
    (v : N) (l : list T) : Prop :=
  count_handle v l = 1 /\ count_handle v (firstn n0 l) = 0.

(** The handle [v] is the handle of a surface of the shell. *)
Definition resolves (v : hSSurface) (sh : SShell.t) : Prop :=
  exists s : SSurface.t, In s (SShell.surface sh) /\ SSurface.h s = v.

(** Two curves that differ in [newH] at most; two surfaces that differ in
    the scratch fields [newH], [bsp] and [edges] at most; an operand shell
    before and after a run that kept everything else. *)
Definition same_but_newH (c c' : SCurve.t) : Prop :=
  c' = SCurve.with_newH (SCurve.newH c') c.

Definition same_but_scratch (s s' : SSurface.t) : Prop :=
  SSurface.h s' = SSurface.h s
  /\ SSurface.geom s' = SSurface.geom s
  /\ SSurface.trim s' = SSurface.trim s.

Definition operand_kept (x x' : SShell.t) : Prop :=
  SShell.booleanFailed x' = SShell.booleanFailed x
  /\ Forall2 same_but_newH (SShell.curve x) (SShell.curve x')
  /\ Forall2 same_but_scratch (SShell.surface x) (SShell.surface x').

(** The curve [c] of an operand has become [c'], with nothing but [newH]
    changed, and the [newH] of [c'] designates one curve of the list [l]
    that is not among its first [n0]; the same for a surface and the
    scratch fields. *)
Definition curve_designates (n0 : nat) (l : list SCurve.t)
    (c c' : SCurve.t) : Prop :=
  same_but_newH c c' /\ designates_one_added n0 (SCurve.newH c') l.

Definition surface_designates (n0 : nat) (l : list SSurface.t)
    (s s' : SSurface.t) : Prop :=
  same_but_scratch s s' /\ designates_one_added n0 (SSurface.newH s') l.

(** Every scratch field of the shell is clear: no BSP, no edge list, and
    null [newH] slots. *)
Definition scratch_is_reset (x : SShell.t) : bool :=
  forallb
    (fun s =>
       match SSurface.bsp s with
       | None => true
       | Some _ => false
       end
       && match SSurface.edges s with
          | [] => true
          | _ :: _ => false
          end
       && N.eqb (SSurface.newH s) 0)
    (SShell.surface x)
  && forallb (fun c => N.eqb (SCurve.newH c) 0) (SShell.curve x).

(** ** Vocabulary of the proofs *)

(** The number of edges of a list whose tag is clear: what the loops over
    tagged edge lists use up. *)
Definition untagged (el : list SEdge.t) : nat :=
  length (filter (fun e => Z.eqb (SEdge.tag e) 0) el).

(** What the loop over the PWL appends after [prev]. *)
Fixpoint split_tail (agnstA agnstB : option ShellPtr.t)
    (srfA srfB : option SurfPtr.t) (prev : SCurvePt.t)
    (rest : list SCurvePt.t) {struct rest} : list SCurvePt.t :=
  match rest with
  | [] => []
  | p :: rest' =>
      split_segment agnstA agnstB srfA srfB prev p
      ++ p :: split_tail agnstA agnstB srfA srfB p rest'
  end.

(** The count that the list holds for a point: the tag of its entry. *)
Fixpoint tag_of (q : Vector.t) (l : list SPoint.t) : Z :=
  match l with
  | [] => 0
  | sp :: l' =>
      if Vector_Equals q (SPoint.p sp) then SPoint.tag sp else tag_of q l'
  end.

Definition occurrences (q : Vector.t) (pts : list Vector.t) : nat :=
  length (filter (Vector_Equals q) pts).

(** The comparison of points is reflexive, symmetric and transitive on the
    points of the list: the points fall into classes of points that compare
    equal with each other and with no other point of the list. *)
Definition equivalence_on (pts : list Vector.t) : Prop :=
  (forall p, In p pts -> Vector_Equals p p = true)
  /\ (forall p q,
        In p pts -> In q pts ->
        Vector_Equals p q = true -> Vector_Equals q p = true)
  /\ (forall p q r,
        In p pts -> In q pts -> In r pts ->
        Vector_Equals p q = true -> Vector_Equals q r = true ->
        Vector_Equals p r = true).

(** No entry of the point list compares equal with a later one. *)
Fixpoint separated (l : list SPoint.t) : Prop :=
  match l with
  | [] => True
  | sp :: l' =>
      (forall sp', In sp' l' ->
         Vector_Equals (SPoint.p sp) (SPoint.p sp') = false)
      /\ separated l'
  end.

(** The handle [v] was given out by [AddAndAssignId] when the list held at
    least [n0] elements: it stands at one place, the handles before it are
    smaller and the handles after it are larger. *)
Definition allocated {T : Type} `{Identified T} (n0 : nat) (v : N)
    (l : list T) : Prop :=
  exists before after : list N,
    map handle l = before ++ v :: after
    /\ n0 <= length before
    /\ Forall (fun u => (u < v)%N) before
    /\ Forall (fun u => (v < u)%N) after.

(** The list [l'] continues the list [l]. *)
Definition grows {T : Type} `{Identified T} (l l' : list T) : Prop :=
  length l <= length l'
  /\ forall (n0 : nat) (v : N), allocated n0 v l -> allocated n0 v l'.

(** Two surfaces that differ in [newH] at most. *)
Definition same_but_newH_s (s s' : SSurface.t) : Prop :=
  s' = SSurface.with_newH (SSurface.newH s') s.

(** After the rewriting a curve names the [newH] of two operand surfaces. *)
Definition names_new_handles (a b : SShell.t) (c : SCurve.t) : Prop :=
  exists sa sb : SSurface.t,
    In sa (SShell.surface a ++ SShell.surface b)
    /\ In sb (SShell.surface a ++ SShell.surface b)
    /\ SCurve.surfA c = SSurface.newH sa
    /\ SCurve.surfB c = SSurface.newH sb.

(** What a completed run establishes: the handles noted in the operands are
    allocated in the result, the curves of the result name allocated
    surface handles, the flag of the result, and what became of the
    operands. *)
Record run_facts (keeps_flag : bool) (this a b r a' b' : SShell.t)
    : Prop := {
  rf_curves :
    Forall
      (fun c => allocated (length (SShell.curve this)) (SCurve.newH c)
                  (SShell.curve r))
      (SShell.curve a' ++ SShell.curve b');
  rf_surfaces :
    Forall
      (fun s => allocated (length (SShell.surface this)) (SSurface.newH s)
                  (SShell.surface r))
      (SShell.surface a' ++ SShell.surface b');
  rf_names :
    Forall
      (fun c =>
         allocated (length (SShell.surface this)) (SCurve.surfA c)
           (SShell.surface r)
         /\ allocated (length (SShell.surface this)) (SCurve.surfB c)
              (SShell.surface r))
      (SShell.curve r);
  rf_flag :
    keeps_flag = true -> SShell.booleanFailed r = false;
  rf_a : operand_kept a a';
  rf_b : operand_kept b b'
}.

(** ** Vocabulary of the further properties *)

(** The segments that a tree holds: those of its nodes, of their subtrees
    and of their [more] chains. *)
Fixpoint segments (t : SBspUv) {struct t} : list (Point2d.t * Point2d.t) :=
  match t with
  | Node a b pos neg more =>
      (a, b)
      :: match pos with
         | Some n => segments n
         | None => []
         end
      ++ match neg with
         | Some n => segments n
         | None => []
         end
      ++ match more with
         | Some n => segments n
         | None => []
         end
  end.

Definition subtree_segments (o : option SBspUv)
    : list (Point2d.t * Point2d.t) :=
  match o with
  | Some n => segments n
  | None => []
  end.

(** The segment of the root node. *)
Definition root_segment (t : SBspUv) : Point2d.t * Point2d.t :=
  match t with
  | Node a b _ _ _ => (a, b)
  end.

(** The tree without the [more] chains of its nodes. *)
Fixpoint without_more (t : SBspUv) {struct t} : SBspUv :=
  match t with
  | Node a b pos neg _ =>
      Node a b
        match pos with
        | Some n => Some (without_more n)
        | None => None
        end
        match neg with
        | Some n => Some (without_more n)
        | None => None
        end
        None
  end.

(** The three classes of a point that lies on an edge. *)
Definition is_edge_class (c : BspClass.t) : bool :=
  match c with
  | BspClass.EDGE_PARALLEL | BspClass.EDGE_ANTIPARALLEL
  | BspClass.EDGE_OTHER => true
  | _ => false
  end.

(** [p] is within [LENGTH_EPS] of the segment from [a] to [b]. *)
Definition on_segment (p a b : Point2d.t) (srf : SSurface.t) : bool :=
  (ScaledDistanceToLine p a (Point2d_Minus b a) true srf <? LENGTH_EPS)%float.

(** Two consecutive edges of a chain: the second starts where the first
    ends, by the comparison that attached the one to the other, and the
    point where they join is not a point to avoid. *)
Definition joined (avoid : list SPoint.t) (e1 e2 : SEdge.t) : bool :=
  (Vector_Equals (SEdge.a e2) (SEdge.b e1)
   && negb (ContainsPoint avoid (SEdge.a e2)))
  || (Vector_Equals (SEdge.b e1) (SEdge.a e2)
      && negb (ContainsPoint avoid (SEdge.b e1))).

Fixpoint chained (avoid : list SPoint.t) (l : list SEdge.t) {struct l}
    : bool :=
  match l with
  | e1 :: l' =>
      match l' with
      | e2 :: _ => joined avoid e1 e2 && chained avoid l'
      | [] => true
      end
  | [] => true
  end.

(** The trim [stb] names the curve and the direction of an edge of the
    list. *)
Definition trim_of_edge (el : list SEdge.t) (stb : STrimBy.t) : Prop :=
  exists se : SEdge.t,
    In se el
    /\ STrimBy.curve stb = u32_of_int (SEdge.auxA se)
    /\ STrimBy.backwards stb = negb (Z.eqb (SEdge.auxB se) 0).

(** The curve [n] of the result stands for the operand curve [c']: [c']
    notes its handle, and it is marked as coming from the operand [src]. *)
Definition stands_for (src : Source.t) (c' n : SCurve.t) : Prop :=
  SCurve.newH c' = SCurve.h n /\ SCurve.source n = src.

(** The curve [c] of an operand has become [c'], with nothing but [newH]
    changed, and the list [l] holds under the [newH] of [c'] a curve marked
    as coming from the operand [src]. *)
Definition curve_kept_from (src : Source.t) (l : list SCurve.t)
    (c c' : SCurve.t) : Prop :=
  same_but_newH c c'
  /\ exists n : SCurve.t,
       FindById l (SCurve.newH c') = Some n /\ SCurve.source n = src.

(** Two states of a curve of the result with the same handle and the same
    mark of origin. *)
Definition same_mark (c c' : SCurve.t) : Prop :=
  SCurve.h c' = SCurve.h c /\ SCurve.source c' = SCurve.source c.

(** The surface [n] of the result stands for the operand surface [s']. *)
Definition stands_for_s (s' n : SSurface.t) : Prop :=
  SSurface.newH s' = SSurface.h n.

(** Every trim of the surface names the handle of a curve of the list. *)
Definition trims_resolve (curves : list SCurve.t) (s : SSurface.t) : Prop :=
  Forall
    (fun stb =>
       exists c : SCurve.t, In c curves /\ SCurve.h c = STrimBy.curve stb)
    (SSurface.trim s).

(** What a completed run has added to the result: the curves [ca] and [cb]
    that stand for the curves of the operands, the intersection curves
    [ci], and the surfaces [sa] and [sb] that stand for the surfaces of the
    operands, after what the result held before. *)
Record run_shape (this r a' b' : SShell.t) (ca cb ci : list SCurve.t)
    (sa sb : list SSurface.t) : Prop := {
  rs_curves :
    Forall2 same_mark (SShell.curve this ++ ca ++ cb ++ ci) (SShell.curve r);
  rs_surfaces : SShell.surface r = SShell.surface this ++ sa ++ sb;
  rs_a : Forall2 (stands_for Source.A) (SShell.curve a') ca;
  rs_b : Forall2 (stands_for Source.B) (SShell.curve b') cb;
  rs_sa : Forall2 stands_for_s (SShell.surface a') sa;
  rs_sb : Forall2 stands_for_s (SShell.surface b') sb
}.

(** What [MakeFromAssemblyOf] looks up: the curve of every trim of a copied
    surface in the shell of the surface, and the two surfaces of every
    curve in the operand that the source of the curve names. *)
Definition trims_found (curves : list SCurve.t) (s : SSurface.t) : Prop :=
  Forall (fun stb => FindById curves (STrimBy.curve stb) <> None)
    (SSurface.trim (SSurface_FromTransformationOf s)).

Definition surfaces_found (a b : SShell.t) (c : SCurve.t) : Prop :=
  GetSurfaceA c a b <> None /\ GetSurfaceB c a b <> None.

Definition assemblable (this a b : SShell.t) : Prop :=
  Forall (trims_found (SShell.curve a)) (SShell.surface a)
  /\ Forall (trims_found (SShell.curve b)) (SShell.surface b)
  /\ Forall
       (fun c =>
          surfaces_found a b
            (SCurve.with_source Source.A (SCurve_FromTransformationOf c)))
       (SShell.curve a)
  /\ Forall
       (fun c =>
          surfaces_found a b
            (SCurve.with_source Source.B (SCurve_FromTransformationOf c)))
       (SShell.curve b)
  /\ Forall (surfaces_found a b) (SShell.curve this).



End Boolean.

(** * Part IV: a planar instance of the collaborators

    Every surface is the plane [z = 0] with [u = x] and [v = y]; the vector
    algebra is the usual one.  The instance serves to run the definitions on
    concrete shells. *)

Module Planar.

#[export] Instance payload : Payload :=
  {| SBezier := unit; SurfaceData := unit |}.

Definition eps : float := 1e-6.
Definition very_positive : float := 1e10.

Definition p2_plus (a b : Point2d.t) : Point2d.t :=
  Point2d.mk (Point2d.x a + Point2d.x b) (Point2d.y a + Point2d.y b).

Definition p2_minus (a b : Point2d.t) : Point2d.t :=
  Point2d.mk (Point2d.x a - Point2d.x b) (Point2d.y a - Point2d.y b).

Definition p2_scaled (a : Point2d.t) (s : float) : Point2d.t :=
  Point2d.mk (Point2d.x a * s) (Point2d.y a * s).

Definition p2_dot (a b : Point2d.t) : float :=
  (Point2d.x a * Point2d.x b + Point2d.y a * Point2d.y b)%float.

Definition p2_normal (a : Point2d.t) : Point2d.t :=
  Point2d.mk (Point2d.y a) (- Point2d.x a).

Definition p2_magnitude (a : Point2d.t) : float := sqrt (p2_dot a a).

Definition p2_with_magnitude (a : Point2d.t) (v : float) : Point2d.t :=
  let m := p2_magnitude a in
  if (m <? 1e-20)%float then Point2d.mk v 0 else p2_scaled a (v / m).

Definition p2_distance_to_line (pt p0 dp : Point2d.t) (asSegment : bool)
    : float :=
  let m := p2_dot dp dp in
  if (m <? eps * eps)%float then very_positive
  else
    let t := (p2_dot dp (p2_minus pt p0) / m)%float in
    if asSegment && (t <? 0)%float then p2_magnitude (p2_minus pt p0)
    else if asSegment && (1 <? t)%float
    then p2_magnitude (p2_minus pt (p2_plus p0 dp))
    else p2_magnitude (p2_minus pt (p2_plus p0 (p2_scaled dp t))).

Definition v_minus (a b : Vector.t) : Vector.t :=
  Vector.mk (Vector.x a - Vector.x b) (Vector.y a - Vector.y b)
    (Vector.z a - Vector.z b).

Definition v_dot (a b : Vector.t) : float :=
  (Vector.x a * Vector.x b + Vector.y a * Vector.y b
   + Vector.z a * Vector.z b)%float.

Definition v_cross (a b : Vector.t) : Vector.t :=
  Vector.mk (Vector.y a * Vector.z b - Vector.z a * Vector.y b)
    (Vector.z a * Vector.x b - Vector.x a * Vector.z b)
    (Vector.x a * Vector.y b - Vector.y a * Vector.x b).

Definition v_scaled (a : Vector.t) (s : float) : Vector.t :=
  Vector.mk (Vector.x a * s) (Vector.y a * s) (Vector.z a * s).

Definition v_with_magnitude (a : Vector.t) (v : float) : Vector.t :=
  let m := sqrt (v_dot a a) in
  if (m <? 1e-20)%float then Vector.mk v 0 0 else v_scaled a (v / m).

(** Two vectors are equal when their coordinates are the same numbers. *)
Definition v_equals (a b : Vector.t) : bool :=
  Leibniz.eqb (Vector.x a) (Vector.x b)
  && Leibniz.eqb (Vector.y a) (Vector.y b)
  && Leibniz.eqb (Vector.z a) (Vector.z b).

Fixpoint insert_sorted {T : Type} (lt : T -> T -> bool) (e : T) (l : list T)
    : list T :=
  match l with
  | [] => [e]
  | e' :: l' => if lt e e' then e :: l else e' :: insert_sorted lt e l'
  end.

Definition insertion_sort (T : Type) (lt : T -> T -> bool) (l : list T)
    : list T :=
  fold_right (insert_sorted lt) [] l.

(** A toy intersector: every surface of the shell cuts the segment at its
    midpoint. *)
Definition midpoints (sh : ShellPtr.t) (a b : Vector.t)
    (il : list SInter.t) (asSegment trimmed inclTangent : bool)
    : list SInter.t :=
  let mid :=
    Vector.mk ((Vector.x a + Vector.x b) * 0.5)
      ((Vector.y a + Vector.y b) * 0.5) ((Vector.z a + Vector.z b) * 0.5) in
  il ++ map (fun '(i, s) => SInter.mk 0 mid (SurfPtr.mk (ShellPtr.id sh) i s))
          (combine (seq 0 (length (SShell.surface (ShellPtr.target sh))))
             (SShell.surface (ShellPtr.target sh))).

(** A toy surface intersector: one straight curve per pair of surfaces. *)
Definition one_curve (sa sb : SSurface.t) (a b into : SShell.t)
    : list SCurve.t :=
  [SCurve.mk 0%N 0%N Source.INTERSECTION (SSurface.h sa) (SSurface.h sb)
     false tt
     [SCurvePt.mk 0 (Vector.mk 0 0 0) true;
      SCurvePt.mk 0 (Vector.mk 1 1 0) true]].

(** A toy edge maker: one straight edge per trim, from its start to its
    finish. *)
Definition trim_edges (s : SSurface.t) (sh : SShell.t) (space : MakeAs)
    (useCurvesFrom : option SShell.t) : list SEdge.t :=
  map (fun stb =>
         SEdge.mk 0 (int_of_u32 (STrimBy.curve stb))
           (if STrimBy.backwards stb then 1 else 0)
           (STrimBy.start stb) (STrimBy.finish stb))
    (SSurface.trim s).

#[export] Instance extern : Extern :=
  {| LENGTH_EPS := eps;
     VERY_POSITIVE := very_positive;
     ChordTolMm := 0.1;
     fmin := fun a b => if (a <? b)%float then a else b;
     std_sort := insertion_sort;
     Point2d_Plus := p2_plus;
     Point2d_Minus := p2_minus;
     Point2d_ScaledBy := p2_scaled;
     Point2d_Dot := p2_dot;
     Point2d_Normal := p2_normal;
     Point2d_WithMagnitude := p2_with_magnitude;
     Point2d_DistanceToLine := p2_distance_to_line;
     Vector_Minus := v_minus;
     Vector_Cross := v_cross;
     Vector_Dot := v_dot;
     Vector_Magnitude := fun a => sqrt (v_dot a a);
     Vector_MagSquared := fun a => v_dot a a;
     Vector_WithMagnitude := v_with_magnitude;
     Vector_DivProjected := fun a b => (v_dot a b / v_dot b b)%float;
     Vector_Equals := v_equals;
     Vector_ProjectXy := fun a => Point2d.mk (Vector.x a) (Vector.y a);
     SBezier_deg := fun _ => 1%Z;
     SBezier_ClosestPointTo := fun _ _ _ => 0%float;
     SBezier_PointAt := fun _ _ => Vector.mk 0 0 0;
     TangentsAt := fun _ _ _ => (Vector.mk 1 0 0, Vector.mk 0 1 0);
     NormalAt := fun _ _ _ => Vector.mk 0 0 1;
     PointAt := fun _ uv => Vector.mk (Point2d.x uv) (Point2d.y uv) 0;
     ClosestPointTo := fun _ p _ => Point2d.mk (Vector.x p) (Vector.y p);
     ClosestPointOnThisAndSurface := fun _ _ p => p;
     PointOnSurfaces := fun _ _ _ uv => uv;
     Reverse := fun s => s;
     MakeEdgesInto := trim_edges;
     SSurface_FromTransformationOf := fun s => s;
     IntersectAgainst := one_curve;
     SCurve_FromTransformationOf := fun c => c;
     RemoveShortSegments := fun c _ _ => SCurve.pts c;
     AllPointsIntersecting := midpoints;
     SShell_ClassifyEdge :=
       fun _ _ _ _ _ _ _ => (ShellClass.OUTSIDE, ShellClass.OUTSIDE);
     CullExtraneousEdges := fun l => l;
     AssemblePolygon := fun l => true |}.

(** A segment of the [x] axis and a second segment that leaves the axis at
    [(3, 0)] towards negative [y]. *)
Definition edge (ax ay bx by_ : float) : SEdge.t :=
  SEdge.mk 0 0 0 (Vector.mk ax ay 0) (Vector.mk bx by_ 0).

Definition plane (h : hSSurface) (bsp : option SBspUv) : SSurface.t :=
  SSurface.mk h 0%N tt [] bsp [].

Definition two_edges : list SEdge.t := [edge 0 0 2 0; edge 3 0 3 (-1)].

Definition axis_tree : option SBspUv :=
  SBspUv_From two_edges (plane 1%N None).

Definition axis_child : SBspUv :=
  Node (Point2d.mk 3 0) (Point2d.mk 3 (-1)) None None None.

Definition axis_root : SBspUv :=
  Node (Point2d.mk 0 0) (Point2d.mk 2 0) (Some axis_child) None None.

(** A point of the [x] axis beyond the segment, and a point of the segment
    seen as an intersection with the trimmed plane. *)
Definition beyond : Point2d.t := Point2d.mk 2.5 0.

Definition origin : Point2d.t := Point2d.mk 0 0.

Definition trimmed_plane : SSurface.t := plane 1%N axis_tree.

Definition on_boundary : SInter.t :=
  SInter.mk 0 (Vector.mk 0.5 0 0) (SurfPtr.mk OperandB 0 trimmed_plane).

(** A square face of side one with its lower left corner at [(x0, y0)]: four
    straight curves, run through with the face on the right, and one surface
    trimmed by them.  No scratch field is set. *)
Definition side (h : hSCurve) (ax ay bx by_ : float) : SCurve.t :=
  SCurve.mk h 0%N Source.A 1%N 1%N false tt
    [SCurvePt.mk 0 (Vector.mk ax ay 0) true;
     SCurvePt.mk 0 (Vector.mk bx by_ 0) true].

Definition trim_by (h : hSCurve) (ax ay bx by_ : float) : STrimBy.t :=
  STrimBy.mk h false (Vector.mk ax ay 0) (Vector.mk bx by_ 0).

Definition square (x0 y0 : float) : SShell.t :=
  let x1 := (x0 + 1)%float in
  let y1 := (y0 + 1)%float in
  SShell.mk
    [side 1%N x0 y0 x0 y1; side 2%N x0 y1 x1 y1;
     side 3%N x1 y1 x1 y0; side 4%N x1 y0 x0 y0]
    [SSurface.mk 1%N 0%N tt
       [trim_by 1%N x0 y0 x0 y1; trim_by 2%N x0 y1 x1 y1;
        trim_by 3%N x1 y1 x1 y0; trim_by 4%N x1 y0 x0 y0]
       None []]
    false.

Definition shell_a : SShell.t := square 0 0.

Definition shell_b : SShell.t := square 0.5 0.5.

(** The result shell before a run: empty, with the flag of an earlier
    failure. *)
Definition fresh : SShell.t := SShell.mk [] [] true.

(** The second operand with its classifying BSPs, as the splitter meets
    it. *)
Definition against_b : ShellPtr.t :=
  ShellPtr.mk OperandB (MakeClassifyingBsps shell_b None).

(** The unit square and its diagonal from [(0, 0)] to [(1, 1)]: the two
    corners on the diagonal are met by three edges, the two others by
    two. *)
Definition square_edges : list SEdge.t :=
  [edge 0 0 0 1; edge 0 1 1 1; edge 1 1 1 0; edge 1 0 0 0].

Definition diagonal : list SEdge.t := [edge 0 0 1 1].

(** The union and the assembly of the two squares, started on [fresh]. *)
Definition run_or (o : option (SShell.t * SShell.t * SShell.t))
    : SShell.t * SShell.t * SShell.t :=
  match o with
  | Some x => x
  | None => (fresh, shell_a, shell_b)
  end.

Definition union_run : SShell.t * SShell.t * SShell.t :=
  run_or (MakeFromBoolean fresh shell_a shell_b UNION).

Definition union_result : SShell.t := fst (fst union_run).
Definition union_a : SShell.t := snd (fst union_run).
Definition union_b : SShell.t := snd union_run.

Definition assembly_run : SShell.t * SShell.t * SShell.t :=
  run_or (MakeFromAssemblyOf fresh shell_a shell_b).

Definition assembly_result : SShell.t := fst (fst assembly_run).
Definition assembly_a : SShell.t := snd (fst assembly_run).
Definition assembly_b : SShell.t := snd assembly_run.

(** A tree of one node on the [x] axis, a segment of the axis beyond it,
    and a point of that segment. *)
Definition axis_leaf : SBspUv :=
  Node (Point2d.mk 0 0) (Point2d.mk 2 0) None None None.

Definition further_a : Point2d.t := Point2d.mk 3 0.

Definition further_b : Point2d.t := Point2d.mk 4 0.

Definition between : Point2d.t := Point2d.mk 3.5 0.

(** The right side of the first square split against the second square,
    and the point that the split adds. *)
Definition split_side : SCurve.t :=
  match
    MakeCopySplitAgainst (side 3%N 1 1 1 0) (Some against_b) None None None
  with
  | Some c => c
  | None => side 3%N 1 1 1 0
  end.

Definition split_point : SCurvePt.t :=
  SCurvePt.mk 0 (Vector.mk 1 0.5 0) true.

(** The square with its diagonal, its choosing points, and the first chain
    that is taken from it. *)
Definition crossed_square : list SEdge.t := square_edges ++ diagonal.

Definition corners : list SPoint.t := choosing_points square_edges diagonal.

Definition first_chain : list SEdge.t * list SEdge.t :=
  match FindChainAvoiding crossed_square [] corners with
  | Some x => x
  | None => ([], [])
  end.

(** The face of the first square as the assembly leaves it, trimmed against
    the second square for a union, with the assembled shell as the shell
    that holds the curves. *)
Definition first_face : SSurface.t :=
  hd (plane 1%N None) (SShell.surface assembly_a).

Definition trim_run : SSurface.t * SShell.t :=
  match
    MakeCopyTrimAgainst first_face (ShellPtr.mk OperandA assembly_a)
      (ShellPtr.mk OperandA assembly_a) (ShellPtr.mk OperandB assembly_b)
      assembly_result UNION
  with
  | Some x => x
  | None => (first_face, assembly_result)
  end.

(** The edges of that face, the edges of them that the loop over the
    original trim keeps for a union, and the first of these. *)
Definition face_edges : list SEdge.t :=
  MakeEdgesInto first_face assembly_result UV None.

Definition kept_edges : list SEdge.t :=
  match
    keep_chains (length face_edges) first_face assembly_b assembly_result
      assembly_a assembly_b UNION true []
      (fun _ _ => (ShellClass.INSIDE, ShellClass.OUTSIDE)) face_edges []
  with
  | Some l => l
  | None => []
  end.

Definition kept_edge : SEdge.t := hd (edge 0 0 0 0) kept_edges.

(** The difference of the two squares, started on [fresh]. *)
Definition difference_run : SShell.t * SShell.t * SShell.t :=
  run_or (MakeFromBoolean fresh shell_a shell_b DIFFERENCE).

Definition difference_result : SShell.t := fst (fst difference_run).
Definition difference_a : SShell.t := snd (fst difference_run).
Definition difference_b : SShell.t := snd difference_run.

(** The same collaborators with another comparison of points and another
    assembler of polygons. *)
Definition extern_with (equals : Vector.t -> Vector.t -> bool)
    (assemble : list SEdge.t -> bool) : Extern :=
  {| LENGTH_EPS := eps;
     VERY_POSITIVE := very_positive;
     ChordTolMm := 0.1;
     fmin := fun a b => if (a <? b)%float then a else b;
     std_sort := insertion_sort;
     Point2d_Plus := p2_plus;
     Point2d_Minus := p2_minus;
     Point2d_ScaledBy := p2_scaled;
     Point2d_Dot := p2_dot;
     Point2d_Normal := p2_normal;
     Point2d_WithMagnitude := p2_with_magnitude;
     Point2d_DistanceToLine := p2_distance_to_line;
     Vector_Minus := v_minus;
     Vector_Cross := v_cross;
     Vector_Dot := v_dot;
     Vector_Magnitude := fun a => sqrt (v_dot a a);
     Vector_MagSquared := fun a => v_dot a a;
     Vector_WithMagnitude := v_with_magnitude;
     Vector_DivProjected := fun a b => (v_dot a b / v_dot b b)%float;
     Vector_Equals := equals;
     Vector_ProjectXy := fun a => Point2d.mk (Vector.x a) (Vector.y a);
     SBezier_deg := fun _ => 1%Z;
     SBezier_ClosestPointTo := fun _ _ _ => 0%float;
     SBezier_PointAt := fun _ _ => Vector.mk 0 0 0;
     TangentsAt := fun _ _ _ => (Vector.mk 1 0 0, Vector.mk 0 1 0);
     NormalAt := fun _ _ _ => Vector.mk 0 0 1;
     PointAt := fun _ uv => Vector.mk (Point2d.x uv) (Point2d.y uv) 0;
     ClosestPointTo := fun _ p _ => Point2d.mk (Vector.x p) (Vector.y p);
     ClosestPointOnThisAndSurface := fun _ _ p => p;
     PointOnSurfaces := fun _ _ _ uv => uv;
     Reverse := fun s => s;
     MakeEdgesInto := trim_edges;
     SSurface_FromTransformationOf := fun s => s;
     IntersectAgainst := one_curve;
     SCurve_FromTransformationOf := fun c => c;
     RemoveShortSegments := fun c _ _ => SCurve.pts c;
     AllPointsIntersecting := midpoints;
     SShell_ClassifyEdge :=
       fun _ _ _ _ _ _ _ => (ShellClass.OUTSIDE, ShellClass.OUTSIDE);
     CullExtraneousEdges := fun l => l;
     AssemblePolygon := assemble |}.

(** Two points compare equal when they are less than the tolerance [eps]
    apart. *)
Definition v_near (a b : Vector.t) : bool :=
  let d := v_minus a b in
  (v_dot d d <? eps * eps)%float.

Definition tolerant : Extern := extern_with v_near (fun _ => true).

(** Three points on a line, three quarters of the tolerance from one to the
    next, and a point far from them; an edge between the first two and an
    edge from the third to the far one. *)
Definition near_0 : Vector.t := Vector.mk 0 0 0.
Definition near_1 : Vector.t := Vector.mk (eps * 0.75) 0 0.
Definition near_2 : Vector.t := Vector.mk (eps * 1.5) 0 0.
Definition far_3 : Vector.t := Vector.mk 1 0 0.

Definition near_edges : list SEdge.t :=
  [SEdge.mk 0 0 0 near_0 near_1; SEdge.mk 0 0 0 near_2 far_3].






End Planar.

(** * Part V: properties *)

Section Properties.
Context {P : Payload} {E : Extern}.

(** ** Keep policy *)

(** C1.  For [UNION] and [DIFFERENCE], every operand flag, every
    classification against the other shell and [orig] either of the two
    sides an edge has relative to its own face ([INSIDE], [OUTSIDE]),
    [KeepRegion] returns false whenever [orig] is [OUTSIDE]; otherwise, with
    [inFace] true for the two coincident classifications, it returns (not
    inside and not [inFace]) for operand A of either operation, that or
    [COINC_SAME] for [UNION] operand B, and ((inside and not [inFace]) or
    [COINC_SAME]) for [DIFFERENCE] operand B. *)
Theorem KeepRegion_truth_table (opA : bool) (shell orig : ShellClass.t) :
  orig = ShellClass.INSIDE \/ orig = ShellClass.OUTSIDE ->
  let inside := ShellClass.eqb shell ShellClass.INSIDE in
  let same := ShellClass.eqb shell ShellClass.COINC_SAME in
  let inFace := same || ShellClass.eqb shell ShellClass.COINC_OPP in
  KeepRegion UNION opA shell orig
  = Some (if ShellClass.eqb orig ShellClass.OUTSIDE then false
          else if opA then negb inside && negb inFace
               else (negb inside && negb inFace) || same)
  /\ KeepRegion DIFFERENCE opA shell orig
     = Some (if ShellClass.eqb orig ShellClass.OUTSIDE then false
             else if opA then negb inside && negb inFace
                  else (inside && negb inFace) || same).
Proof.
  intros [-> | ->]; destruct opA, shell; split; reflexivity.
Qed.

(** The table of the specification and the code agree on both sides of the
    face. *)
Lemma KeepRegion_keep_table (type : CombineAs) (opA : bool)
    (shell : ShellClass.t) (within : bool) :
  KeepRegion type opA shell (side_orig within)
  = keep_table type opA shell within.
Proof.
  destruct within, type, opA, shell; reflexivity.
Qed.

(** The sides [KeepEdge] is given for an edge of the intersection are
    [INSIDE] and [OUTSIDE] only, as are the constants it is given for an
    edge of the original trim. *)
Lemma TagByClassifiedEdge_sides (bspclass : BspClass.t) :
  (fst (TagByClassifiedEdge bspclass) = ShellClass.INSIDE
   \/ fst (TagByClassifiedEdge bspclass) = ShellClass.OUTSIDE)
  /\ (snd (TagByClassifiedEdge bspclass) = ShellClass.INSIDE
      \/ snd (TagByClassifiedEdge bspclass) = ShellClass.OUTSIDE).
Proof.
  destruct bspclass; cbn; auto.
Qed.

(** C9.  For [UNION] and [DIFFERENCE], every operand flag and every [orig],
    a region on a coincident face with opposed normals is not kept. *)
Theorem KeepRegion_coinc_opp (opA : bool) (orig : ShellClass.t) :
  KeepRegion UNION opA ShellClass.COINC_OPP orig = Some false
  /\ KeepRegion DIFFERENCE opA ShellClass.COINC_OPP orig = Some false.
Proof.
  destruct opA, orig; split; reflexivity.
Qed.

(** [KeepEdge] in terms of the two regions. *)
Lemma KeepEdge_true_iff (type : CombineAs) (opA : bool)
    (indir_shell outdir_shell indir_orig outdir_orig : ShellClass.t) :
  KeepEdge type opA indir_shell outdir_shell indir_orig outdir_orig
  = Some true
  <-> KeepRegion type opA indir_shell indir_orig = Some true
      /\ KeepRegion type opA outdir_shell outdir_orig = Some false.
Proof.
  unfold KeepEdge.
  destruct (KeepRegion type opA indir_shell indir_orig) as [[|]|];
    destruct (KeepRegion type opA outdir_shell outdir_orig) as [[|]|];
    cbn; split; intros H; try discriminate; try (destruct H; discriminate);
    auto.
Qed.

(** C6.  For sides [L = (Ls, Lo)] and [R = (Rs, Ro)] that differ,
    [KeepEdge] is true exactly when [KeepRegion] holds on the in-normal side
    and fails on the out-normal side, and a kept edge is not kept with the
    sides swapped. *)
Theorem KeepEdge_antisymmetric (type : CombineAs) (opA : bool)
    (Ls Lo Rs Ro : ShellClass.t) :
  (Ls, Lo) <> (Rs, Ro) ->
  (KeepEdge type opA Ls Rs Lo Ro = Some true
   <-> KeepRegion type opA Ls Lo = Some true
       /\ KeepRegion type opA Rs Ro = Some false)
  /\ (KeepEdge type opA Ls Rs Lo Ro = Some true ->
      KeepEdge type opA Rs Ls Ro Lo = Some false).
Proof.
  intros _. split; [apply KeepEdge_true_iff|].
  intros H. apply KeepEdge_true_iff in H. destruct H as [HL HR].
  unfold KeepEdge. rewrite HR, HL. reflexivity.
Qed.

(** ** UV BSP *)

(** The walk over the chain ends undecided exactly when the point lies on
    none of its segments. *)
Lemma classify_on_chain_None (f : SBspUv) (p eb : Point2d.t)
    (srf : SSurface.t) :
  classify_on_chain f p eb srf = None <-> on_chain_segment f p srf = false.
Proof.
  revert f.
  fix IH 1.
  intros [fa fb fpos fneg fmore]. cbn.
  destruct (ScaledDistanceToLine p fa (Point2d_Minus fb fa) true srf
            <? LENGTH_EPS)%float; cbn.
  - split; [|discriminate].
    destruct (ScaledDistanceToLine eb fa (Point2d_Minus fb fa) false srf
              <? LENGTH_EPS)%float; [|discriminate].
    destruct (0 <? Point2d_Dot (Point2d_Minus fb fa) (Point2d_Minus eb p))%float;
      discriminate.
  - destruct fmore as [m|]; [apply IH | split; reflexivity].
Qed.

(** C3 (as amended).  At a node whose line is within [LENGTH_EPS] of the
    query point [p], when [p] lies on no segment of the node and its [more]
    chain, [ClassifyPoint] returns the classification of the [neg] child if
    there is one, whether or not [pos] exists, and [OUTSIDE] if there is
    none. *)
Theorem ClassifyPoint_tie_break (a b : Point2d.t)
    (pos neg more : option SBspUv) (p eb : Point2d.t) (srf : SSurface.t) :
  (abs (ScaledSignedDistanceToLine p a b srf) <? LENGTH_EPS)%float = true ->
  on_chain_segment (Node a b pos neg more) p srf = false ->
  ClassifyPoint (Node a b pos neg more) p eb srf
  = match neg with
    | Some n => ClassifyPoint n p eb srf
    | None => BspClass.OUTSIDE
    end.
Proof.
  intros Hnear Hoff.
  apply (classify_on_chain_None _ _ eb) in Hoff.
  cbn [ClassifyPoint]. rewrite Hnear.
  cbn [classify_on_chain] in Hoff |- *. rewrite Hoff. reflexivity.
Qed.

(** With both children present the classification is that of [neg], as the
    specification says. *)
Lemma ClassifyPoint_tie_break_both (a b : Point2d.t) (t n : SBspUv)
    (more : option SBspUv) (p eb : Point2d.t) (srf : SSurface.t) :
  (abs (ScaledSignedDistanceToLine p a b srf) <? LENGTH_EPS)%float = true ->
  on_chain_segment (Node a b (Some t) (Some n) more) p srf = false ->
  tie_break_as_specified (Some t) (Some n) p eb srf
    (ClassifyPoint (Node a b (Some t) (Some n) more) p eb srf).
Proof.
  intros Hnear Hoff. cbn [tie_break_as_specified].
  now rewrite ClassifyPoint_tie_break.
Qed.

(** ** Curve splitter *)

Lemma refine_inter_cleared (srfA srfB : option SurfPtr.t) (pi : SInter.t) :
  refine_inter srfA srfB (with_tag 0%Z pi)
  = if same_surface (SInter.srf pi) srfA || same_surface (SInter.srf pi) srfB
    then SInter.mk 1 (SInter.p pi) (SInter.srf pi)
    else if BspClass.eqb (inter_class pi) BspClass.OUTSIDE
            && (ChordTolMm <? inter_distance pi)%float
         then SInter.mk 1 (SInter.p pi) (SInter.srf pi)
         else refined srfA srfB pi.
Proof. reflexivity. Qed.

(** C2 (as amended).  The intersections that [MakeCopySplitAgainst] keeps
    for splitting are the refinements of those that survive the rejection of
    [srfA] and [srfB] and are not classified [OUTSIDE] by the BSP of their
    surface, or are [OUTSIDE] at a distance to the trim edges that does not
    exceed the chord tolerance; so an intersection classified on an edge is
    kept like one classified [INSIDE]. *)
Theorem split_keeps_iff (srfA srfB : option SurfPtr.t)
    (il : list SInter.t) (q : SInter.t) :
  In q (refine_intersections srfA srfB il)
  <-> exists pi : SInter.t,
        In pi il
        /\ same_surface (SInter.srf pi) srfA = false
        /\ same_surface (SInter.srf pi) srfB = false
        /\ (inter_class pi <> BspClass.OUTSIDE
            \/ (ChordTolMm <? inter_distance pi)%float = false)
        /\ q = refined srfA srfB pi.
Proof.
  unfold refine_intersections, RemoveTagged, ClearTags.
  rewrite filter_In, map_map, in_map_iff.
  split.
  - intros [[pi [Hq Hin]] Htag]. exists pi.
    rewrite refine_inter_cleared in Hq. subst q.
    destruct (same_surface (SInter.srf pi) srfA); [discriminate|].
    destruct (same_surface (SInter.srf pi) srfB); [discriminate|].
    cbn [orb] in *.
    destruct (inter_class pi) eqn:Hc;
      destruct (ChordTolMm <? inter_distance pi)%float eqn:Hd;
      cbn in Htag |- *; try discriminate;
      repeat split; auto; left; discriminate.
  - intros [pi (Hin & HA & HB & Hkeep & ->)].
    assert (Hr : refine_inter srfA srfB (with_tag 0%Z pi)
                 = refined srfA srfB pi).
    { rewrite refine_inter_cleared, HA, HB. cbn [orb].
      destruct Hkeep as [Hc | Hd].
      - destruct (inter_class pi); cbn; congruence.
      - rewrite Hd, andb_false_r. reflexivity. }
    split; [exists pi; auto | reflexivity].
Qed.

Lemma split_loop_tail (agnstA agnstB : option ShellPtr.t)
    (srfA srfB : option SurfPtr.t) (rest : list SCurvePt.t) :
  forall (prev : SCurvePt.t) (ret_pts : list SCurvePt.t),
    split_loop agnstA agnstB srfA srfB prev rest ret_pts
    = ret_pts ++ split_tail agnstA agnstB srfA srfB prev rest.
Proof.
  induction rest as [|p rest IH]; intros prev ret_pts; cbn.
  - now rewrite app_nil_r.
  - rewrite IH. rewrite <- !app_assoc. reflexivity.
Qed.

Lemma split_tail_refines (agnstA agnstB : option ShellPtr.t)
    (srfA srfB : option SurfPtr.t) (rest : list SCurvePt.t) :
  forall p : SCurvePt.t,
    refines (p :: rest) (p :: split_tail agnstA agnstB srfA srfB p rest).
Proof.
  induction rest as [|q rest IH]; intros p; cbn.
  - constructor.
  - apply refines_step. apply IH.
Qed.

Lemma last_skip {T : Type} (d : T) (l out : list T) :
  out <> [] -> last (l ++ out) d = last out d.
Proof.
  intros Hne. induction l as [|e l IH]; [reflexivity|].
  cbn [app last]. destruct (l ++ out) eqn:Happ; [|exact IH].
  apply app_eq_nil in Happ. destruct Happ. contradiction.
Qed.

Lemma refines_ends (d : SCurvePt.t) (orig out : list SCurvePt.t) :
  refines orig out ->
  hd_error out = hd_error orig /\ last out d = last orig d.
Proof.
  induction 1 as [p | p added rest out Hr [_ IHl]].
  - split; reflexivity.
  - split; [reflexivity|].
    assert (Hout : out <> []) by (inversion Hr; discriminate).
    assert (Hrest : rest <> []) by (inversion Hr; discriminate).
    change (last ((p :: added) ++ out) d = last ([p] ++ rest) d).
    rewrite (last_skip d (p :: added) Hout), (last_skip d [p] Hrest).
    exact IHl.
Qed.

(** C5.  For a curve with a non-empty PWL, [MakeCopySplitAgainst] returns a
    curve whose PWL holds every original point in the original order, has
    the added points between two consecutive original points only, and so
    starts and ends with the first and the last original point. *)
Theorem MakeCopySplitAgainst_refines (this : SCurve.t)
    (agnstA agnstB : option ShellPtr.t) (srfA srfB : option SurfPtr.t)
    (d : SCurvePt.t) :
  SCurve.pts this <> [] ->
  exists ret : SCurve.t,
    MakeCopySplitAgainst this agnstA agnstB srfA srfB = Some ret
    /\ refines (SCurve.pts this) (SCurve.pts ret)
    /\ hd_error (SCurve.pts ret) = hd_error (SCurve.pts this)
    /\ last (SCurve.pts ret) d = last (SCurve.pts this) d.
Proof.
  intros Hne. unfold MakeCopySplitAgainst.
  destruct (SCurve.pts this) as [|p rest] eqn:Hpts; [congruence|].
  eexists. split; [reflexivity|]. cbn [SCurve.pts SCurve.with_pts].
  rewrite split_loop_tail. cbn [app].
  pose proof (split_tail_refines agnstA agnstB srfA srfB rest p) as Hr.
  split; [exact Hr|]. apply refines_ends. exact Hr.
Qed.

(** ** Choosing points *)

Section Choosing.

(** The points that are counted, and the comparison of points on them. *)
Variable pts : list Vector.t.
Hypothesis Equals_equiv : equivalence_on pts.

Let listed (l : list SPoint.t) : Prop :=
  forall sp, In sp l -> In (SPoint.p sp) pts.

Lemma Equals_sym_false (p q : Vector.t) :
  In p pts -> In q pts -> Vector_Equals p q = false ->
  Vector_Equals q p = false.
Proof.
  intros Hp Hq Hpq. destruct Equals_equiv as (_ & Hsym & _).
  destruct (Vector_Equals q p) eqn:Hqp; [|reflexivity].
  rewrite (Hsym q p Hq Hp Hqp) in Hpq. discriminate.
Qed.

Lemma IncrementTagFor_points (l : list SPoint.t) (pt : Vector.t) :
  forall sp, In sp (IncrementTagFor l pt) ->
    SPoint.p sp = pt \/ In (SPoint.p sp) (map SPoint.p l).
Proof.
  induction l as [|sp0 l IH]; cbn; intros sp Hin.
  - destruct Hin as [<-|[]]. now left.
  - destruct (Vector_Equals pt (SPoint.p sp0)).
    + destruct Hin as [<-|Hin]; cbn; [tauto|].
      right. right. now apply in_map.
    + destruct Hin as [<-|Hin]; [tauto|].
      destruct (IH sp Hin); tauto.
Qed.

Lemma IncrementTagFor_listed (l : list SPoint.t) (pt : Vector.t) :
  In pt pts -> listed l -> listed (IncrementTagFor l pt).
Proof.
  intros Hpt Hl sp Hin.
  destruct (IncrementTagFor_points l pt sp Hin) as [->|Hin']; [exact Hpt|].
  apply in_map_iff in Hin'. destruct Hin' as (sp' & <- & Hsp').
  now apply Hl.
Qed.

Lemma IncrementTagFor_separated (l : list SPoint.t) (pt : Vector.t) :
  In pt pts -> listed l -> separated l -> separated (IncrementTagFor l pt).
Proof.
  intros Hpt. induction l as [|sp0 l IH]; cbn; intros Hl Hsep.
  - split; [intros sp' []|exact I].
  - destruct Hsep as [Hhead Hsep].
    assert (Hl' : listed l) by (intros sp Hin; apply Hl; now right).
    assert (H0 : In (SPoint.p sp0) pts) by (apply Hl; now left).
    destruct (Vector_Equals pt (SPoint.p sp0)) eqn:Heq; cbn.
    + split; assumption.
    + split; [|now apply IH].
      intros sp' Hin.
      destruct (IncrementTagFor_points l pt sp' Hin) as [->|Hin'].
      * now apply Equals_sym_false.
      * apply in_map_iff in Hin'. destruct Hin' as (sp'' & Hp & Hsp'').
        rewrite <- Hp. now apply Hhead.
Qed.

Lemma IncrementTagFor_tag_of (l : list SPoint.t) (pt q : Vector.t) :
  In pt pts -> In q pts -> listed l ->
  tag_of q (IncrementTagFor l pt)
  = (tag_of q l + if Vector_Equals q pt then 1 else 0)%Z.
Proof.
  intros Hpt Hq. destruct Equals_equiv as (_ & Hsym & Htrans).
  induction l as [|sp0 l IH]; cbn; intros Hl.
  - destruct (Vector_Equals q pt); reflexivity.
  - assert (Hl' : listed l) by (intros sp Hin; apply Hl; now right).
    assert (H0 : In (SPoint.p sp0) pts) by (apply Hl; now left).
    destruct (Vector_Equals pt (SPoint.p sp0)) eqn:Heq; cbn.
    + destruct (Vector_Equals q (SPoint.p sp0)) eqn:Hq0.
      * rewrite (Htrans q (SPoint.p sp0) pt Hq H0 Hpt Hq0
                   (Hsym _ _ Hpt H0 Heq)).
        reflexivity.
      * destruct (Vector_Equals q pt) eqn:Hqpt; [|lia].
        rewrite (Htrans q pt (SPoint.p sp0) Hq Hpt H0 Hqpt Heq) in Hq0.
        discriminate.
    + destruct (Vector_Equals q (SPoint.p sp0)) eqn:Hq0; [|now apply IH].
      destruct (Vector_Equals q pt) eqn:Hqpt; [|lia].
      rewrite (Htrans pt q (SPoint.p sp0) Hpt Hq H0
                 (Hsym _ _ Hq Hpt Hqpt) Hq0) in Heq.
      discriminate.
Qed.

(** The count of an entry is the count that [tag_of] finds for any point
    that compares equal with the entry. *)
Lemma tag_of_entry (l : list SPoint.t) (sp : SPoint.t) (q : Vector.t) :
  In q pts -> listed l -> separated l -> In sp l ->
  Vector_Equals q (SPoint.p sp) = true ->
  tag_of q l = SPoint.tag sp.
Proof.
  intros Hq. destruct Equals_equiv as (_ & Hsym & Htrans).
  induction l as [|sp0 l IH]; cbn; intros Hl Hsep Hin Heq; [contradiction|].
  destruct Hsep as [Hhead Hsep].
  assert (Hl' : listed l) by (intros sp' Hin'; apply Hl; now right).
  assert (H0 : In (SPoint.p sp0) pts) by (apply Hl; now left).
  destruct Hin as [->|Hin]; [now rewrite Heq|].
  destruct (Vector_Equals q (SPoint.p sp0)) eqn:Hq0; [|now apply IH].
  assert (Hsp : In (SPoint.p sp) pts) by now apply Hl'.
  pose proof (Hhead sp Hin) as Hne.
  rewrite (Htrans (SPoint.p sp0) q (SPoint.p sp) H0 Hq Hsp
             (Hsym _ _ Hq H0 Hq0) Heq) in Hne.
  discriminate.
Qed.

(** A point without an entry that compares equal has the count zero. *)
Lemma tag_of_none (l : list SPoint.t) (q : Vector.t) :
  ContainsPoint l q = false -> tag_of q l = 0%Z.
Proof.
  unfold ContainsPoint. induction l as [|sp0 l IH]; cbn; [reflexivity|].
  destruct (Vector_Equals q (SPoint.p sp0)); [discriminate|exact IH].
Qed.

Lemma count_endpoints_fold (el : list SEdge.t) :
  forall ch : list SPoint.t,
    count_endpoints ch el = fold_left IncrementTagFor (endpoints el) ch.
Proof.
  unfold count_endpoints.
  induction el as [|se el IH]; intros ch; cbn; [reflexivity|apply IH].
Qed.

(** The list after counting the points [qs] into [l]. *)
Lemma counted (qs : list Vector.t) :
  (forall q, In q qs -> In q pts) ->
  forall l : list SPoint.t,
    listed l -> separated l ->
    let l' := fold_left IncrementTagFor qs l in
    listed l' /\ separated l'
    /\ (forall q, In q pts ->
          tag_of q l' = (tag_of q l + Z.of_nat (occurrences q qs))%Z).
Proof.
  induction qs as [|pt qs IH]; intros Hqs l Hl Hsep; cbn.
  - repeat split; auto. intros q _. unfold occurrences. cbn. lia.
  - assert (Hpt : In pt pts) by (apply Hqs; now left).
    destruct (IH (fun q H => Hqs q (or_intror H)) (IncrementTagFor l pt)
                (@IncrementTagFor_listed l pt Hpt Hl)
                (@IncrementTagFor_separated l pt Hpt Hl Hsep))
      as (Hl' & Hsep' & Htag).
    split; [exact Hl'|]. split; [exact Hsep'|]. intros q Hq.
    rewrite (Htag q Hq), (@IncrementTagFor_tag_of l pt q Hpt Hq Hl).
    unfold occurrences. cbn.
    destruct (Vector_Equals q pt); cbn [length]; lia.
Qed.

(** What [MakeCopyTrimAgainst] keeps of the counted list: the entries whose
    count is not two, with the tag cleared. *)
Lemma kept_of_counted (l : list SPoint.t) (sp' : SPoint.t) :
  In sp' (RemoveTagged (map mark_degree_two l))
  <-> exists sp, In sp l /\ SPoint.tag sp <> 2%Z
                 /\ sp' = with_tag 0%Z sp.
Proof.
  unfold RemoveTagged. rewrite filter_In, in_map_iff. split.
  - intros [(sp & Hmark & Hin) Hzero]. exists sp. subst sp'.
    unfold mark_degree_two in *.
    destruct (SPoint.tag sp =? 2)%Z eqn:Htwo; [discriminate|].
    apply Z.eqb_neq in Htwo. auto.
  - intros (sp & Hin & Hne & ->). apply Z.eqb_neq in Hne.
    split; [exists sp; split; [|exact Hin]|reflexivity].
    unfold mark_degree_two. now rewrite Hne.
Qed.

Lemma separated_kept (l : list SPoint.t) :
  separated l -> separated (RemoveTagged (map mark_degree_two l)).
Proof.
  unfold RemoveTagged. induction l as [|sp l IH]; cbn; [trivial|].
  intros [Hhead Hsep].
  assert (Hp : SPoint.p (mark_degree_two sp) = SPoint.p sp)
    by (unfold mark_degree_two; now destruct (SPoint.tag sp =? 2)%Z).
  destruct (SPoint.tag (mark_degree_two sp) =? 0)%Z; [|exact (IH Hsep)].
  cbn. split; [|exact (IH Hsep)].
  intros sp' Hin. apply filter_In in Hin. destruct Hin as [Hin _].
  apply in_map_iff in Hin. destruct Hin as (sp0 & <- & Hin).
  rewrite Hp.
  replace (SPoint.p (mark_degree_two sp0)) with (SPoint.p sp0)
    by (unfold mark_degree_two; now destruct (SPoint.tag sp0 =? 2)%Z).
  now apply Hhead.
Qed.

End Choosing.

Lemma occurrences_self (pts : list Vector.t) (q : Vector.t) :
  In q pts -> Vector_Equals q q = true -> 1 <= occurrences q pts.
Proof.
  intros Hin Hrefl. unfold occurrences.
  assert (Hf : In q (filter (Vector_Equals q) pts))
    by (apply filter_In; split; assumption).
  destruct (filter (Vector_Equals q) pts); [destruct Hf | cbn; lia].
Qed.

(** C8 (as amended).  When the comparison of points is an equivalence on
    the endpoints of the original and intersection edges, the choosing
    points handed to [FindChainAvoiding] contain, in the sense of
    [ContainsPoint], exactly the endpoints whose number of occurrences among
    those endpoints differs from two: an endpoint that occurs exactly twice
    is not contained.  Every entry of the list is such an endpoint, and no
    two entries compare equal. *)
Theorem choosing_points_incidence (orig inter : list SEdge.t) :
  equivalence_on (endpoints (orig ++ inter)) ->
  (forall q : Vector.t,
     In q (endpoints (orig ++ inter)) ->
     ContainsPoint (choosing_points orig inter) q = true
     <-> incidence q orig inter <> 2)
  /\ (forall sp : SPoint.t,
        In sp (choosing_points orig inter) ->
        In (SPoint.p sp) (endpoints (orig ++ inter))
        /\ incidence (SPoint.p sp) orig inter <> 2)
  /\ separated (choosing_points orig inter).
Proof.
  intros Hequiv. unfold choosing_points, incidence.
  rewrite !count_endpoints_fold, <- fold_left_app.
  replace (endpoints orig ++ endpoints inter) with (endpoints (orig ++ inter))
    by (unfold endpoints; apply flat_map_app).
  set (pts := endpoints (orig ++ inter)) in *.
  destruct (@counted pts Hequiv pts (fun q H => H) []
              (fun sp (H : In sp []) => match H with end) I)
    as (Hl & Hsep & Htag).
  cbv zeta in Hl, Hsep, Htag.
  set (l := fold_left IncrementTagFor pts []) in *.
  assert (Hcount : forall q sp,
            In q pts -> In sp l -> Vector_Equals q (SPoint.p sp) = true ->
            SPoint.tag sp = Z.of_nat (occurrences q pts)).
  { intros q sp Hq Hsp Heq.
    rewrite <- (@tag_of_entry pts Hequiv l sp q Hq Hl Hsep Hsp Heq).
    rewrite (Htag q Hq). reflexivity. }
  fold (occurrences).
  split; [|split].
  - intros q Hq. change (length (filter (Vector_Equals q) pts))
      with (occurrences q pts).
    unfold ContainsPoint. rewrite existsb_exists. split.
    + intros (sp' & Hin & Heq). apply kept_of_counted in Hin.
      destruct Hin as (sp & Hsp & Hne & ->).
      change (SPoint.p (with_tag 0%Z sp)) with (SPoint.p sp) in Heq.
      rewrite (Hcount q sp Hq Hsp Heq) in Hne. lia.
    + intros Hne.
      pose proof (@occurrences_self pts q Hq (proj1 Hequiv q Hq)) as Hpos.
      destruct (ContainsPoint l q) eqn:Hc.
      * unfold ContainsPoint in Hc. apply existsb_exists in Hc.
        destruct Hc as (sp & Hsp & Heq). exists (with_tag 0%Z sp).
        split; [|exact Heq]. apply kept_of_counted. exists sp.
        split; [exact Hsp|]. split; [|reflexivity].
        rewrite (Hcount q sp Hq Hsp Heq). lia.
      * apply tag_of_none in Hc. rewrite (Htag q Hq) in Hc. cbn in Hc. lia.
  - intros sp' Hin. apply kept_of_counted in Hin.
    destruct Hin as (sp & Hsp & Hne & ->).
    change (SPoint.p (with_tag 0%Z sp)) with (SPoint.p sp).
    pose proof (Hl sp Hsp) as Hp. split; [exact Hp|].
    change (length (filter (Vector_Equals (SPoint.p sp)) pts))
      with (occurrences (SPoint.p sp) pts).
    rewrite (Hcount (SPoint.p sp) sp Hp Hsp (proj1 Hequiv _ Hp)) in Hne.
    lia.
  - apply separated_kept. exact Hsep.
Qed.

(** ** Termination of the loops over tagged edges *)

Lemma untagged_cons (e : SEdge.t) (el : list SEdge.t) :
  untagged (e :: el)
  = if Z.eqb (SEdge.tag e) 0 then S (untagged el) else untagged el.
Proof. unfold untagged. cbn. now destruct (SEdge.tag e =? 0)%Z. Qed.

Lemma untagged_tagged (e : SEdge.t) (el : list SEdge.t) :
  untagged (with_tag 1%Z e :: el) = untagged el.
Proof. reflexivity. Qed.

Lemma untagged_le_length (el : list SEdge.t) : untagged el <= length el.
Proof. unfold untagged. apply filter_length_le. Qed.

Lemma untagged_ClearTags (el : list SEdge.t) :
  untagged (ClearTags el) = length el.
Proof.
  induction el as [|e el IH]; [reflexivity|].
  change (untagged (with_tag 0%Z e :: ClearTags el) = S (length el)).
  rewrite untagged_cons, IH. reflexivity.
Qed.

(** One run over the source list keeps its length and the tagged edges, and
    tags an edge whenever it reports that it attached one. *)
Lemma chain_pass_measure (avoid : list SPoint.t) (src : list SEdge.t) :
  forall (dest : list SEdge.t) (s f : Vector.t)
         (startOkay finishOkay added : bool),
    let r := chain_pass avoid src dest s f startOkay finishOkay added in
    length (fst (fst r)) = length src
    /\ untagged (fst (fst r)) <= untagged src
    /\ (snd r = true -> added = true \/ untagged (fst (fst r)) < untagged src)
    /\ (dest <> [] -> snd (fst r) <> [])
    /\ (forall e rest, src = e :: rest -> SEdge.tag e <> 0%Z ->
        exists rest', fst (fst r) = e :: rest').
Proof.
  induction src as [|se src IH]; intros dest s f startOkay finishOkay added;
    cbn [chain_pass].
  - cbn. repeat split; auto. intros e rest Heq. discriminate.
  - rewrite untagged_cons.
    destruct (SEdge.tag se =? 0)%Z eqn:Htag; cbn [negb].
    + apply Z.eqb_eq in Htag.
      destruct (startOkay && Vector_Equals s (SEdge.b se)).
      { specialize (IH (se :: dest) (SEdge.a se) f
                      (negb (ContainsPoint avoid (SEdge.a se))) finishOkay
                      true).
        destruct (chain_pass _ _ _ _ _ _ _ _) as [[r d] m].
        cbn [fst snd] in IH |- *.
        destruct IH as (Hlen & Hle & _ & Hd & _). rewrite untagged_tagged.
        repeat split; try (cbn [length]; lia).
        - intros _. apply Hd. discriminate.
        - intros e rest Heq Hne. inversion Heq; subst. contradiction. }
      destruct (finishOkay && Vector_Equals f (SEdge.a se)).
      { specialize (IH (dest ++ [se]) s (SEdge.b se) startOkay
                      (negb (ContainsPoint avoid (SEdge.b se))) true).
        destruct (chain_pass _ _ _ _ _ _ _ _) as [[r d] m].
        cbn [fst snd] in IH |- *.
        destruct IH as (Hlen & Hle & _ & Hd & _). rewrite untagged_tagged.
        repeat split; try (cbn [length]; lia).
        - intros _. apply Hd. intros Happ. apply app_eq_nil in Happ.
          destruct Happ. discriminate.
        - intros e rest Heq Hne. inversion Heq; subst. contradiction. }
      specialize (IH dest s f startOkay finishOkay added).
      destruct (chain_pass _ _ _ _ _ _ _ _) as [[r d] m].
        cbn [fst snd] in IH |- *.
      destruct IH as (Hlen & Hle & Hadd & Hd & _). rewrite untagged_cons.
      apply Z.eqb_eq in Htag. rewrite Htag.
      repeat split; try (cbn [length]; lia); auto.
      * intros Hm. destruct (Hadd Hm); [now left | right; lia].
      * intros e rest Heq Hne. inversion Heq; subst. apply Z.eqb_eq in Htag.
        contradiction.
    + specialize (IH dest s f startOkay finishOkay added).
      destruct (chain_pass _ _ _ _ _ _ _ _) as [[r d] m].
        cbn [fst snd] in IH |- *.
      destruct IH as (Hlen & Hle & Hadd & Hd & _). rewrite untagged_cons.
      rewrite Htag.
      repeat split; try (cbn [length]; lia); auto.
      intros e rest Heq Hne. inversion Heq; subst. now exists r.
Qed.

(** With more fuel than untagged edges the [do ... while] loop of
    [FindChainAvoiding] comes to its end. *)
Lemma chain_passes_total (avoid : list SPoint.t) (fuel : nat) :
  forall src dest : list SEdge.t,
    dest <> [] ->
    untagged src < fuel ->
    exists src' dest' : list SEdge.t,
      chain_passes fuel avoid src dest = Some (src', dest')
      /\ length src' = length src
      /\ dest' <> []
      /\ (forall e rest, src = e :: rest -> SEdge.tag e <> 0%Z ->
          exists rest', src' = e :: rest').
Proof.
  induction fuel as [|fuel IH]; intros src dest Hdest Hfuel; [lia|].
  cbn [chain_passes]. destruct dest as [|first dest0]; [contradiction|].
  pose proof (chain_pass_measure avoid src (first :: dest0) (SEdge.a first)
                (SEdge.b (last (first :: dest0) first))
                (negb (ContainsPoint avoid (SEdge.a first)))
                (negb (ContainsPoint avoid
                         (SEdge.b (last (first :: dest0) first))))
                false) as Hpass.
  cbv zeta in Hpass.
  destruct (chain_pass _ _ _ _ _ _ _ _) as [[src1 dest1] added].
  cbn [fst snd] in Hpass. destruct Hpass as (Hlen & Hle & Hadd & Hd & Hhd).
  specialize (Hd Hdest). destruct added.
  - destruct (Hadd eq_refl) as [Hf|Hlt]; [discriminate|].
    destruct (IH src1 dest1 Hd) as (src' & dest' & Hrun & Hlen' & Hd' & Hhd');
      [lia|].
    exists src', dest'. split; [exact Hrun|]. split; [lia|].
    split; [exact Hd'|]. intros e rest Heq Hne.
    destruct (Hhd e rest Heq Hne) as [rest1 Hsrc1].
    exact (Hhd' e rest1 Hsrc1 Hne).
  - exists src1, dest1. auto.
Qed.

(** [FindChainAvoiding] returns for every non-empty source list, with a
    chain that is not empty and a source list that is shorter. *)
Lemma FindChainAvoiding_total (src dest : list SEdge.t)
    (avoid : list SPoint.t) :
  src <> [] ->
  exists src' chain : list SEdge.t,
    FindChainAvoiding src dest avoid = Some (src', chain)
    /\ length src' < length src
    /\ chain <> [].
Proof.
  intros Hsrc. unfold FindChainAvoiding.
  destruct src as [|first rest]; [contradiction|].
  cbn [ClearTags map].
  set (first' := with_tag 0%Z first).
  set (src0 := with_tag 1%Z first' :: map (with_tag 0%Z) rest).
  assert (Hdest : dest ++ [first] <> []).
  { intros Happ. apply app_eq_nil in Happ. destruct Happ. discriminate. }
  assert (Hfuel : untagged src0 < S (length src0)).
  { pose proof (untagged_le_length src0). lia. }
  destruct (@chain_passes_total avoid _ src0 _ Hdest Hfuel)
    as (src' & chain & Hrun & Hlen & Hchain & Hhd).
  rewrite Hrun. exists (RemoveTagged src'), chain.
  split; [reflexivity|]. split; [|exact Hchain].
  destruct (Hhd (with_tag 1%Z first') (map (with_tag 0%Z) rest) eq_refl)
    as [rest' Hsrc']; [discriminate|].
  subst src'. unfold RemoveTagged. cbn [filter].
  change (tag (with_tag 1%Z first') =? 0)%Z with false.
  pose proof (filter_length_le
                (fun e : SEdge.t => (tag e =? 0)%Z) rest') as Hfl.
  subst src0. cbn [length] in Hlen |- *. rewrite length_map in Hlen. lia.
Qed.

(** The loops over the chains give the same result for every fuel that
    bounds the number of edges. *)
Lemma keep_chains_fuel (ret : SSurface.t) (agnst into sha shb : SShell.t)
    (type : CombineAs) (opA : bool) (choosing : list SPoint.t)
    (orig_side : Point2d.t -> Point2d.t -> ShellClass.t * ShellClass.t)
    (fuel1 : nat) :
  forall (fuel2 : nat) (src final : list SEdge.t),
    length src <= fuel1 ->
    length src <= fuel2 ->
    keep_chains fuel1 ret agnst into sha shb type opA choosing orig_side
      src final
    = keep_chains fuel2 ret agnst into sha shb type opA choosing orig_side
        src final.
Proof.
  induction fuel1 as [|fuel1 IH]; intros fuel2 src final H1 H2.
  - destruct src; [|cbn in H1; lia]. destruct fuel2; reflexivity.
  - destruct src as [|e src]; [destruct fuel2; reflexivity|].
    destruct fuel2 as [|fuel2]; [cbn in H2; lia|].
    cbn [keep_chains].
    destruct (@FindChainAvoiding_total (e :: src) [] choosing)
      as (src' & chain & Hrun & Hlen & _); [discriminate|].
    rewrite Hrun.
    destruct (nth_error chain (length chain / 2)) as [se|]; [|reflexivity].
    destruct (EdgeNormalsWithinSurface _ _ _ _ _ _ _)
      as [[[[pt enin] enout] surfn]|]; [|reflexivity].
    destruct (orig_side _ _) as [indir_orig outdir_orig].
    destruct (SShell_ClassifyEdge _ _ _ _ _ _ _)
      as [indir_shell outdir_shell].
    destruct (KeepEdge _ _ _ _ _ _) as [keep|]; [|reflexivity].
    apply IH; cbn [length] in *; lia.
Qed.

(** One merging run keeps the length of the edge list, and tags an edge
    whenever it reports a merge. *)
Lemma merge_pass_measure (el : list SEdge.t) :
  forall (stb : STrimBy.t) (merged : bool),
    let r := merge_pass el stb merged in
    length (fst (fst r)) = length el
    /\ untagged (fst (fst r)) <= untagged el
    /\ (snd r = true -> merged = true \/ untagged (fst (fst r)) < untagged el).
Proof.
  induction el as [|se el IH]; intros stb merged; cbn [merge_pass].
  - cbn. repeat split; auto.
  - assert (Hskip :
      let r := let '(r, s, m) := merge_pass el stb merged in (se :: r, s, m) in
      length (fst (fst r)) = length (se :: el)
      /\ untagged (fst (fst r)) <= untagged (se :: el)
      /\ (snd r = true ->
          merged = true \/ untagged (fst (fst r)) < untagged (se :: el))).
    { specialize (IH stb merged).
      destruct (merge_pass el stb merged) as [[r s] m].
      cbn [fst snd] in IH |- *. destruct IH as (Hlen & Hle & Hm).
      rewrite !untagged_cons. destruct (SEdge.tag se =? 0)%Z;
        repeat split; try (cbn [length]; lia);
        intros Hmt; destruct (Hm Hmt); [now left | right; lia
                                       | now left | right; lia]. }
    cbv zeta in Hskip |- *.
    destruct (negb (SEdge.tag se =? 0)%Z) eqn:Htag; [exact Hskip|].
    destruct (negb (SEdge.auxA se =? int_of_u32 (STrimBy.curve stb))%Z);
      [exact Hskip|].
    destruct ((negb (SEdge.auxB se =? 0)%Z && negb (STrimBy.backwards stb))
              || (negb (negb (SEdge.auxB se =? 0)%Z)
                  && STrimBy.backwards stb));
      [exact Hskip|].
    apply negb_false_iff in Htag.
    destruct (Vector_Equals (SEdge.a se) (STrimBy.finish stb)).
    { match goal with
      | |- context [merge_pass el ?stb' true] =>
          specialize (IH stb' true);
          destruct (merge_pass el stb' true) as [[r s] m]
      end.
      cbn [fst snd] in IH |- *. destruct IH as (Hlen & Hle & _).
      rewrite untagged_tagged, untagged_cons, Htag.
      repeat split; cbn [length]; lia. }
    destruct (Vector_Equals (SEdge.b se) (STrimBy.start stb));
      [|exact Hskip].
    match goal with
    | |- context [merge_pass el ?stb' true] =>
        specialize (IH stb' true);
        destruct (merge_pass el stb' true) as [[r s] m]
    end.
    cbn [fst snd] in IH |- *. destruct IH as (Hlen & Hle & _).
    rewrite untagged_tagged, untagged_cons, Htag.
    repeat split; cbn [length]; lia.
Qed.

(** With more fuel than untagged edges the [do ... while(merged)] loop
    comes to its end. *)
Lemma merge_passes_total (fuel : nat) :
  forall (el : list SEdge.t) (stb : STrimBy.t),
    untagged el < fuel ->
    exists (el' : list SEdge.t) (stb' : STrimBy.t),
      merge_passes fuel el stb = Some (el', stb')
      /\ length el' = length el
      /\ untagged el' <= untagged el.
Proof.
  induction fuel as [|fuel IH]; intros el stb Hfuel; [lia|].
  cbn [merge_passes].
  pose proof (merge_pass_measure el stb false) as Hpass. cbv zeta in Hpass.
  destruct (merge_pass el stb false) as [[el1 stb1] merged].
  cbn [fst snd] in Hpass. destruct Hpass as (Hlen & Hle & Hm).
  destruct merged.
  - destruct (Hm eq_refl) as [Hf|Hlt]; [discriminate|].
    destruct (IH el1 stb1) as (el' & stb' & Hrun & Hlen' & Hle'); [lia|].
    exists el', stb'. split; [exact Hrun|]. split; lia.
  - exists el1, stb1. auto.
Qed.

(** The edge to start from is tagged when it is taken. *)
Lemma take_untagged_measure (el : list SEdge.t) :
  forall (se : SEdge.t) (el' : list SEdge.t),
    take_untagged el = Some (se, el') ->
    length el' = length el /\ S (untagged el') = untagged el.
Proof.
  induction el as [|e el IH]; intros se el' Htake; cbn [take_untagged] in Htake;
    [discriminate|].
  rewrite untagged_cons.
  destruct (SEdge.tag e =? 0)%Z eqn:Htag; cbn [negb] in Htake.
  - inversion Htake; subst. split; reflexivity.
  - destruct (take_untagged el) as [[e1 r]|]; [|discriminate].
    inversion Htake; subst. destruct (IH se r eq_refl) as [Hlen Hun].
    rewrite untagged_cons, Htag. cbn [length]. auto.
Qed.

(** With more fuel than untagged edges the [for(;;)] loop of
    [TrimFromEdgeList] comes to its end. *)
Lemma trim_loop_total (this : SSurface.t) (asUv : bool) (fuel : nat) :
  forall (el : list SEdge.t) (trim : list STrimBy.t),
    untagged el < fuel ->
    exists r, trim_loop fuel this asUv el trim = Some r.
Proof.
  induction fuel as [|fuel IH]; intros el trim Hfuel; [lia|].
  cbn [trim_loop].
  destruct (take_untagged el) as [[se el1]|] eqn:Htake; [|eauto].
  destruct (take_untagged_measure el Htake) as [Hlen Hun].
  match goal with
  | |- context [merge_passes _ el1 ?stb] =>
      destruct (@merge_passes_total (S (length el1)) el1 stb)
        as (el2 & stb2 & Hrun & Hlen2 & Hle2)
  end.
  { pose proof (untagged_le_length el1). lia. }
  rewrite Hrun. apply IH. lia.
Qed.

(** [TrimFromEdgeList] returns for every edge list. *)
Lemma TrimFromEdgeList_total (this : SSurface.t) (el : list SEdge.t)
    (asUv : bool) :
  exists r, TrimFromEdgeList this el asUv = Some r.
Proof.
  unfold TrimFromEdgeList.
  destruct (@trim_loop_total this asUv (S (length el)) (ClearTags el)
              (SSurface.trim this)) as [[el' trim] Hrun].
  { rewrite untagged_ClearTags. lia. }
  rewrite Hrun. eauto.
Qed.

(** ** Handles *)

Section Handles.
Context {T : Type} `{Identified T}.

Lemma MaximumId_ge (l : list T) (v : N) :
  In v (map handle l) -> (v <= MaximumId l)%N.
Proof.
  unfold MaximumId.
  induction l as [|e l IH]; cbn [map In fold_right]; [contradiction|].
  intros [<-|Hin]; [apply N.le_max_l|].
  specialize (IH Hin). etransitivity; [exact IH|apply N.le_max_r].
Qed.

Lemma count_handle_map (v : N) (l : list T) :
  count_handle v l = length (filter (fun u => N.eqb u v) (map handle l)).
Proof.
  unfold count_handle. induction l as [|e l IH]; cbn; [reflexivity|].
  destruct (handle e =? v)%N; cbn; now rewrite IH.
Qed.

Lemma filter_handle_none (v : N) (hs : list N) :
  Forall (fun u => u <> v) hs -> filter (fun u => N.eqb u v) hs = [].
Proof.
  induction 1 as [|u hs Hu _ IH]; cbn; [reflexivity|].
  apply N.eqb_neq in Hu. now rewrite Hu.
Qed.

Lemma Forall_firstn {X : Type} (Q : X -> Prop) (n : nat) (l : list X) :
  Forall Q l -> Forall Q (firstn n l).
Proof.
  intros HQ. revert n. induction HQ as [|x l Hx _ IH]; intros [|n]; cbn;
    constructor; auto.
Qed.

Lemma allocated_count (n0 : nat) (v : N) (l : list T) :
  allocated n0 v l ->
  count_handle v l = 1 /\ count_handle v (firstn n0 l) = 0.
Proof.
  intros (before & after & Hmap & Hn & Hb & Ha).
  assert (Hb' : Forall (fun u => u <> v) before).
  { eapply Forall_impl; [|exact Hb]. cbn. intros; lia. }
  assert (Ha' : Forall (fun u => u <> v) after).
  { eapply Forall_impl; [|exact Ha]. cbn. intros; lia. }
  rewrite !count_handle_map, <- firstn_map, Hmap. split.
  - rewrite filter_app. cbn. rewrite N.eqb_refl.
    rewrite (filter_handle_none Hb'), (filter_handle_none Ha'). reflexivity.
  - rewrite firstn_app.
    replace (n0 - length before) with 0 by lia. cbn. rewrite app_nil_r.
    now rewrite (filter_handle_none (Forall_firstn n0 Hb')).
Qed.

Lemma allocated_In (n0 : nat) (v : N) (l : list T) :
  allocated n0 v l -> exists e : T, In e l /\ handle e = v.
Proof.
  intros (before & after & Hmap & _).
  assert (Hin : In v (map handle l)).
  { rewrite Hmap. apply in_or_app. right. now left. }
  apply in_map_iff in Hin. destruct Hin as [e [He Hin]]. now exists e.
Qed.

Lemma allocated_new (n0 : nat) (l : list T) (t : T) :
  n0 <= length l ->
  allocated n0 (snd (AddAndAssignId l t)) (fst (AddAndAssignId l t)).
Proof.
  intros Hn. cbn. exists (map handle l), [].
  rewrite map_app, length_map. cbn. rewrite handle_with_handle.
  repeat split; auto.
  apply Forall_forall. intros u Hu. apply MaximumId_ge in Hu. lia.
Qed.

Lemma allocated_keep (n0 : nat) (v : N) (l : list T) (t : T) :
  allocated n0 v l -> allocated n0 v (fst (AddAndAssignId l t)).
Proof.
  intros (before & after & Hmap & Hn & Hb & Ha). cbn.
  exists before, (after ++ [(MaximumId l + 1)%N]).
  rewrite map_app, Hmap, <- app_assoc. cbn. rewrite handle_with_handle.
  repeat split; auto.
  apply Forall_app. split; [exact Ha|]. constructor; [|constructor].
  assert (Hin : In v (map handle l)).
  { rewrite Hmap. apply in_or_app. right. now left. }
  apply MaximumId_ge in Hin. lia.
Qed.

Lemma grows_refl (l : list T) : grows l l.
Proof. split; auto. Qed.

Lemma grows_trans (l1 l2 l3 : list T) :
  grows l1 l2 -> grows l2 l3 -> grows l1 l3.
Proof. intros [H1 H1'] [H2 H2']. split; [lia|auto]. Qed.

Lemma grows_add (l : list T) (t : T) : grows l (fst (AddAndAssignId l t)).
Proof.
  split; [cbn; rewrite length_app; cbn; lia|].
  intros n0 v. apply allocated_keep.
Qed.

Lemma grows_same_handles (l l' : list T) :
  map handle l' = map handle l -> grows l l'.
Proof.
  intros Hmap. split.
  - apply (f_equal (@length N)) in Hmap. rewrite !length_map in Hmap. lia.
  - intros n0 v. unfold allocated. now rewrite Hmap.
Qed.

Lemma AddAndAssignId_spec (l l' : list T) (t : T) (v : N) :
  AddAndAssignId l t = (l', v) ->
  grows l l' /\ forall n0 : nat, n0 <= length l -> allocated n0 v l'.
Proof.
  intros EA. split.
  - pose proof (grows_add l t) as Hg. now rewrite EA in Hg.
  - intros n0 Hn. pose proof (allocated_new l t Hn) as Ha. now rewrite EA in Ha.
Qed.

Lemma FindById_In (l : list T) (v : N) (e : T) :
  FindById l v = Some e -> In e l /\ handle e = v.
Proof.
  unfold FindById. intros Hf. apply find_some in Hf.
  destruct Hf as [Hin Hv]. apply N.eqb_eq in Hv. auto.
Qed.

(** The step of a loop that gives [x] a handle in [l]: the handles noted so
    far stay allocated, and so is the new one. *)
Lemma allocated_step {X : Type} (newH : X -> N) (n0 : nat) (done : list X)
    (x : X) (l l' : list T) (t : T) (v : N) :
  AddAndAssignId l t = (l', v) ->
  newH x = v ->
  n0 <= length l ->
  Forall (fun c => allocated n0 (newH c) l) done ->
  Forall (fun c => allocated n0 (newH c) l') (done ++ [x]).
Proof.
  intros EA Hx Hn Hdone. destruct (AddAndAssignId_spec EA) as [[_ Hg] Hnew].
  apply Forall_app. split.
  - eapply Forall_impl; [|exact Hdone]. cbn. intros c. apply Hg.
  - constructor; [|constructor]. rewrite Hx. now apply Hnew.
Qed.

Lemma allocated_grows {X : Type} (newH : X -> N) (n0 : nat) (cs : list X)
    (l l' : list T) :
  grows l l' ->
  Forall (fun c => allocated n0 (newH c) l) cs ->
  Forall (fun c => allocated n0 (newH c) l') cs.
Proof.
  intros [_ Hg] Hcs. eapply Forall_impl; [|exact Hcs]. cbn. intros c.
  apply Hg.
Qed.

End Handles.

(** ** The loops of the orchestrators *)

Ltac bind H :=
  match type of H with
  | match ?e with Some _ => _ | None => None end = Some _ =>
      let Hb := fresh "Hbind" in destruct e eqn:Hb; [|discriminate H]
  end.

Lemma Forall2_refl_on {X : Type} (R : X -> X -> Prop) (l : list X) :
  (forall x, R x x) -> Forall2 R l l.
Proof. intros HR. induction l; constructor; auto. Qed.

Lemma Forall2_trans {X : Type} (R : X -> X -> Prop) (l1 l2 l3 : list X) :
  (forall x y z, R x y -> R y z -> R x z) ->
  Forall2 R l1 l2 -> Forall2 R l2 l3 -> Forall2 R l1 l3.
Proof.
  intros HR H12. revert l3.
  induction H12 as [|x y l1 l2 Hxy _ IH]; intros l3 H23;
    inversion H23; subst; constructor; eauto.
Qed.

Lemma copy_curves_loop_spec (this : ShellPtr.t) (opA : bool)
    (agnst : ShellPtr.t) (todo : list SCurve.t) :
  forall (done : list SCurve.t) (into : SShell.t)
         (done' : list SCurve.t) (into' : SShell.t),
    copy_curves_loop this opA agnst todo done into = Some (done', into') ->
    SShell.surface into' = SShell.surface into
    /\ SShell.booleanFailed into' = SShell.booleanFailed into
    /\ grows (SShell.curve into) (SShell.curve into')
    /\ (forall n0 : nat,
          n0 <= length (SShell.curve into) ->
          Forall (fun c => allocated n0 (SCurve.newH c) (SShell.curve into))
            done ->
          Forall (fun c => allocated n0 (SCurve.newH c) (SShell.curve into'))
            done')
    /\ exists news : list SCurve.t,
         done' = done ++ news /\ Forall2 same_but_newH todo news.
Proof.
  induction todo as [|sc todo IH]; intros done into done' into' Hrun;
    cbn [copy_curves_loop] in Hrun.
  - inversion Hrun; subst.
    split; [reflexivity|]. split; [reflexivity|].
    split; [apply grows_refl|]. split; [auto|].
    exists []. split; [now rewrite app_nil_r | constructor].
  - bind Hrun. bind Hrun. bind Hrun.
    destruct (AddAndAssignId (SShell.curve into) _) as [curves hsc] eqn:EA.
    apply IH in Hrun. cbn [SShell.surface SShell.booleanFailed SShell.curve
      SShell.with_curve] in Hrun.
    destruct Hrun as (Hs & Hf & Hg & Hall & news & Hd & Hnews).
    destruct (AddAndAssignId_spec EA) as [Hg1 Hnew].
    split; [exact Hs|]. split; [exact Hf|].
    split; [eapply grows_trans; eauto|]. split.
    + intros n0 Hn Hdone. apply Hall; [destruct Hg1; lia|].
      eapply allocated_step; eauto.
    + exists (SCurve.with_newH hsc sc :: news). split.
      * now rewrite Hd, <- app_assoc.
      * constructor; [reflexivity | exact Hnews].
Qed.

Lemma CopyCurvesSplitAgainst_spec (this : ShellPtr.t) (opA : bool)
    (agnst : ShellPtr.t) (into this' into' : SShell.t) :
  CopyCurvesSplitAgainst this opA agnst into = Some (this', into') ->
  operand_kept (ShellPtr.target this) this'
  /\ SShell.surface this' = SShell.surface (ShellPtr.target this)
  /\ SShell.surface into' = SShell.surface into
  /\ SShell.booleanFailed into' = SShell.booleanFailed into
  /\ grows (SShell.curve into) (SShell.curve into')
  /\ forall n0 : nat,
       n0 <= length (SShell.curve into) ->
       Forall (fun c => allocated n0 (SCurve.newH c) (SShell.curve into'))
         (SShell.curve this').
Proof.
  unfold CopyCurvesSplitAgainst. intros Hrun.
  destruct (copy_curves_loop _ _ _ _ _ _) as [[curves into1]|] eqn:Hloop;
    [|discriminate].
  inversion Hrun; subst. apply copy_curves_loop_spec in Hloop.
  destruct Hloop as (Hs & Hf & Hg & Hall & news & Hd & Hnews).
  cbn [app] in Hd. subst curves.
  cbn [SShell.surface SShell.curve SShell.booleanFailed SShell.with_curve].
  split; [|split; [reflexivity|]].
  - split; [reflexivity|]. split; [exact Hnews|].
    apply Forall2_refl_on. now repeat split.
  - split; [exact Hs|]. split; [exact Hf|]. split; [exact Hg|].
    intros n0 Hn. apply Hall; [exact Hn | constructor].
Qed.

(** Trimming a surface touches nothing of [into] but its failure flag. *)
Lemma MakeCopyTrimAgainst_frame (this : SSurface.t)
    (parent sha shb : ShellPtr.t) (into : SShell.t) (type : CombineAs)
    (ret : SSurface.t) (into' : SShell.t) :
  MakeCopyTrimAgainst this parent sha shb into type = Some (ret, into') ->
  SShell.curve into' = SShell.curve into
  /\ SShell.surface into' = SShell.surface into.
Proof.
  unfold MakeCopyTrimAgainst. intros Hrun. cbv zeta in Hrun.
  bind Hrun. bind Hrun. bind Hrun.
  destruct (TrimFromEdgeList _ _ _) as [[ret1 final]|]; [|discriminate].
  inversion Hrun; subst.
  destruct (negb (AssemblePolygon (ClearTags final))); split; reflexivity.
Qed.

Lemma copy_surfaces_loop_spec (this sha shb : ShellPtr.t)
    (type : CombineAs) (todo : list SSurface.t) :
  forall (done : list SSurface.t) (into : SShell.t)
         (done' : list SSurface.t) (into' : SShell.t),
    copy_surfaces_loop this sha shb todo done into type
    = Some (done', into') ->
    SShell.curve into' = SShell.curve into
    /\ grows (SShell.surface into) (SShell.surface into')
    /\ (forall n0 : nat,
          n0 <= length (SShell.surface into) ->
          Forall
            (fun s => allocated n0 (SSurface.newH s) (SShell.surface into))
            done ->
          Forall
            (fun s => allocated n0 (SSurface.newH s) (SShell.surface into'))
            done')
    /\ exists news : list SSurface.t,
         done' = done ++ news /\ Forall2 same_but_newH_s todo news.
Proof.
  induction todo as [|ss todo IH]; intros done into done' into' Hrun;
    cbn [copy_surfaces_loop] in Hrun.
  - inversion Hrun; subst.
    split; [reflexivity|]. split; [apply grows_refl|]. split; [auto|].
    exists []. split; [now rewrite app_nil_r | constructor].
  - destruct (MakeCopyTrimAgainst _ _ _ _ _ _) as [[ssn into1]|] eqn:Htrim;
      [|discriminate].
    apply MakeCopyTrimAgainst_frame in Htrim. destruct Htrim as [Hc1 Hs1].
    destruct (AddAndAssignId (SShell.surface into1) _)
      as [surfaces hs] eqn:EA.
    apply IH in Hrun. cbn [SShell.surface SShell.curve
      SShell.with_surface] in Hrun.
    destruct Hrun as (Hc & Hg & Hall & news & Hd & Hnews).
    rewrite Hs1 in EA. destruct (AddAndAssignId_spec EA) as [Hg1 Hnew].
    split; [congruence|]. split; [eapply grows_trans; eauto|]. split.
    + intros n0 Hn Hdone. apply Hall; [destruct Hg1; lia|].
      eapply allocated_step; eauto.
    + exists (SSurface.with_newH hs ss :: news). split.
      * now rewrite Hd, <- app_assoc.
      * constructor; [reflexivity | exact Hnews].
Qed.

Lemma same_but_newH_s_scratch (s s' : SSurface.t) :
  same_but_newH_s s s' -> same_but_scratch s s'.
Proof. intros ->. now repeat split. Qed.

Lemma Forall2_impl {X : Type} (R R' : X -> X -> Prop) (l l' : list X) :
  (forall x y, R x y -> R' x y) -> Forall2 R l l' -> Forall2 R' l l'.
Proof. intros HR. induction 1; constructor; auto. Qed.

Lemma CopySurfacesTrimAgainst_spec (this sha shb : ShellPtr.t)
    (type : CombineAs) (into this' into' : SShell.t) :
  CopySurfacesTrimAgainst this sha shb into type = Some (this', into') ->
  operand_kept (ShellPtr.target this) this'
  /\ SShell.curve this' = SShell.curve (ShellPtr.target this)
  /\ Forall2 same_but_newH_s (SShell.surface (ShellPtr.target this))
       (SShell.surface this')
  /\ SShell.curve into' = SShell.curve into
  /\ grows (SShell.surface into) (SShell.surface into')
  /\ forall n0 : nat,
       n0 <= length (SShell.surface into) ->
       Forall (fun s => allocated n0 (SSurface.newH s) (SShell.surface into'))
         (SShell.surface this').
Proof.
  unfold CopySurfacesTrimAgainst. intros Hrun.
  destruct (copy_surfaces_loop _ _ _ _ _ _ _) as [[surfaces into1]|]
    eqn:Hloop; [|discriminate].
  inversion Hrun; subst. apply copy_surfaces_loop_spec in Hloop.
  destruct Hloop as (Hc & Hg & Hall & news & Hd & Hnews).
  cbn [app] in Hd. subst surfaces.
  cbn [SShell.surface SShell.curve SShell.booleanFailed SShell.with_surface].
  split; [|split; [reflexivity|]].
  - split; [reflexivity|]. split.
    + apply Forall2_refl_on. intros c. unfold same_but_newH. now destruct c.
    + eapply Forall2_impl; [apply same_but_newH_s_scratch | exact Hnews].
  - split; [exact Hnews|]. split; [exact Hc|]. split; [exact Hg|].
    intros n0 Hn. apply Hall; [exact Hn | constructor].
Qed.

(** The intersector adds curves to [into] and touches nothing else. *)
Lemma add_curves_spec (l : list SCurve.t) :
  forall into : SShell.t,
    SShell.surface (add_curves into l) = SShell.surface into
    /\ SShell.booleanFailed (add_curves into l) = SShell.booleanFailed into
    /\ grows (SShell.curve into) (SShell.curve (add_curves into l)).
Proof.
  unfold add_curves.
  induction l as [|sc l IH]; intros into; cbn [fold_left].
  - split; [reflexivity|]. split; [reflexivity | apply grows_refl].
  - destruct (IH (SShell.with_curve
                    (fst (AddAndAssignId (SShell.curve into) sc)) into))
      as (Hs & Hf & Hg).
    split; [exact Hs|]. split; [exact Hf|].
    eapply grows_trans; [apply grows_add | exact Hg].
Qed.

Lemma MakeIntersectionCurvesAgainst_spec (this agnst into : SShell.t) :
  let into' := MakeIntersectionCurvesAgainst this agnst into in
  SShell.surface into' = SShell.surface into
  /\ SShell.booleanFailed into' = SShell.booleanFailed into
  /\ grows (SShell.curve into) (SShell.curve into').
Proof.
  unfold MakeIntersectionCurvesAgainst.
  generalize (SShell.surface this) as sas. intros sas. revert into.
  induction sas as [|sa sas IHa]; intros into; cbn [fold_left].
  - split; [reflexivity|]. split; [reflexivity | apply grows_refl].
  - set (inner := fold_left _ (SShell.surface agnst) into).
    assert (Hinner : SShell.surface inner = SShell.surface into
                     /\ SShell.booleanFailed inner = SShell.booleanFailed into
                     /\ grows (SShell.curve into) (SShell.curve inner)).
    { subst inner. generalize (SShell.surface agnst) as sbs. intros sbs.
      revert into. induction sbs as [|sb sbs IHb]; intros into;
        cbn [fold_left].
      - split; [reflexivity|]. split; [reflexivity | apply grows_refl].
      - destruct (add_curves_spec (IntersectAgainst sa sb this agnst into) into)
          as (Hs1 & Hf1 & Hg1).
        destruct (IHb (add_curves into
                         (IntersectAgainst sa sb this agnst into)))
          as (Hs2 & Hf2 & Hg2).
        split; [congruence|]. split; [congruence|].
        eapply grows_trans; eauto. }
    destruct Hinner as (Hs1 & Hf1 & Hg1).
    destruct (IHa inner) as (Hs2 & Hf2 & Hg2).
    split; [congruence|]. split; [congruence|].
    eapply grows_trans; eauto.
Qed.

(** Removing short segments keeps the handles of the curves. *)
Lemma short_segments_loop_handles (a b : SShell.t) (todo : list SCurve.t) :
  forall done done' : list SCurve.t,
    short_segments_loop a b todo done = Some done' ->
    map handle done' = map handle (done ++ todo).
Proof.
  induction todo as [|sc todo IH]; intros done done' Hrun;
    cbn [short_segments_loop] in Hrun.
  - inversion Hrun; subst. now rewrite app_nil_r.
  - bind Hrun. bind Hrun. apply IH in Hrun. rewrite Hrun.
    rewrite <- app_assoc, !map_app. reflexivity.
Qed.

Lemma GetSurfaceA_In (sc : SCurve.t) (a b : SShell.t) (s : SSurface.t) :
  GetSurfaceA sc a b = Some s ->
  In s (SShell.surface a ++ SShell.surface b).
Proof.
  unfold GetSurfaceA. intros Hget. apply in_or_app.
  destruct (SCurve.source sc); apply FindById_In in Hget; tauto.
Qed.

Lemma GetSurfaceB_In (sc : SCurve.t) (a b : SShell.t) (s : SSurface.t) :
  GetSurfaceB sc a b = Some s ->
  In s (SShell.surface a ++ SShell.surface b).
Proof.
  unfold GetSurfaceB. intros Hget. apply in_or_app.
  destruct (SCurve.source sc); apply FindById_In in Hget; tauto.
Qed.

Lemma rewrite_handles_loop_spec (a b : SShell.t) (todo : list SCurve.t) :
  forall done done' : list SCurve.t,
    rewrite_handles_loop a b todo done = Some done' ->
    map handle done' = map handle (done ++ todo)
    /\ (Forall (names_new_handles a b) done ->
        Forall (names_new_handles a b) done').
Proof.
  induction todo as [|sc todo IH]; intros done done' Hrun;
    cbn [rewrite_handles_loop] in Hrun.
  - inversion Hrun; subst. rewrite app_nil_r. split; [reflexivity | auto].
  - bind Hrun. bind Hrun. apply IH in Hrun. destruct Hrun as [Hmap Hall].
    split.
    + rewrite Hmap, <- app_assoc, !map_app. reflexivity.
    + intros Hdone. apply Hall. apply Forall_app. split; [exact Hdone|].
      constructor; [|constructor].
      exists t, t0. cbn [SCurve.surfA SCurve.surfB SCurve.with_surfs].
      split; [eapply GetSurfaceA_In; eassumption|].
      split; [eapply GetSurfaceB_In; eassumption|].
      split; reflexivity.
Qed.

Lemma RewriteSurfaceHandlesForCurves_spec (this a b this' : SShell.t) :
  RewriteSurfaceHandlesForCurves this a b = Some this' ->
  SShell.surface this' = SShell.surface this
  /\ SShell.booleanFailed this' = SShell.booleanFailed this
  /\ grows (SShell.curve this) (SShell.curve this')
  /\ Forall (names_new_handles a b) (SShell.curve this').
Proof.
  unfold RewriteSurfaceHandlesForCurves. intros Hrun. bind Hrun.
  inversion Hrun; subst. apply rewrite_handles_loop_spec in Hbind.
  destruct Hbind as [Hmap Hall].
  cbn [SShell.surface SShell.curve SShell.booleanFailed SShell.with_curve].
  split; [reflexivity|]. split; [reflexivity|]. split.
  - apply grows_same_handles. exact Hmap.
  - apply Hall. constructor.
Qed.

(** Building the classifying BSPs and the clean-up write scratch fields
    only. *)
Lemma classifying_bsps_loop_spec (this : SShell.t)
    (useCurvesFrom : option SShell.t) (todo : list SSurface.t) :
  forall done : list SSurface.t,
    exists news : list SSurface.t,
      classifying_bsps_loop this useCurvesFrom todo done = done ++ news
      /\ Forall2
           (fun s s' =>
              same_but_scratch s s' /\ SSurface.newH s' = SSurface.newH s)
           todo news.
Proof.
  induction todo as [|ss todo IH]; intros done; cbn [classifying_bsps_loop].
  - exists []. split; [now rewrite app_nil_r | constructor].
  - match goal with
    | |- context [classifying_bsps_loop _ _ _ (done ++ [?s])] =>
        destruct (IH (done ++ [s])) as (news & Hrun & Hnews); exists (s :: news)
    end.
    split; [now rewrite Hrun, <- app_assoc|].
    constructor; [|exact Hnews]. now repeat split.
Qed.

Lemma MakeClassifyingBsps_spec (this : SShell.t)
    (useCurvesFrom : option SShell.t) :
  let this' := MakeClassifyingBsps this useCurvesFrom in
  operand_kept this this'
  /\ SShell.curve this' = SShell.curve this
  /\ map SSurface.newH (SShell.surface this')
     = map SSurface.newH (SShell.surface this).
Proof.
  unfold MakeClassifyingBsps.
  destruct (classifying_bsps_loop_spec this useCurvesFrom
              (SShell.surface this) []) as (news & Hrun & Hnews).
  rewrite Hrun. cbn [app SShell.curve SShell.surface SShell.booleanFailed
    SShell.with_surface].
  split; [|split; [reflexivity|]].
  - split; [reflexivity|]. split.
    + apply Forall2_refl_on. intros c. unfold same_but_newH. now destruct c.
    + eapply Forall2_impl; [|exact Hnews]. cbn. tauto.
  - clear Hrun. induction Hnews as [|s s' l l' [_ Hn] _ IH]; cbn;
      [reflexivity | now rewrite Hn, IH].
Qed.

Lemma CleanupAfterBoolean_spec (this : SShell.t) :
  let this' := CleanupAfterBoolean this in
  operand_kept this this'
  /\ SShell.curve this' = SShell.curve this
  /\ map SSurface.newH (SShell.surface this')
     = map SSurface.newH (SShell.surface this)
  /\ Forall (fun s => SSurface.edges s = []) (SShell.surface this').
Proof.
  unfold CleanupAfterBoolean.
  cbn [SShell.curve SShell.surface SShell.booleanFailed SShell.with_surface].
  split; [|split; [reflexivity|split]].
  - split; [reflexivity|]. split.
    + apply Forall2_refl_on. intros c. unfold same_but_newH. now destruct c.
    + induction (SShell.surface this) as [|s l IH]; cbn; constructor;
        [now repeat split | exact IH].
  - now rewrite map_map.
  - apply Forall_forall. intros s Hs. apply in_map_iff in Hs.
    destruct Hs as [s0 [<- _]]. reflexivity.
Qed.

Lemma operand_kept_trans (x y z : SShell.t) :
  operand_kept x y -> operand_kept y z -> operand_kept x z.
Proof.
  intros (Hf1 & Hc1 & Hs1) (Hf2 & Hc2 & Hs2).
  split; [congruence|]. split.
  - eapply Forall2_trans; [|exact Hc1|exact Hc2].
    unfold same_but_newH. intros c1 c2 c3 H12 H23. rewrite H23, H12.
    reflexivity.
  - eapply Forall2_trans; [|exact Hs1|exact Hs2].
    unfold same_but_scratch. intros s1 s2 s3 (? & ? & ?) (? & ? & ?).
    repeat split; congruence.
Qed.

Lemma assemble_curves_spec (src : Source.t) (todo : list SCurve.t) :
  forall (done : list SCurve.t) (this : SShell.t)
         (done' : list SCurve.t) (this' : SShell.t),
    assemble_curves src todo done this = (done', this') ->
    SShell.surface this' = SShell.surface this
    /\ SShell.booleanFailed this' = SShell.booleanFailed this
    /\ grows (SShell.curve this) (SShell.curve this')
    /\ (forall n0 : nat,
          n0 <= length (SShell.curve this) ->
          Forall (fun c => allocated n0 (SCurve.newH c) (SShell.curve this))
            done ->
          Forall (fun c => allocated n0 (SCurve.newH c) (SShell.curve this'))
            done')
    /\ exists news : list SCurve.t,
         done' = done ++ news /\ Forall2 same_but_newH todo news.
Proof.
  induction todo as [|c todo IH]; intros done this done' this' Hrun;
    cbn [assemble_curves] in Hrun.
  - inversion Hrun; subst.
    split; [reflexivity|]. split; [reflexivity|].
    split; [apply grows_refl|]. split; [auto|].
    exists []. split; [now rewrite app_nil_r | constructor].
  - destruct (AddAndAssignId (SShell.curve this) _) as [curves hc] eqn:EA.
    apply IH in Hrun. cbn [SShell.surface SShell.booleanFailed SShell.curve
      SShell.with_curve] in Hrun.
    destruct Hrun as (Hs & Hf & Hg & Hall & news & Hd & Hnews).
    destruct (AddAndAssignId_spec EA) as [Hg1 Hnew].
    split; [exact Hs|]. split; [exact Hf|].
    split; [eapply grows_trans; eauto|]. split.
    + intros n0 Hn Hdone. apply Hall; [destruct Hg1; lia|].
      eapply allocated_step; eauto.
    + exists (SCurve.with_newH hc c :: news). split.
      * now rewrite Hd, <- app_assoc.
      * constructor; [reflexivity | exact Hnews].
Qed.

Lemma assemble_surfaces_spec (ab_curves : list SCurve.t)
    (todo : list SSurface.t) :
  forall (done : list SSurface.t) (this : SShell.t)
         (done' : list SSurface.t) (this' : SShell.t),
    assemble_surfaces ab_curves todo done this = Some (done', this') ->
    SShell.curve this' = SShell.curve this
    /\ SShell.booleanFailed this' = SShell.booleanFailed this
    /\ grows (SShell.surface this) (SShell.surface this')
    /\ (forall n0 : nat,
          n0 <= length (SShell.surface this) ->
          Forall
            (fun s => allocated n0 (SSurface.newH s) (SShell.surface this))
            done ->
          Forall
            (fun s => allocated n0 (SSurface.newH s) (SShell.surface this'))
            done')
    /\ exists news : list SSurface.t,
         done' = done ++ news /\ Forall2 same_but_newH_s todo news.
Proof.
  induction todo as [|s todo IH]; intros done this done' this' Hrun;
    cbn [assemble_surfaces] in Hrun.
  - inversion Hrun; subst.
    split; [reflexivity|]. split; [reflexivity|].
    split; [apply grows_refl|]. split; [auto|].
    exists []. split; [now rewrite app_nil_r | constructor].
  - bind Hrun.
    destruct (AddAndAssignId (SShell.surface this) _) as [surfaces hs] eqn:EA.
    apply IH in Hrun. cbn [SShell.surface SShell.booleanFailed SShell.curve
      SShell.with_surface] in Hrun.
    destruct Hrun as (Hc & Hf & Hg & Hall & news & Hd & Hnews).
    destruct (AddAndAssignId_spec EA) as [Hg1 Hnew].
    split; [exact Hc|]. split; [exact Hf|].
    split; [eapply grows_trans; eauto|]. split.
    + intros n0 Hn Hdone. apply Hall; [destruct Hg1; lia|].
      eapply allocated_step; eauto.
    + exists (SSurface.with_newH hs s :: news). split.
      * now rewrite Hd, <- app_assoc.
      * constructor; [reflexivity | exact Hnews].
Qed.

Lemma Forall_newH_map (Q : N -> Prop) (l l' : list SSurface.t) :
  map SSurface.newH l' = map SSurface.newH l ->
  Forall (fun s => Q (SSurface.newH s)) l ->
  Forall (fun s => Q (SSurface.newH s)) l'.
Proof.
  intros Hmap Hl.
  apply (proj2 (Forall_map SSurface.newH Q l)) in Hl.
  rewrite <- Hmap in Hl.
  exact (proj1 (Forall_map SSurface.newH Q l') Hl).
Qed.

Lemma names_allocated (n0 : nat) (a b : SShell.t)
    (surfaces : list SSurface.t) (curves : list SCurve.t) :
  Forall (fun s => allocated n0 (SSurface.newH s) surfaces)
    (SShell.surface a ++ SShell.surface b) ->
  Forall (names_new_handles a b) curves ->
  Forall
    (fun c => allocated n0 (SCurve.surfA c) surfaces
              /\ allocated n0 (SCurve.surfB c) surfaces)
    curves.
Proof.
  intros Hall Hnames. rewrite Forall_forall in Hall.
  eapply Forall_impl; [|exact Hnames]. cbn.
  intros c (sa & sb & Ha & Hb & -> & ->). split; auto.
Qed.

Lemma same_but_newH_refl (l : list SCurve.t) : Forall2 same_but_newH l l.
Proof.
  apply Forall2_refl_on. intros c. unfold same_but_newH. now destruct c.
Qed.

Lemma MakeFromAssemblyOf_facts (this a b r a' b' : SShell.t) :
  MakeFromAssemblyOf this a b = Some (r, a', b') ->
  run_facts true this a b r a' b'.
Proof.
  unfold MakeFromAssemblyOf. intros Hrun. cbv zeta in Hrun.
  set (this0 := SShell.with_booleanFailed false this) in *.
  destruct (assemble_curves Source.A (SShell.curve a) [] this0)
    as [ca this1] eqn:H1.
  destruct (assemble_curves Source.B (SShell.curve b) [] this1)
    as [cb this2] eqn:H2.
  cbn [SShell.curve SShell.surface SShell.with_curve] in Hrun.
  destruct (assemble_surfaces ca (SShell.surface a) [] this2)
    as [[sa this3]|] eqn:H3; [|discriminate].
  destruct (assemble_surfaces cb (SShell.surface b) [] this3)
    as [[sb this4]|] eqn:H4; [|discriminate].
  bind Hrun. rename t into this5. rename Hbind into H5.
  inversion Hrun; subst r a' b'. clear Hrun.
  apply assemble_curves_spec in H1.
  destruct H1 as (Hs1 & Hf1 & Hg1 & Hall1 & news1 & Hd1 & Hn1).
  apply assemble_curves_spec in H2.
  destruct H2 as (Hs2 & Hf2 & Hg2 & Hall2 & news2 & Hd2 & Hn2).
  apply assemble_surfaces_spec in H3.
  destruct H3 as (Hc3 & Hf3 & Hg3 & Hall3 & news3 & Hd3 & Hn3).
  apply assemble_surfaces_spec in H4.
  destruct H4 as (Hc4 & Hf4 & Hg4 & Hall4 & news4 & Hd4 & Hn4).
  apply RewriteSurfaceHandlesForCurves_spec in H5.
  cbn [SShell.curve SShell.surface SShell.with_curve SShell.with_surface]
    in H5.
  destruct H5 as (Hs5 & Hf5 & Hg5 & Hnames).
  cbn [app] in Hd1, Hd2, Hd3, Hd4. subst ca cb sa sb.
  assert (Hc0 : SShell.curve this0 = SShell.curve this) by reflexivity.
  assert (Hs0 : SShell.surface this0 = SShell.surface this) by reflexivity.
  assert (Hsurf :
            Forall
              (fun s => allocated (length (SShell.surface this))
                          (SSurface.newH s) (SShell.surface this5))
              (news3 ++ news4)).
  { rewrite Hs5. apply Forall_app. split.
    - eapply allocated_grows; [exact Hg4|].
      apply Hall3; [|constructor]. rewrite Hs2, Hs1, Hs0. lia.
    - apply Hall4; [|constructor]. destruct Hg3 as [Hlen _].
      rewrite Hs2, Hs1, Hs0 in Hlen. exact Hlen. }
  constructor;
    cbn [SShell.curve SShell.surface SShell.booleanFailed
         SShell.with_curve SShell.with_surface].
  - assert (Hg25 : grows (SShell.curve this2) (SShell.curve this5)).
    { rewrite <- Hc3, <- Hc4. exact Hg5. }
    apply Forall_app. split.
    + eapply allocated_grows; [eapply grows_trans; [exact Hg2|exact Hg25]|].
      apply Hall1; [rewrite Hc0; lia | constructor].
    + eapply allocated_grows; [exact Hg25|].
      apply Hall2; [|constructor]. destruct Hg1 as [Hlen _].
      rewrite Hc0 in Hlen. exact Hlen.
  - exact Hsurf.
  - eapply names_allocated; [|exact Hnames].
    cbn [SShell.surface SShell.with_surface]. exact Hsurf.
  - intros _. rewrite Hf5, Hf4, Hf3, Hf2, Hf1. reflexivity.
  - split; [reflexivity|]. split; [exact Hn1|].
    eapply Forall2_impl; [apply same_but_newH_s_scratch | exact Hn3].
  - split; [reflexivity|]. split; [exact Hn2|].
    eapply Forall2_impl; [apply same_but_newH_s_scratch | exact Hn4].
Qed.

Lemma MakeFromBoolean_facts (this a b : SShell.t) (type : CombineAs)
    (r a' b' : SShell.t) :
  MakeFromBoolean this a b type = Some (r, a', b') ->
  run_facts false this a b r a' b'
  /\ Forall (fun s => SSurface.edges s = [])
       (SShell.surface a' ++ SShell.surface b').
Proof.
  unfold MakeFromBoolean. intros Hrun. cbv zeta in Hrun.
  set (this0 := SShell.with_booleanFailed false this) in *.
  pose proof (MakeClassifyingBsps_spec a None) as Ha1.
  pose proof (MakeClassifyingBsps_spec b None) as Hb1.
  cbv zeta in Ha1, Hb1.
  set (a1 := MakeClassifyingBsps a None) in *.
  set (b1 := MakeClassifyingBsps b None) in *.
  destruct (CopyCurvesSplitAgainst (ShellPtr.mk OperandA a1) true
              (ShellPtr.mk OperandB b1) this0)
    as [[a2 this1]|] eqn:H1; [|discriminate].
  destruct (CopyCurvesSplitAgainst (ShellPtr.mk OperandB b1) false
              (ShellPtr.mk OperandA a2) this1)
    as [[b2 this2]|] eqn:H2; [|discriminate].
  pose proof (MakeIntersectionCurvesAgainst_spec a2 b2 this2) as H3.
  cbv zeta in H3.
  set (this3 := MakeIntersectionCurvesAgainst a2 b2 this2) in *.
  destruct (short_segments_loop a2 b2 (SShell.curve this3) [])
    as [curves|] eqn:H4; [|discriminate].
  set (this4 := SShell.with_curve curves this3) in *.
  pose proof (CleanupAfterBoolean_spec a2) as Ha3.
  pose proof (CleanupAfterBoolean_spec b2) as Hb3.
  cbv zeta in Ha3, Hb3.
  set (a3 := CleanupAfterBoolean a2) in *.
  set (b3 := CleanupAfterBoolean b2) in *.
  pose proof (MakeClassifyingBsps_spec a3 (Some this4)) as Ha4.
  pose proof (MakeClassifyingBsps_spec b3 (Some this4)) as Hb4.
  cbv zeta in Ha4, Hb4.
  set (a4 := MakeClassifyingBsps a3 (Some this4)) in *.
  set (b4 := MakeClassifyingBsps b3 (Some this4)) in *.
  destruct (CopySurfacesTrimAgainst (ShellPtr.mk OperandA a4)
              (ShellPtr.mk OperandA a4) (ShellPtr.mk OperandB b4) this4 type)
    as [[a5 this5]|] eqn:H5; [|discriminate].
  destruct (CopySurfacesTrimAgainst (ShellPtr.mk OperandB b4)
              (ShellPtr.mk OperandA a5) (ShellPtr.mk OperandB b4) this5 type)
    as [[b5 this6]|] eqn:H6; [|discriminate].
  destruct (RewriteSurfaceHandlesForCurves this6 a5 b5)
    as [this7|] eqn:H7; [|discriminate].
  pose proof (CleanupAfterBoolean_spec a5) as Ha6.
  pose proof (CleanupAfterBoolean_spec b5) as Hb6.
  cbv zeta in Ha6, Hb6.
  inversion Hrun; subst r a' b'. clear Hrun.
  destruct Ha1 as (Hka1 & Hca1 & _). destruct Hb1 as (Hkb1 & Hcb1 & _).
  apply CopyCurvesSplitAgainst_spec in H1. cbn [ShellPtr.target] in H1.
  destruct H1 as (Hka2 & _ & Hs1 & _ & Hg1 & Hall1).
  apply CopyCurvesSplitAgainst_spec in H2. cbn [ShellPtr.target] in H2.
  destruct H2 as (Hkb2 & _ & Hs2 & _ & Hg2 & Hall2).
  destruct H3 as (Hs3 & _ & Hg3).
  apply short_segments_loop_handles in H4. cbn [app] in H4.
  destruct Ha3 as (Hka3 & Hca3 & _). destruct Hb3 as (Hkb3 & Hcb3 & _).
  destruct Ha4 as (Hka4 & Hca4 & _). destruct Hb4 as (Hkb4 & Hcb4 & _).
  apply CopySurfacesTrimAgainst_spec in H5. cbn [ShellPtr.target] in H5.
  destruct H5 as (Hka5 & Hca5 & _ & Hc5 & Hg5 & Hall5).
  apply CopySurfacesTrimAgainst_spec in H6. cbn [ShellPtr.target] in H6.
  destruct H6 as (Hkb5 & Hcb5 & _ & Hc6 & Hg6 & Hall6).
  apply RewriteSurfaceHandlesForCurves_spec in H7.
  destruct H7 as (Hs7 & _ & Hg7 & Hnames).
  destruct Ha6 as (Hka6 & Hca6 & Hna6 & Hea6).
  destruct Hb6 as (Hkb6 & Hcb6 & Hnb6 & Heb6).
  assert (Hc0 : SShell.curve this0 = SShell.curve this) by reflexivity.
  assert (Hs0 : SShell.surface this0 = SShell.surface this) by reflexivity.
  assert (Hs4 : SShell.surface this4 = SShell.surface this).
  { subst this4. cbn [SShell.surface SShell.with_curve]. congruence. }
  assert (Hg27 : grows (SShell.curve this2) (SShell.curve this7)).
  { eapply grows_trans; [exact Hg3|].
    eapply grows_trans; [|exact Hg7]. rewrite Hc6, Hc5.
    apply grows_same_handles. exact H4. }
  assert (Hsurf :
            Forall
              (fun s => allocated (length (SShell.surface this))
                          (SSurface.newH s) (SShell.surface this7))
              (SShell.surface a5 ++ SShell.surface b5)).
  { rewrite Hs7. apply Forall_app. split.
    - eapply allocated_grows; [exact Hg6|].
      apply Hall5. rewrite Hs4. lia.
    - apply Hall6. destruct Hg5 as [Hlen _]. rewrite Hs4 in Hlen.
      exact Hlen. }
  split; [constructor|].
  - rewrite Hca6, Hcb6, Hca5, Hcb5, Hca4, Hcb4, Hca3, Hcb3.
    apply Forall_app. split.
    + eapply allocated_grows; [eapply grows_trans; [exact Hg2|exact Hg27]|].
      apply Hall1. rewrite Hc0. lia.
    + eapply allocated_grows; [exact Hg27|].
      apply Hall2. destruct Hg1 as [Hlen _]. rewrite Hc0 in Hlen. exact Hlen.
  - apply Forall_app in Hsurf. destruct Hsurf as [Hsa Hsb].
    apply Forall_app. split.
    + eapply Forall_newH_map
        with (Q := fun v => allocated (length (SShell.surface this)) v
                             (SShell.surface this7));
        [exact Hna6 | exact Hsa].
    + eapply Forall_newH_map
        with (Q := fun v => allocated (length (SShell.surface this)) v
                             (SShell.surface this7));
        [exact Hnb6 | exact Hsb].
  - eapply names_allocated; [exact Hsurf | exact Hnames].
  - discriminate.
  - eapply operand_kept_trans; [exact Hka1|].
    eapply operand_kept_trans; [exact Hka2|].
    eapply operand_kept_trans; [exact Hka3|].
    eapply operand_kept_trans; [exact Hka4|].
    eapply operand_kept_trans; [exact Hka5 | exact Hka6].
  - eapply operand_kept_trans; [exact Hkb1|].
    eapply operand_kept_trans; [exact Hkb2|].
    eapply operand_kept_trans; [exact Hkb3|].
    eapply operand_kept_trans; [exact Hkb4|].
    eapply operand_kept_trans; [exact Hkb5 | exact Hkb6].
  - apply Forall_app. split; assumption.
Qed.

Lemma run_facts_handles (k : bool) (this a b r a' b' : SShell.t) :
  run_facts k this a b r a' b' ->
  (forall c : SCurve.t,
     In c (SShell.curve a' ++ SShell.curve b') ->
     designates_one_added (length (SShell.curve this)) (SCurve.newH c)
       (SShell.curve r))
  /\ (forall s : SSurface.t,
        In s (SShell.surface a' ++ SShell.surface b') ->
        designates_one_added (length (SShell.surface this)) (SSurface.newH s)
          (SShell.surface r))
  /\ (forall c : SCurve.t,
        In c (SShell.curve r) ->
        resolves (SCurve.surfA c) r /\ resolves (SCurve.surfB c) r).
Proof.
  intros [Hc Hs Hn _ _ _]. rewrite Forall_forall in Hc, Hs, Hn.
  split; [|split].
  - intros c Hin. apply allocated_count. now apply Hc.
  - intros s Hin. apply allocated_count. now apply Hs.
  - intros c Hin. destruct (Hn c Hin) as [HA HB].
    destruct (allocated_In HA) as [sa [Hina Hsa]].
    destruct (allocated_In HB) as [sb [Hinb Hsb]].
    split; [exists sa | exists sb]; split; assumption.
Qed.

Lemma Forall2_and_r {X Y : Type} (R : X -> Y -> Prop) (Q : Y -> Prop)
    (l : list X) (l' : list Y) :
  Forall2 R l l' ->
  (forall y : Y, In y l' -> Q y) ->
  Forall2 (fun x y => R x y /\ Q y) l l'.
Proof.
  induction 1 as [|x y l l' Hxy Hall IH]; intros HQ; constructor.
  - split; [exact Hxy | apply HQ; now left].
  - apply IH. intros y' Hin. apply HQ. now right.
Qed.

(** What a completed run has made of the operands: every curve and every
    surface of an operand is still there, changed in its scratch fields at
    most, and its [newH] designates one element that the run added. *)
Lemma run_facts_operands (k : bool) (this a b r a' b' : SShell.t) :
  run_facts k this a b r a' b' ->
  Forall2 (curve_designates (length (SShell.curve this)) (SShell.curve r))
    (SShell.curve a) (SShell.curve a')
  /\ Forall2 (curve_designates (length (SShell.curve this)) (SShell.curve r))
       (SShell.curve b) (SShell.curve b')
  /\ Forall2
       (surface_designates (length (SShell.surface this)) (SShell.surface r))
       (SShell.surface a) (SShell.surface a')
  /\ Forall2
       (surface_designates (length (SShell.surface this)) (SShell.surface r))
       (SShell.surface b) (SShell.surface b')
  /\ (forall c : SCurve.t,
        In c (SShell.curve r) ->
        resolves (SCurve.surfA c) r /\ resolves (SCurve.surfB c) r).
Proof.
  intros Hfacts.
  destruct (run_facts_handles Hfacts) as (Hc & Hs & Hn).
  destruct (rf_a Hfacts) as (_ & Hca & Hsa).
  destruct (rf_b Hfacts) as (_ & Hcb & Hsb).
  repeat split; try exact Hn.
  - apply Forall2_and_r; [exact Hca|].
    intros c Hin. apply Hc, in_or_app. now left.
  - apply Forall2_and_r; [exact Hcb|].
    intros c Hin. apply Hc, in_or_app. now right.
  - apply Forall2_and_r; [exact Hsa|].
    intros c Hin. apply Hs, in_or_app. now left.
  - apply Forall2_and_r; [exact Hsb|].
    intros c Hin. apply Hs, in_or_app. now right.
  - now apply Hn.
  - now apply Hn.
Qed.

(** C4.  After [MakeFromBoolean] or [MakeFromAssemblyOf] has completed on
    the operands [a] and [b], every curve and every surface of either
    operand is still in its operand, in its place and changed in its
    scratch fields at most, and its [newH] designates exactly one curve or
    surface of the result, one that the run added; and the [surfA] and
    [surfB] of every curve of the result are handles of surfaces of the
    result. *)
Theorem new_handles_designate (this a b : SShell.t) (type : CombineAs)
    (r a' b' : SShell.t) :
  MakeFromBoolean this a b type = Some (r, a', b')
  \/ MakeFromAssemblyOf this a b = Some (r, a', b') ->
  Forall2 (curve_designates (length (SShell.curve this)) (SShell.curve r))
    (SShell.curve a) (SShell.curve a')
  /\ Forall2 (curve_designates (length (SShell.curve this)) (SShell.curve r))
       (SShell.curve b) (SShell.curve b')
  /\ Forall2
       (surface_designates (length (SShell.surface this)) (SShell.surface r))
       (SShell.surface a) (SShell.surface a')
  /\ Forall2
       (surface_designates (length (SShell.surface this)) (SShell.surface r))
       (SShell.surface b) (SShell.surface b')
  /\ (forall c : SCurve.t,
        In c (SShell.curve r) ->
        resolves (SCurve.surfA c) r /\ resolves (SCurve.surfB c) r).
Proof.
  intros [Hrun|Hrun].
  - apply MakeFromBoolean_facts in Hrun. destruct Hrun as [Hfacts _].
    exact (run_facts_operands Hfacts).
  - apply MakeFromAssemblyOf_facts in Hrun.
    exact (run_facts_operands Hrun).
Qed.

(** C7 (as amended).  [CleanupAfterBoolean] empties the XYZ edge list of
    every surface of the shell and changes nothing else, so the BSP pointers
    and the [newH] slots keep what the run wrote.  At the end of
    [MakeFromBoolean] every surface of the two operands has an empty edge
    list, and the operands differ from what they were in the scratch fields
    [newH], [bsp] and [edges] at most. *)
Theorem CleanupAfterBoolean_clears_edges (x this a b : SShell.t)
    (type : CombineAs) (r a' b' : SShell.t) :
  MakeFromBoolean this a b type = Some (r, a', b') ->
  (SShell.curve (CleanupAfterBoolean x) = SShell.curve x
   /\ SShell.booleanFailed (CleanupAfterBoolean x) = SShell.booleanFailed x
   /\ Forall2 (fun s s' => s' = SSurface.with_edges [] s)
        (SShell.surface x) (SShell.surface (CleanupAfterBoolean x)))
  /\ Forall (fun s => SSurface.edges s = [])
       (SShell.surface a' ++ SShell.surface b')
  /\ operand_kept a a'
  /\ operand_kept b b'.
Proof.
  intros Hrun. apply MakeFromBoolean_facts in Hrun.
  destruct Hrun as [[_ _ _ _ Ha Hb] Hedges].
  split; [|split; [exact Hedges | split; assumption]].
  split; [reflexivity|]. split; [reflexivity|].
  unfold CleanupAfterBoolean. cbn [SShell.surface SShell.with_surface].
  induction (SShell.surface x) as [|s l IH]; cbn; constructor;
    [reflexivity | exact IH].
Qed.

(** C10.  A completed [MakeFromAssemblyOf] leaves the failure flag of the
    result false, whatever the two operands are. *)
Theorem MakeFromAssemblyOf_not_failed (this a b r a' b' : SShell.t) :
  MakeFromAssemblyOf this a b = Some (r, a', b') ->
  SShell.booleanFailed r = false.
Proof.
  intros Hrun. apply MakeFromAssemblyOf_facts in Hrun.
  now apply (rf_flag Hrun).
Qed.

(** ** Further properties: the keep policy *)

Lemma KeepRegion_None_iff (type : CombineAs) (opA : bool)
    (shell orig : ShellClass.t) :
  KeepRegion type opA shell orig = None
  <-> type = UNEXPECTED /\ orig = ShellClass.INSIDE.
Proof.
  destruct type, opA, shell, orig; cbn; split;
    try discriminate; try (intros [? ?]; discriminate); auto.
Qed.

(** X1.  [KeepEdge] fails its assertion exactly when the combine type is
    neither [UNION] nor [DIFFERENCE] and one of the two sides is [INSIDE]
    the original face; for the two operations it returns for every
    classification. *)
Theorem KeepEdge_fails_iff (type : CombineAs) (opA : bool)
    (indir_shell outdir_shell indir_orig outdir_orig : ShellClass.t) :
  KeepEdge type opA indir_shell outdir_shell indir_orig outdir_orig = None
  <-> type = UNEXPECTED
      /\ (indir_orig = ShellClass.INSIDE \/ outdir_orig = ShellClass.INSIDE).
Proof.
  unfold KeepEdge.
  pose proof (KeepRegion_None_iff type opA indir_shell indir_orig) as Hin.
  pose proof (KeepRegion_None_iff type opA outdir_shell outdir_orig) as Hout.
  destruct (KeepRegion type opA indir_shell indir_orig) as [keepIn|];
    destruct (KeepRegion type opA outdir_shell outdir_orig) as [keepOut|].
  - split.
    + destruct (keepIn && negb keepOut); discriminate.
    + intros [Ht [Ho|Ho]].
      * discriminate (proj2 Hin (conj Ht Ho)).
      * discriminate (proj2 Hout (conj Ht Ho)).
  - split; [intros _|reflexivity].
    destruct (proj1 Hout eq_refl). auto.
  - split; [intros _|reflexivity].
    destruct (proj1 Hin eq_refl). auto.
  - split; [intros _|reflexivity].
    destruct (proj1 Hin eq_refl). auto.
Qed.

(** X2.  An edge of the original trim has the face on its inner side only,
    so [MakeCopyTrimAgainst] keeps it exactly when [KeepRegion] keeps its
    inner side: the classification of its outer side against the other
    shell has no influence. *)
Theorem KeepEdge_original_trim (type : CombineAs) (opA : bool)
    (indir_shell outdir_shell : ShellClass.t) :
  KeepEdge type opA indir_shell outdir_shell
    ShellClass.INSIDE ShellClass.OUTSIDE
  = KeepRegion type opA indir_shell ShellClass.INSIDE.
Proof. destruct type, opA, indir_shell, outdir_shell; reflexivity. Qed.

(** X3.  An intersection edge is kept only if the BSP of the original trim
    classifies it [INSIDE] or [EDGE_PARALLEL]: with the sides that
    [TagByClassifiedEdge] gives for any other class, [KeepEdge] never
    returns true. *)
Theorem KeepEdge_intersection_inside (c : BspClass.t) (type : CombineAs)
    (opA : bool) (indir_shell outdir_shell : ShellClass.t) :
  KeepEdge type opA indir_shell outdir_shell
    (fst (TagByClassifiedEdge c)) (snd (TagByClassifiedEdge c)) = Some true ->
  c = BspClass.INSIDE \/ c = BspClass.EDGE_PARALLEL.
Proof.
  intros Hkeep. apply KeepEdge_true_iff in Hkeep. destruct Hkeep as [Hin _].
  destruct c; auto; cbn in Hin; destruct type, opA; discriminate.
Qed.

(** X4.  Where the two shells have coincident faces of the same
    orientation, the region is kept for operand B and dropped for operand
    A, in the union and in the difference alike, provided it is inside the
    original face. *)
Theorem KeepRegion_coinc_same (opA : bool) (orig : ShellClass.t) :
  KeepRegion UNION opA ShellClass.COINC_SAME orig
  = Some (ShellClass.eqb orig ShellClass.INSIDE && negb opA)
  /\ KeepRegion DIFFERENCE opA ShellClass.COINC_SAME orig
     = Some (ShellClass.eqb orig ShellClass.INSIDE && negb opA).
Proof. destruct opA, orig; split; reflexivity. Qed.

(** ** Further properties: the UV BSP *)

Lemma segments_Node (a b : Point2d.t) (pos neg more : option SBspUv) :
  segments (Node a b pos neg more)
  = (a, b) :: subtree_segments pos ++ subtree_segments neg
             ++ subtree_segments more.
Proof. destruct pos, neg, more; reflexivity. Qed.

Lemma segments_Node_incl (a b : Point2d.t)
    (pos neg more pos' neg' more' : option SBspUv) :
  incl (subtree_segments pos) (subtree_segments pos') ->
  incl (subtree_segments neg) (subtree_segments neg') ->
  incl (subtree_segments more) (subtree_segments more') ->
  incl (segments (Node a b pos neg more))
    (segments (Node a b pos' neg' more')).
Proof.
  intros Hp Hn Hm. rewrite !segments_Node.
  intros s [<-|Hin]; [now left|right].
  rewrite !in_app_iff in Hin |- *. intuition.
Qed.

Lemma segments_Node_length (a b : Point2d.t) (pos neg more : option SBspUv) :
  length (segments (Node a b pos neg more))
  = S (length (subtree_segments pos) + length (subtree_segments neg)
       + length (subtree_segments more)).
Proof. rewrite segments_Node. cbn [length]. rewrite !length_app. lia. Qed.

Lemma InsertEdge_segments (t : SBspUv) (ea eb : Point2d.t)
    (srf : SSurface.t) :
  incl (segments t) (segments (InsertEdge t ea eb srf))
  /\ length (segments t) < length (segments (InsertEdge t ea eb srf))
  /\ root_segment (InsertEdge t ea eb srf) = root_segment t.
Proof.
  revert t ea eb.
  fix IH 1.
  intros [a b pos neg more] ea eb.
  assert (Hpos : forall ea eb : Point2d.t,
             let w' :=
               match pos with
               | None => Some (new_node ea eb)
               | Some n => Some (InsertEdge n ea eb srf)
               end in
             incl (subtree_segments pos) (subtree_segments w')
             /\ length (subtree_segments pos) < length (subtree_segments w')).
  { intros ea' eb'. destruct pos as [n|]; cbn [subtree_segments].
    - destruct (IH n ea' eb') as (Hi & Hl & _). split; assumption.
    - split; [apply incl_nil_l | cbn; lia]. }
  assert (Hneg : forall ea eb : Point2d.t,
             let w' :=
               match neg with
               | None => Some (new_node ea eb)
               | Some n => Some (InsertEdge n ea eb srf)
               end in
             incl (subtree_segments neg) (subtree_segments w')
             /\ length (subtree_segments neg) < length (subtree_segments w')).
  { intros ea' eb'. destruct neg as [n|]; cbn [subtree_segments].
    - destruct (IH n ea' eb') as (Hi & Hl & _). split; assumption.
    - split; [apply incl_nil_l | cbn; lia]. }
  clear IH. cbv zeta in Hpos, Hneg.
  cbn [InsertEdge].
  repeat match goal with
         | |- context [if ?c then _ else _] => destruct c
         end;
    cbn [root_segment];
    (split; [|split; [|reflexivity]]);
    try (apply segments_Node_incl;
         try apply incl_refl; try apply Hpos; try apply Hneg;
         cbn [subtree_segments]; rewrite segments_Node; cbn [subtree_segments];
         apply incl_tl, incl_refl);
    rewrite !segments_Node_length;
    try (pose proof (proj2 (Hpos ea eb)); pose proof (proj2 (Hneg ea eb));
         lia);
    try (cbn [subtree_segments]; rewrite segments_Node_length;
         cbn [subtree_segments length]; lia).
  all: match goal with
       | |- context [Point2d_Plus ?x ?y] =>
           pose proof (proj2 (Hpos ea (Point2d_Plus x y)));
           pose proof (proj2 (Hneg ea (Point2d_Plus x y)));
           pose proof (proj2 (Hpos (Point2d_Plus x y) eb));
           pose proof (proj2 (Hneg (Point2d_Plus x y) eb)); lia
       end.
Qed.

(** X5.  [InsertEdge] only adds to the tree: every segment that the tree
    held is still held, the tree holds one segment more at least (two or
    more when the new edge is split at a partition line), and the segment of
    the root, the partition line of the tree, stays. *)
Theorem InsertEdge_keeps_segments (t : SBspUv) (ea eb : Point2d.t)
    (srf : SSurface.t) :
  incl (segments t) (segments (InsertEdge t ea eb srf))
  /\ length (segments t) < length (segments (InsertEdge t ea eb srf))
  /\ root_segment (InsertEdge t ea eb srf) = root_segment t.
Proof. apply InsertEdge_segments. Qed.

Lemma insert_all_size (srf : SSurface.t) (l : list SEdge.t) :
  forall t : SBspUv,
    exists t' : SBspUv,
      fold_left
        (fun bsp se =>
           InsertOrCreateEdge bsp (Vector_ProjectXy (SEdge.a se))
             (Vector_ProjectXy (SEdge.b se)) srf)
        l (Some t) = Some t'
      /\ length (segments t) + length l <= length (segments t').
Proof.
  induction l as [|se l IH]; intros t; cbn [fold_left].
  - exists t. split; [reflexivity | cbn; lia].
  - cbn [InsertOrCreateEdge].
    destruct (IH (InsertEdge t (Vector_ProjectXy (SEdge.a se))
                    (Vector_ProjectXy (SEdge.b se)) srf)) as (t' & Hrun & Hlen).
    exists t'. split; [exact Hrun|].
    pose proof (InsertEdge_segments t (Vector_ProjectXy (SEdge.a se))
                  (Vector_ProjectXy (SEdge.b se)) srf) as (_ & Hlt & _).
    cbn [length]. lia.
Qed.

(** X6.  Provided that sorting keeps the number of elements, [SBspUv::From]
    returns the null tree for the empty edge list only, and for any other
    list a tree that holds one segment per edge at least. *)
Theorem SBspUv_From_size (el : list SEdge.t) (srf : SSurface.t) :
  (forall (T : Type) (lt : T -> T -> bool) (l : list T),
     length (std_sort lt l) = length l) ->
  match SBspUv_From el srf with
  | None => el = []
  | Some t => el <> [] /\ length el <= length (segments t)
  end.
Proof.
  intros Hsort. unfold SBspUv_From.
  match goal with
  | |- context [std_sort ?lt ?work] =>
      pose proof (Hsort _ lt work) as Hlen; destruct (std_sort lt work) as [|se l]
  end; rewrite length_map in Hlen.
  - cbn. destruct el; [reflexivity | discriminate].
  - cbn [fold_left InsertOrCreateEdge].
    destruct (insert_all_size srf l
                (new_node (Vector_ProjectXy (SEdge.a se))
                   (Vector_ProjectXy (SEdge.b se)))) as (t' & Hrun & Hsize).
    rewrite Hrun. split.
    + intros ->. discriminate.
    + cbn [length] in Hlen. cbn in Hsize. lia.
Qed.

Lemma classify_on_chain_Some (f : SBspUv) (p eb : Point2d.t)
    (srf : SSurface.t) (c : BspClass.t) :
  classify_on_chain f p eb srf = Some c ->
  is_edge_class c = true
  /\ exists a b : Point2d.t,
       In (a, b) (segments f) /\ on_segment p a b srf = true.
Proof.
  revert f.
  fix IH 1.
  intros [fa fb fpos fneg fmore]. cbn [classify_on_chain].
  destruct (ScaledDistanceToLine p fa (Point2d_Minus fb fa) true srf
            <? LENGTH_EPS)%float eqn:Hon.
  - intros Hc. split.
    + destruct (ScaledDistanceToLine eb fa (Point2d_Minus fb fa) false srf
                <? LENGTH_EPS)%float;
        [destruct (0 <? Point2d_Dot (Point2d_Minus fb fa)
                          (Point2d_Minus eb p))%float|];
        inversion Hc; reflexivity.
    + exists fa, fb. split; [rewrite segments_Node; now left | exact Hon].
  - destruct fmore as [m|]; [|discriminate].
    intros Hc. destruct (IH m Hc) as (He & a & b & Hin & Hon').
    split; [exact He|]. exists a, b. split; [|exact Hon'].
    rewrite segments_Node. right. rewrite !in_app_iff. auto.
Qed.

Lemma ClassifyPoint_edge (p eb : Point2d.t) (srf : SSurface.t) :
  forall t : SBspUv,
    is_edge_class (ClassifyPoint t p eb srf) = true ->
    exists a b : Point2d.t,
      In (a, b) (segments t) /\ on_segment p a b srf = true.
Proof.
  fix IH 1.
  intros [a b pos neg more].
  assert (Hpos : forall n, pos = Some n ->
            is_edge_class (ClassifyPoint n p eb srf) = true ->
            exists a' b' : Point2d.t,
              In (a', b') (segments (Node a b pos neg more))
              /\ on_segment p a' b' srf = true).
  { destruct pos as [n'|]; intros n Hn He; [|discriminate].
    inversion Hn; subst n. destruct (IH n' He) as (a' & b' & Hin & Hon).
    exists a', b'. split; [|exact Hon]. rewrite segments_Node. right.
    cbn [subtree_segments]. rewrite !in_app_iff. auto. }
  assert (Hneg : forall n, neg = Some n ->
            is_edge_class (ClassifyPoint n p eb srf) = true ->
            exists a' b' : Point2d.t,
              In (a', b') (segments (Node a b pos neg more))
              /\ on_segment p a' b' srf = true).
  { destruct neg as [n'|]; intros n Hn He; [|discriminate].
    inversion Hn; subst n. destruct (IH n' He) as (a' & b' & Hin & Hon).
    exists a', b'. split; [|exact Hon]. rewrite segments_Node. right.
    cbn [subtree_segments]. rewrite !in_app_iff. auto. }
  clear IH. cbn [ClassifyPoint].
  destruct (abs (ScaledSignedDistanceToLine p a b srf) <? LENGTH_EPS)%float.
  - destruct (classify_on_chain (Node a b pos neg more) p eb srf) as [c|]
      eqn:Hchain.
    + intros _. exact (proj2 (classify_on_chain_Some _ _ _ _ Hchain)).
    + destruct neg as [n|]; [apply (Hneg n eq_refl) | discriminate].
  - destruct (0 <? ScaledSignedDistanceToLine p a b srf)%float.
    + destruct pos as [n|]; [apply (Hpos n eq_refl) | discriminate].
    + destruct neg as [n|]; [apply (Hneg n eq_refl) | discriminate].
Qed.

(** X7.  [ClassifyPoint] answers [INSIDE] or [OUTSIDE] unless the point is
    within [LENGTH_EPS] of a segment that the tree holds: an edge class is
    never reported for a point away from every segment. *)
Theorem ClassifyPoint_edge_on_segment (t : SBspUv) (p eb : Point2d.t)
    (srf : SSurface.t) :
  ClassifyPoint t p eb srf = BspClass.INSIDE
  \/ ClassifyPoint t p eb srf = BspClass.OUTSIDE
  \/ (is_edge_class (ClassifyPoint t p eb srf) = true
      /\ exists a b : Point2d.t,
           In (a, b) (segments t) /\ on_segment p a b srf = true).
Proof.
  pose proof (ClassifyPoint_edge p eb srf t) as Hedge.
  destruct (ClassifyPoint t p eb srf); auto; right; right; auto.
Qed.

(** X8.  [MinimumDistanceToEdge] never looks at a [more] chain: the
    segments stored on the line of an existing node do not enter the
    minimum, which is that of the tree without them. *)
Theorem MinimumDistanceToEdge_ignores_more (t : SBspUv) (p : Point2d.t)
    (srf : SSurface.t) :
  MinimumDistanceToEdge (without_more t) p srf
  = MinimumDistanceToEdge t p srf.
Proof.
  revert t.
  fix IH 1.
  intros [a b pos neg more]. cbn [without_more MinimumDistanceToEdge].
  destruct pos as [n|], neg as [m|]; rewrite ?IH; reflexivity.
Qed.

(** X9.  A segment inserted on the line of the root is found again: after
    [InsertEdge] of a segment with both ends within [LENGTH_EPS] of that
    line, a point of the line that lies on the new segment is classified as
    a point of an edge. *)
Theorem InsertEdge_collinear_found (a b : Point2d.t)
    (pos neg more : option SBspUv) (ea eb p q : Point2d.t)
    (srf : SSurface.t) :
  (abs (ScaledSignedDistanceToLine ea a b srf) <? LENGTH_EPS)%float = true ->
  (abs (ScaledSignedDistanceToLine eb a b srf) <? LENGTH_EPS)%float = true ->
  (abs (ScaledSignedDistanceToLine p a b srf) <? LENGTH_EPS)%float = true ->
  on_segment p ea eb srf = true ->
  is_edge_class
    (ClassifyPoint (InsertEdge (Node a b pos neg more) ea eb srf) p q srf)
  = true.
Proof.
  intros Hea Heb Hp Hon. cbn [InsertEdge]. rewrite Hea, Heb. cbn [andb].
  cbn [ClassifyPoint]. rewrite Hp. cbn [classify_on_chain].
  unfold on_segment in Hon. rewrite Hon.
  repeat match goal with
         | |- context [if ?c then _ else _] => destruct c
         end; reflexivity.
Qed.

(** ** Further properties: the curve splitter *)

(** X10.  [MakeCopySplitAgainst] fails its assertion for the curve without
    points and for no other curve; the curve that it returns is the curve
    it was given but for the PWL, which has not become shorter. *)
Theorem MakeCopySplitAgainst_result (this : SCurve.t)
    (agnstA agnstB : option ShellPtr.t) (srfA srfB : option SurfPtr.t) :
  match MakeCopySplitAgainst this agnstA agnstB srfA srfB with
  | None => SCurve.pts this = []
  | Some ret =>
      SCurve.pts this <> []
      /\ ret = SCurve.with_pts (SCurve.pts ret) this
      /\ length (SCurve.pts this) <= length (SCurve.pts ret)
  end.
Proof.
  unfold MakeCopySplitAgainst.
  destruct (SCurve.pts this) as [|p rest] eqn:Hpts; [reflexivity|].
  split; [discriminate|]. split; [reflexivity|].
  cbn [SCurve.pts SCurve.with_pts]. rewrite split_loop_tail. cbn [app length].
  apply le_n_S. clear Hpts. revert p.
  induction rest as [|q rest IH]; intros p; cbn [split_tail length]; [lia|].
  rewrite length_app. cbn [length]. specialize (IH q). lia.
Qed.

Lemma emit_split_points_flagged (il : list SInter.t) :
  forall prev : Vector.t,
    Forall (fun q => SCurvePt.vertex q = true /\ SCurvePt.tag q = 0%Z)
      (emit_split_points prev il).
Proof.
  induction il as [|pi il IH]; intros prev; cbn [emit_split_points].
  - constructor.
  - apply Forall_app. split; [|apply IH].
    destruct (negb (Vector_Equals prev (SInter.p pi))); repeat constructor.
Qed.

Lemma split_segment_flagged (agnstA agnstB : option ShellPtr.t)
    (srfA srfB : option SurfPtr.t) (prev p : SCurvePt.t) :
  Forall (fun q => SCurvePt.vertex q = true /\ SCurvePt.tag q = 0%Z)
    (split_segment agnstA agnstB srfA srfB prev p).
Proof.
  unfold split_segment.
  match goal with
  | |- context [match ?il with [] => _ | _ :: _ => _ end] => destruct il
  end; [constructor | apply emit_split_points_flagged].
Qed.

(** X11.  The points that [MakeCopySplitAgainst] adds to the PWL are marked
    as vertices and carry a clear tag; every other point of the result is a
    point of the curve, with its mark and its tag as they were. *)
Theorem MakeCopySplitAgainst_vertices (this : SCurve.t)
    (agnstA agnstB : option ShellPtr.t) (srfA srfB : option SurfPtr.t)
    (ret : SCurve.t) (q : SCurvePt.t) :
  MakeCopySplitAgainst this agnstA agnstB srfA srfB = Some ret ->
  In q (SCurve.pts ret) ->
  In q (SCurve.pts this)
  \/ (SCurvePt.vertex q = true /\ SCurvePt.tag q = 0%Z).
Proof.
  unfold MakeCopySplitAgainst.
  destruct (SCurve.pts this) as [|p rest]; [discriminate|].
  intros Hret. inversion Hret; subst ret. clear Hret.
  cbn [SCurve.pts SCurve.with_pts]. rewrite split_loop_tail. cbn [app].
  intros [->|Hin]; [left; now left|].
  assert (Htail : In q rest
                  \/ (SCurvePt.vertex q = true /\ SCurvePt.tag q = 0%Z)).
  { revert p Hin. induction rest as [|r rest IH]; intros p Hin;
      cbn [split_tail] in Hin; [destruct Hin|].
    apply in_app_or in Hin. destruct Hin as [Hin|[->|Hin]].
    - right.
      pose proof (split_segment_flagged agnstA agnstB srfA srfB p r) as Hf.
      rewrite Forall_forall in Hf. exact (Hf q Hin).
    - left. now left.
    - destruct (IH r Hin) as [Hr|Hr]; [left; now right | now right]. }
  destruct Htail as [Hr|Hr]; [left; now right | now right].
Qed.

(** ** Further properties: the edge chains *)

Lemma RemoveTagged_ClearTags (el : list SEdge.t) :
  RemoveTagged (ClearTags el) = ClearTags el.
Proof.
  unfold RemoveTagged, ClearTags.
  induction el as [|e el IH]; [reflexivity|]. cbn [map filter].
  change (tag (with_tag 0%Z e) =? 0)%Z with true. cbv iota. now rewrite IH.
Qed.

Lemma chain_pass_conserves (avoid : list SPoint.t) (src : list SEdge.t) :
  forall (dest : list SEdge.t) (s f : Vector.t)
         (startOkay finishOkay added : bool),
    let r := chain_pass avoid src dest s f startOkay finishOkay added in
    Permutation (RemoveTagged (fst (fst r)) ++ snd (fst r))
      (RemoveTagged src ++ dest).
Proof.
  unfold RemoveTagged.
  induction src as [|se src IH]; intros dest s f startOkay finishOkay added;
    cbn [chain_pass].
  - cbn. apply Permutation_refl.
  - cbn [filter]. change (tag se) with (SEdge.tag se).
    destruct (SEdge.tag se =? 0)%Z eqn:Htag; cbn [negb].
    + destruct (startOkay && Vector_Equals s (SEdge.b se)).
      { specialize (IH (se :: dest) (SEdge.a se) f
                      (negb (ContainsPoint avoid (SEdge.a se))) finishOkay
                      true).
        destruct (chain_pass _ _ _ _ _ _ _ _) as [[r d] m].
        cbn [fst snd filter] in IH |- *.
        change (tag (with_tag 1%Z se) =? 0)%Z with false. cbv iota.
        eapply Permutation_trans; [exact IH|].
        apply Permutation_sym, Permutation_middle. }
      destruct (finishOkay && Vector_Equals f (SEdge.a se)).
      { specialize (IH (dest ++ [se]) s (SEdge.b se) startOkay
                      (negb (ContainsPoint avoid (SEdge.b se))) true).
        destruct (chain_pass _ _ _ _ _ _ _ _) as [[r d] m].
        cbn [fst snd filter] in IH |- *.
        change (tag (with_tag 1%Z se) =? 0)%Z with false. cbv iota.
        eapply Permutation_trans; [exact IH|].
        rewrite app_assoc. apply Permutation_sym.
        apply (Permutation_cons_append
                 (filter (fun e : SEdge.t => (tag e =? 0)%Z) src ++ dest) se). }
      specialize (IH dest s f startOkay finishOkay added).
      destruct (chain_pass _ _ _ _ _ _ _ _) as [[r d] m].
      cbn [fst snd filter] in IH |- *. change (tag se) with (SEdge.tag se).
      rewrite Htag. cbn [app]. now apply perm_skip.
    + specialize (IH dest s f startOkay finishOkay added).
      destruct (chain_pass _ _ _ _ _ _ _ _) as [[r d] m].
      cbn [fst snd filter] in IH |- *. change (tag se) with (SEdge.tag se).
      rewrite Htag. exact IH.
Qed.

Lemma chain_passes_conserves (avoid : list SPoint.t) (fuel : nat) :
  forall src dest src' dest' : list SEdge.t,
    chain_passes fuel avoid src dest = Some (src', dest') ->
    Permutation (RemoveTagged src' ++ dest') (RemoveTagged src ++ dest).
Proof.
  induction fuel as [|fuel IH]; intros src dest src' dest' Hrun;
    cbn [chain_passes] in Hrun; [discriminate|].
  destruct dest as [|first dest0]; [discriminate|].
  pose proof (chain_pass_conserves avoid src (first :: dest0) (SEdge.a first)
                (SEdge.b (last (first :: dest0) first))
                (negb (ContainsPoint avoid (SEdge.a first)))
                (negb (ContainsPoint avoid
                         (SEdge.b (last (first :: dest0) first))))
                false) as Hpass.
  cbv zeta in Hpass.
  destruct (chain_pass _ _ _ _ _ _ _ _) as [[src1 dest1] added].
  cbn [fst snd] in Hpass. destruct added.
  - eapply Permutation_trans; [exact (IH _ _ _ _ Hrun) | exact Hpass].
  - inversion Hrun; subst. exact Hpass.
Qed.

Lemma FindChainAvoiding_perm (first : SEdge.t) (rest dest : list SEdge.t)
    (avoid : list SPoint.t) (src' chain : list SEdge.t) :
  FindChainAvoiding (first :: rest) dest avoid = Some (src', chain) ->
  Permutation (src' ++ chain) (ClearTags rest ++ dest ++ [first]).
Proof.
  unfold FindChainAvoiding. cbn [ClearTags map].
  destruct (chain_passes _ _ _ _) as [[src1 chain1]|] eqn:Hrun;
    [|discriminate].
  intros Hret. inversion Hret; subst src' chain. clear Hret.
  apply chain_passes_conserves in Hrun.
  eapply Permutation_trans; [exact Hrun|].
  unfold RemoveTagged at 1. cbn [filter].
  change (tag (with_tag 1%Z (with_tag 0%Z first)) =? 0)%Z with false.
  cbv iota.
  change (filter (fun e : SEdge.t => (tag e =? 0)%Z)
            (map (with_tag 0%Z) rest))
    with (RemoveTagged (ClearTags rest)).
  rewrite RemoveTagged_ClearTags. apply Permutation_refl.
Qed.

(** X12.  [FindChainAvoiding] fails its assertion for the empty source list
    and for no other: its loop ends, with a source list that has become
    shorter and a chain that has become longer.  So the loops of
    [MakeCopyTrimAgainst] that call it until the list is empty come to an
    end. *)
Theorem FindChainAvoiding_returns (src dest : list SEdge.t)
    (avoid : list SPoint.t) :
  match FindChainAvoiding src dest avoid with
  | None => src = []
  | Some (src', chain) =>
      length src' < length src /\ length dest < length chain
  end.
Proof.
  destruct src as [|first rest]; [reflexivity|].
  destruct (@FindChainAvoiding_total (first :: rest) dest avoid)
    as (src' & chain & Hrun & Hlen & _); [discriminate|].
  rewrite Hrun. split; [exact Hlen|].
  apply FindChainAvoiding_perm in Hrun. apply Permutation_length in Hrun.
  unfold ClearTags in Hrun. rewrite !length_app, length_map in Hrun.
  cbn [length] in Hrun, Hlen. lia.
Qed.

(** X13.  [FindChainAvoiding] moves edges from the source list to the
    chain and neither loses nor repeats one: the edges that remain and the
    edges of the chain are together the edges of the source list after the
    first with their tags cleared, the edges that the chain held, and the
    first edge. *)
Theorem FindChainAvoiding_conserves (first : SEdge.t)
    (rest dest : list SEdge.t) (avoid : list SPoint.t)
    (src' chain : list SEdge.t) :
  FindChainAvoiding (first :: rest) dest avoid = Some (src', chain) ->
  Permutation (src' ++ chain) (ClearTags rest ++ dest ++ [first]).
Proof. apply FindChainAvoiding_perm. Qed.

Lemma last_default {T : Type} (l : list T) (d d' : T) :
  l <> [] -> last l d = last l d'.
Proof.
  induction l as [|e l IH]; [congruence|]. intros _.
  destruct l as [|e' l]; [reflexivity|].
  change (last (e' :: l) d = last (e' :: l) d'). apply IH. discriminate.
Qed.

Lemma chained_snoc (avoid : list SPoint.t) (l : list SEdge.t)
    (d se : SEdge.t) :
  l <> [] ->
  chained avoid (l ++ [se])
  = chained avoid l && joined avoid (last l d) se.
Proof.
  induction l as [|e l IH]; [congruence|]. intros _.
  destruct l as [|e' l].
  - cbn. now rewrite andb_true_r.
  - change (joined avoid e e' && chained avoid ((e' :: l) ++ [se])
            = joined avoid e e' && chained avoid (e' :: l)
              && joined avoid (last (e' :: l) d) se).
    rewrite IH by discriminate. now rewrite andb_assoc.
Qed.

Lemma chain_pass_chained (avoid : list SPoint.t) (src : list SEdge.t) :
  forall (dest : list SEdge.t) (s f : Vector.t)
         (startOkay finishOkay added : bool) (first : SEdge.t),
    hd_error dest = Some first ->
    s = SEdge.a first ->
    f = SEdge.b (last dest first) ->
    startOkay = negb (ContainsPoint avoid s) ->
    finishOkay = negb (ContainsPoint avoid f) ->
    chained avoid dest = true ->
    chained avoid
      (snd (fst (chain_pass avoid src dest s f startOkay finishOkay added)))
    = true.
Proof.
  induction src as [|se src IH];
    intros dest s f startOkay finishOkay added first Hhd Hs Hf Hso Hfo Hch;
    cbn [chain_pass].
  - exact Hch.
  - destruct (negb (SEdge.tag se =? 0)%Z).
    { specialize (IH dest s f startOkay finishOkay added first
                    Hhd Hs Hf Hso Hfo Hch).
      destruct (chain_pass _ _ _ _ _ _ _ _) as [[r d] m]. exact IH. }
    destruct dest as [|first' dest0]; [discriminate|].
    cbn [hd_error] in Hhd. inversion Hhd; subst first'. clear Hhd.
    destruct (startOkay && Vector_Equals s (SEdge.b se)) eqn:Hstart.
    { apply andb_true_iff in Hstart. destruct Hstart as [Hok Heq].
      specialize (IH (se :: first :: dest0) (SEdge.a se) f
                    (negb (ContainsPoint avoid (SEdge.a se))) finishOkay
                    true se eq_refl eq_refl).
      destruct (chain_pass _ _ _ _ _ _ _ _) as [[r d] m]. apply IH.
      - rewrite Hf.
        change (last (se :: first :: dest0) se)
          with (last (first :: dest0) se).
        f_equal. apply last_default. discriminate.
      - reflexivity.
      - exact Hfo.
      - change (joined avoid se first && chained avoid (first :: dest0)
                = true).
        rewrite Hch, andb_true_r. unfold joined.
        rewrite <- Hs, Heq, <- Hso, Hok. reflexivity. }
    destruct (finishOkay && Vector_Equals f (SEdge.a se)) eqn:Hfinish.
    { apply andb_true_iff in Hfinish. destruct Hfinish as [Hok Heq].
      specialize (IH ((first :: dest0) ++ [se]) s (SEdge.b se) startOkay
                    (negb (ContainsPoint avoid (SEdge.b se))) true first
                    eq_refl Hs).
      destruct (chain_pass _ _ _ _ _ _ _ _) as [[r d] m]. apply IH.
      - now rewrite last_last.
      - exact Hso.
      - reflexivity.
      - rewrite (chained_snoc avoid first se) by discriminate.
        rewrite Hch. cbn [andb]. unfold joined.
        rewrite <- Hf, Heq, <- Hfo, Hok. cbn [andb]. apply orb_true_r. }
    specialize (IH (first :: dest0) s f startOkay finishOkay added first
                  eq_refl Hs Hf Hso Hfo Hch).
    destruct (chain_pass _ _ _ _ _ _ _ _) as [[r d] m]. exact IH.
Qed.

Lemma chain_passes_chained (avoid : list SPoint.t) (fuel : nat) :
  forall src dest src' dest' : list SEdge.t,
    chained avoid dest = true ->
    chain_passes fuel avoid src dest = Some (src', dest') ->
    chained avoid dest' = true.
Proof.
  induction fuel as [|fuel IH]; intros src dest src' dest' Hch Hrun;
    cbn [chain_passes] in Hrun; [discriminate|].
  destruct dest as [|first dest0]; [discriminate|].
  pose proof (@chain_pass_chained avoid src (first :: dest0) _ _ _ _ false
                first eq_refl eq_refl eq_refl eq_refl eq_refl Hch) as Hpass.
  destruct (chain_pass _ _ _ _ _ _ _ _) as [[src1 dest1] added].
  cbn [fst snd] in Hpass. destruct added.
  - exact (IH _ _ _ _ Hpass Hrun).
  - inversion Hrun; subst. exact Hpass.
Qed.

(** X14.  The chain that [FindChainAvoiding] builds from an empty chain is
    a chain: each edge starts where the edge before it ends, and no point
    of the avoid list occurs where two of its edges join. *)
Theorem FindChainAvoiding_chained (src : list SEdge.t)
    (avoid : list SPoint.t) (src' chain : list SEdge.t) :
  FindChainAvoiding src [] avoid = Some (src', chain) ->
  chained avoid chain = true.
Proof.
  unfold FindChainAvoiding. destruct src as [|first rest]; [discriminate|].
  cbn [ClearTags map app].
  destruct (chain_passes _ _ _ _) as [[src1 chain1]|] eqn:Hrun;
    [|discriminate].
  intros Hret. inversion Hret; subst src' chain. clear Hret.
  eapply chain_passes_chained; [|exact Hrun]. reflexivity.
Qed.

(** ** Further properties: the trims from an edge list *)

Lemma ClearTags_idem (el : list SEdge.t) :
  ClearTags (ClearTags el) = ClearTags el.
Proof. unfold ClearTags. rewrite map_map. reflexivity. Qed.

Lemma untagged_zero (el : list SEdge.t) :
  untagged el = 0 -> Forall (fun se => SEdge.tag se <> 0%Z) el.
Proof.
  induction el as [|e el IH]; [constructor|]. rewrite untagged_cons.
  destruct (SEdge.tag e =? 0)%Z eqn:Htag; [discriminate|].
  intros Hz. constructor; [|exact (IH Hz)]. now apply Z.eqb_neq.
Qed.

Lemma take_untagged_In (el : list SEdge.t) :
  forall (se : SEdge.t) (el' : list SEdge.t),
    take_untagged el = Some (se, el') ->
    In se el /\ ClearTags el' = ClearTags el.
Proof.
  induction el as [|e el IH]; intros se el' Htake;
    cbn [take_untagged] in Htake; [discriminate|].
  destruct (negb (SEdge.tag e =? 0)%Z).
  - destruct (take_untagged el) as [[e1 r]|]; [|discriminate].
    inversion Htake; subst. destruct (IH se r eq_refl) as [Hin Hcl].
    split; [now right|]. unfold ClearTags in *. cbn [map]. now rewrite Hcl.
  - inversion Htake; subst. split; [now left | reflexivity].
Qed.

Lemma take_untagged_None (el : list SEdge.t) :
  take_untagged el = None -> untagged el = 0.
Proof.
  induction el as [|e el IH]; [reflexivity|]. cbn [take_untagged].
  rewrite untagged_cons. destruct (SEdge.tag e =? 0)%Z; cbn [negb];
    [discriminate|].
  destruct (take_untagged el) as [[e1 r]|]; [discriminate|]. intros _.
  now apply IH.
Qed.

Lemma merge_pass_frame (el : list SEdge.t) :
  forall (stb : STrimBy.t) (merged : bool),
    let r := merge_pass el stb merged in
    ClearTags (fst (fst r)) = ClearTags el
    /\ STrimBy.curve (snd (fst r)) = STrimBy.curve stb
    /\ STrimBy.backwards (snd (fst r)) = STrimBy.backwards stb.
Proof.
  induction el as [|se el IH]; intros stb merged; cbn [merge_pass].
  - cbn. auto.
  - assert (Hskip :
      let r := let '(r, s, m) := merge_pass el stb merged in (se :: r, s, m) in
      ClearTags (fst (fst r)) = ClearTags (se :: el)
      /\ STrimBy.curve (snd (fst r)) = STrimBy.curve stb
      /\ STrimBy.backwards (snd (fst r)) = STrimBy.backwards stb).
    { specialize (IH stb merged).
      destruct (merge_pass el stb merged) as [[r s] m].
      cbn [fst snd] in IH |- *. destruct IH as (Hcl & Hc & Hb).
      unfold ClearTags in *. cbn [map]. rewrite Hcl. auto. }
    cbv zeta in Hskip |- *.
    repeat match goal with
           | |- context [if ?c then _ else _] => destruct c; [exact Hskip|]
           end.
    destruct (Vector_Equals (SEdge.a se) (STrimBy.finish stb)).
    { match goal with
      | |- context [merge_pass el ?stb' true] =>
          specialize (IH stb' true);
          destruct (merge_pass el stb' true) as [[r s] m]
      end.
      cbn [fst snd] in IH |- *. destruct IH as (Hcl & Hc & Hb).
      unfold ClearTags in *. cbn [map]. rewrite Hcl. auto. }
    destruct (Vector_Equals (SEdge.b se) (STrimBy.start stb));
      [|exact Hskip].
    match goal with
    | |- context [merge_pass el ?stb' true] =>
        specialize (IH stb' true);
        destruct (merge_pass el stb' true) as [[r s] m]
    end.
    cbn [fst snd] in IH |- *. destruct IH as (Hcl & Hc & Hb).
    unfold ClearTags in *. cbn [map]. rewrite Hcl. auto.
Qed.

Lemma merge_passes_frame (fuel : nat) :
  forall (el : list SEdge.t) (stb : STrimBy.t)
         (el' : list SEdge.t) (stb' : STrimBy.t),
    merge_passes fuel el stb = Some (el', stb') ->
    ClearTags el' = ClearTags el
    /\ STrimBy.curve stb' = STrimBy.curve stb
    /\ STrimBy.backwards stb' = STrimBy.backwards stb.
Proof.
  induction fuel as [|fuel IH]; intros el stb el' stb' Hrun;
    cbn [merge_passes] in Hrun; [discriminate|].
  pose proof (merge_pass_frame el stb false) as Hpass. cbv zeta in Hpass.
  destruct (merge_pass el stb false) as [[el1 stb1] merged].
  cbn [fst snd] in Hpass. destruct Hpass as (Hcl & Hc & Hb).
  destruct merged.
  - destruct (IH _ _ _ _ Hrun) as (Hcl' & Hc' & Hb').
    repeat split; congruence.
  - inversion Hrun; subst. auto.
Qed.

Lemma trim_loop_spec (this : SSurface.t) (asUv : bool) (fuel : nat) :
  forall (el : list SEdge.t) (trim : list STrimBy.t),
    untagged el < fuel ->
    exists (el' : list SEdge.t) (news : list STrimBy.t),
      trim_loop fuel this asUv el trim = Some (el', trim ++ news)
      /\ length news <= untagged el
      /\ (untagged el = 0 <-> news = [])
      /\ ClearTags el' = ClearTags el
      /\ untagged el' = 0
      /\ Forall (trim_of_edge (ClearTags el)) news.
Proof.
  induction fuel as [|fuel IH]; intros el trim Hfuel; [lia|].
  cbn [trim_loop].
  destruct (take_untagged el) as [[se el1]|] eqn:Htake.
  - destruct (take_untagged_measure el Htake) as [Hlen Hun].
    destruct (take_untagged_In el Htake) as [Hin Hcl1].
    match goal with
    | |- context [merge_passes _ el1 ?stb] =>
        destruct (@merge_passes_total (S (length el1)) el1 stb)
          as (el2 & stb2 & Hrun & Hlen2 & Hle2);
        [pose proof (untagged_le_length el1); lia|];
        destruct (merge_passes_frame _ _ _ Hrun) as (Hcl2 & Hc2 & Hb2)
    end.
    rewrite Hrun.
    match goal with
    | |- context [trim_loop fuel this asUv el2 (trim ++ [?stb3])] =>
        destruct (IH el2 (trim ++ [stb3]))
          as (el' & news & Hloop & Hcount & Hnone & Hcl & Hz & Hof);
        [lia|];
        exists el', (stb3 :: news)
    end.
    rewrite Hloop, <- app_assoc. cbn [app].
    split; [reflexivity|]. split; [cbn [length]; lia|].
    split; [split; [lia | discriminate]|].
    split; [congruence|]. split; [exact Hz|].
    constructor.
    + exists (with_tag 0%Z se). split.
      * unfold ClearTags. apply in_map. exact Hin.
      * cbn [STrimBy.curve STrimBy.backwards] in Hc2, Hb2.
        destruct asUv; cbn [STrimBy.curve STrimBy.backwards];
          rewrite Hc2, Hb2; split; reflexivity.
    + rewrite Hcl2, Hcl1 in Hof. exact Hof.
  - apply take_untagged_None in Htake.
    exists el, []. rewrite app_nil_r.
    split; [reflexivity|]. split; [cbn [length]; lia|].
    split; [split; auto|]. split; [reflexivity|]. split; [exact Htake|].
    constructor.
Qed.

(** X15.  [TrimFromEdgeList] returns for every edge list.  It appends
    trims to the trims of the surface and changes nothing else of it; it
    makes no more trims than there are edges, and none for the empty list
    only; every trim takes its curve and its direction from an edge of the
    list; and on return every edge of the list is tagged as used. *)
Theorem TrimFromEdgeList_trims (this : SSurface.t) (el : list SEdge.t)
    (asUv : bool) :
  exists (news : list STrimBy.t) (el' : list SEdge.t),
    TrimFromEdgeList this el asUv
    = Some (SSurface.with_trim (SSurface.trim this ++ news) this, el')
    /\ length news <= length el
    /\ (news = [] <-> el = [])
    /\ ClearTags el' = ClearTags el
    /\ Forall (fun se => SEdge.tag se <> 0%Z) el'
    /\ Forall (trim_of_edge el) news.
Proof.
  unfold TrimFromEdgeList.
  destruct (@trim_loop_spec this asUv (S (length el)) (ClearTags el)
              (SSurface.trim this))
    as (el' & news & Hloop & Hcount & Hnone & Hcl & Hz & Hof).
  { rewrite untagged_ClearTags. lia. }
  rewrite Hloop. exists news, el'. rewrite untagged_ClearTags in *.
  rewrite ClearTags_idem in *.
  split; [reflexivity|]. split; [exact Hcount|].
  split; [rewrite <- Hnone; apply length_zero_iff_nil|].
  split; [exact Hcl|]. split; [now apply untagged_zero|].
  eapply Forall_impl; [|exact Hof].
  intros stb (se & Hin & Hc & Hb). unfold ClearTags in Hin.
  apply in_map_iff in Hin. destruct Hin as (se0 & <- & Hin0).
  exists se0. auto.
Qed.

(** ** Further properties: what the orchestrators add to the result *)

Lemma copy_curves_loop_shape (this : ShellPtr.t) (opA : bool)
    (agnst : ShellPtr.t) (todo : list SCurve.t) :
  forall (done : list SCurve.t) (into : SShell.t)
         (done' : list SCurve.t) (into' : SShell.t),
    copy_curves_loop this opA agnst todo done into = Some (done', into') ->
    exists news added : list SCurve.t,
      done' = done ++ news
      /\ into' = SShell.with_curve (SShell.curve into ++ added) into
      /\ Forall2 same_but_newH todo news
      /\ Forall2 (stands_for (if opA then Source.A else Source.B)) news added.
Proof.
  induction todo as [|sc todo IH]; intros done into done' into' Hrun;
    cbn [copy_curves_loop] in Hrun.
  - inversion Hrun; subst. exists [], []. rewrite !app_nil_r.
    split; [reflexivity|]. split; [now destruct into'|].
    split; constructor.
  - bind Hrun. bind Hrun. bind Hrun. unfold AddAndAssignId in Hrun.
    apply IH in Hrun. destruct Hrun as (news & added & Hd & Hi & Hn & Ha).
    unfold SShell.with_curve in Hi |- *.
    cbn [SShell.curve SShell.surface SShell.booleanFailed] in Hi.
    match type of Hd with
    | _ = (_ ++ [?c']) ++ _ => exists (c' :: news)
    end.
    match type of Hi with
    | _ = SShell.mk ((_ ++ [?n]) ++ _) _ _ => exists (n :: added)
    end.
    split; [now rewrite Hd, <- app_assoc|].
    split; [rewrite Hi, <- app_assoc; reflexivity|].
    split; constructor; auto; try reflexivity.
    split; [reflexivity|]. cbn. reflexivity.
Qed.

Lemma CopyCurvesSplitAgainst_shape (this : ShellPtr.t) (opA : bool)
    (agnst : ShellPtr.t) (into this' into' : SShell.t) :
  CopyCurvesSplitAgainst this opA agnst into = Some (this', into') ->
  exists added : list SCurve.t,
    this' = SShell.with_curve (SShell.curve this') (ShellPtr.target this)
    /\ into' = SShell.with_curve (SShell.curve into ++ added) into
    /\ Forall2 same_but_newH (SShell.curve (ShellPtr.target this))
         (SShell.curve this')
    /\ Forall2 (stands_for (if opA then Source.A else Source.B))
         (SShell.curve this') added.
Proof.
  unfold CopyCurvesSplitAgainst. intros Hrun. bind Hrun.
  destruct p as [curves into1]. inversion Hrun; subst. clear Hrun.
  apply copy_curves_loop_shape in Hbind.
  destruct Hbind as (news & added & Hd & Hi & Hn & Ha). cbn [app] in Hd.
  subst curves. exists added. cbn [SShell.curve SShell.with_curve]. auto.
Qed.

Lemma add_curves_shape (l : list SCurve.t) :
  forall into : SShell.t,
    exists added : list SCurve.t,
      add_curves into l
      = SShell.with_curve (SShell.curve into ++ added) into
      /\ length added = length l.
Proof.
  unfold add_curves.
  induction l as [|sc l IH]; intros into; cbn [fold_left].
  - exists []. rewrite app_nil_r. split; [now destruct into | reflexivity].
  - unfold AddAndAssignId at 2. cbn [fst].
    match goal with
    | |- context [fold_left _ l ?into1] =>
        destruct (IH into1) as (added & Hi & Hlen)
    end.
    unfold SShell.with_curve in Hi |- *.
    cbn [SShell.curve SShell.surface SShell.booleanFailed] in Hi.
    match type of Hi with
    | _ = SShell.mk ((_ ++ [?n]) ++ _) _ _ => exists (n :: added)
    end.
    split; [rewrite Hi, <- app_assoc; reflexivity | cbn [length]; lia].
Qed.

Lemma MakeIntersectionCurvesAgainst_shape (this agnst into : SShell.t) :
  exists added : list SCurve.t,
    MakeIntersectionCurvesAgainst this agnst into
    = SShell.with_curve (SShell.curve into ++ added) into
    /\ (SShell.surface this = [] \/ SShell.surface agnst = [] ->
        added = []).
Proof.
  unfold MakeIntersectionCurvesAgainst.
  generalize (SShell.surface this) as sas. intros sas. revert into.
  induction sas as [|sa sas IHa]; intros into; cbn [fold_left].
  - exists []. rewrite app_nil_r. split; [now destruct into | reflexivity].
  - set (inner := fold_left _ (SShell.surface agnst) into).
    assert (Hinner : exists added : list SCurve.t,
               inner = SShell.with_curve (SShell.curve into ++ added) into
               /\ (SShell.surface agnst = [] -> added = [])).
    { subst inner. generalize (SShell.surface agnst) as sbs. intros sbs.
      revert into. induction sbs as [|sb sbs IHb]; intros into;
        cbn [fold_left].
      - exists []. rewrite app_nil_r.
        split; [now destruct into | reflexivity].
      - destruct (add_curves_shape (IntersectAgainst sa sb this agnst into)
                    into) as (added1 & H1 & _).
        destruct (IHb (add_curves into
                         (IntersectAgainst sa sb this agnst into)))
          as (added2 & H2 & _).
        exists (added1 ++ added2). split; [|discriminate].
        rewrite H2, H1. cbn. now rewrite <- app_assoc. }
    destruct Hinner as (added1 & H1 & Hnone).
    destruct (IHa inner) as (added2 & H2 & Hnone2).
    exists (added1 ++ added2). split.
    + rewrite H2, H1. cbn. now rewrite <- app_assoc.
    + intros [Hs|Hs]; [discriminate|].
      rewrite (Hnone Hs). cbn [app]. apply Hnone2. now right.
Qed.

Lemma short_segments_loop_shape (a b : SShell.t) (todo : list SCurve.t) :
  forall done done' : list SCurve.t,
    short_segments_loop a b todo done = Some done' ->
    exists news : list SCurve.t,
      done' = done ++ news /\ Forall2 same_mark todo news.
Proof.
  induction todo as [|sc todo IH]; intros done done' Hrun;
    cbn [short_segments_loop] in Hrun.
  - inversion Hrun; subst. exists []. rewrite app_nil_r.
    split; [reflexivity | constructor].
  - bind Hrun. bind Hrun. apply IH in Hrun. destruct Hrun as (news & Hd & Hn).
    match type of Hd with
    | _ = (_ ++ [?c']) ++ _ => exists (c' :: news)
    end.
    split; [now rewrite Hd, <- app_assoc|].
    constructor; [split; reflexivity | exact Hn].
Qed.

Lemma rewrite_handles_loop_shape (a b : SShell.t) (todo : list SCurve.t) :
  forall done done' : list SCurve.t,
    rewrite_handles_loop a b todo done = Some done' ->
    exists news : list SCurve.t,
      done' = done ++ news
      /\ Forall2
           (fun c c' =>
              exists sa sb : SSurface.t,
                GetSurfaceA c a b = Some sa
                /\ GetSurfaceB c a b = Some sb
                /\ c' = SCurve.with_surfs (SSurface.newH sa)
                          (SSurface.newH sb) c)
           todo news.
Proof.
  induction todo as [|sc todo IH]; intros done done' Hrun;
    cbn [rewrite_handles_loop] in Hrun.
  - inversion Hrun; subst. exists []. rewrite app_nil_r.
    split; [reflexivity | constructor].
  - bind Hrun. bind Hrun. apply IH in Hrun. destruct Hrun as (news & Hd & Hn).
    match type of Hd with
    | _ = (_ ++ [?c']) ++ _ => exists (c' :: news)
    end.
    split; [now rewrite Hd, <- app_assoc|].
    constructor; [|exact Hn]. eauto.
Qed.

Lemma TrimFromEdgeList_frame (this : SSurface.t) (el : list SEdge.t)
    (asUv : bool) (ret : SSurface.t) (el' : list SEdge.t) :
  TrimFromEdgeList this el asUv = Some (ret, el') ->
  ret = SSurface.with_trim (SSurface.trim ret) this.
Proof.
  unfold TrimFromEdgeList.
  destruct (trim_loop _ _ _ _ _) as [[el1 trim]|]; [|discriminate].
  intros Hret. inversion Hret; subst. reflexivity.
Qed.

Lemma MakeCopyTrimAgainst_result (this : SSurface.t)
    (parent sha shb : ShellPtr.t) (into : SShell.t) (type : CombineAs)
    (ret : SSurface.t) (into' : SShell.t) :
  MakeCopyTrimAgainst this parent sha shb into type = Some (ret, into') ->
  (into' = into \/ into' = SShell.with_booleanFailed true into)
  /\ ((forall el : list SEdge.t, AssemblePolygon el = true) -> into' = into)
  /\ (match type with
      | DIFFERENCE => ShellId_eqb (ShellPtr.id parent) (ShellPtr.id sha)
      | _ => true
      end = true ->
      ret = SSurface.with_trim (SSurface.trim ret) this).
Proof.
  unfold MakeCopyTrimAgainst. intros Hrun. cbv zeta in Hrun.
  bind Hrun. bind Hrun. bind Hrun.
  destruct (TrimFromEdgeList _ _ _) as [[ret1 final]|] eqn:Htrim;
    [|discriminate].
  inversion Hrun; subst ret into'. clear Hrun.
  apply TrimFromEdgeList_frame in Htrim.
  split; [|split].
  - destruct (negb (AssemblePolygon (ClearTags final))); auto.
  - intros Hpoly. rewrite Hpoly. reflexivity.
  - intros Hflip. rewrite Htrim.
    destruct type; cbn [negb] in *; try rewrite Hflip; reflexivity.
Qed.

Lemma copy_surfaces_loop_shape (this sha shb : ShellPtr.t)
    (type : CombineAs) (todo : list SSurface.t) :
  forall (done : list SSurface.t) (into : SShell.t)
         (done' : list SSurface.t) (into' : SShell.t),
    copy_surfaces_loop this sha shb todo done into type
    = Some (done', into') ->
    exists news added : list SSurface.t,
      done' = done ++ news
      /\ SShell.curve into' = SShell.curve into
      /\ SShell.surface into' = SShell.surface into ++ added
      /\ Forall2 same_but_newH_s todo news
      /\ Forall2 stands_for_s news added
      /\ ((forall el : list SEdge.t, AssemblePolygon el = true) ->
          SShell.booleanFailed into' = SShell.booleanFailed into).
Proof.
  induction todo as [|ss todo IH]; intros done into done' into' Hrun;
    cbn [copy_surfaces_loop] in Hrun.
  - inversion Hrun; subst. exists [], []. rewrite !app_nil_r.
    repeat split; auto; constructor.
  - destruct (MakeCopyTrimAgainst _ _ _ _ _ _) as [[ssn into1]|] eqn:Htrim;
      [|discriminate].
    pose proof (MakeCopyTrimAgainst_frame _ _ _ _ _ _ Htrim) as [Hc1 Hs1].
    apply MakeCopyTrimAgainst_result in Htrim.
    destruct Htrim as (_ & Hflag & _).
    unfold AddAndAssignId in Hrun. apply IH in Hrun.
    cbn [SShell.surface SShell.curve SShell.booleanFailed
         SShell.with_surface] in Hrun.
    destruct Hrun as (news & added & Hd & Hc & Hs & Hn & Ha & Hf).
    match type of Hd with
    | _ = (_ ++ [?s']) ++ _ => exists (s' :: news)
    end.
    match type of Hs with
    | _ = (_ ++ [?n]) ++ _ => exists (n :: added)
    end.
    split; [now rewrite Hd, <- app_assoc|].
    split; [congruence|].
    split; [rewrite Hs, Hs1, <- app_assoc; reflexivity|].
    split; [constructor; [reflexivity | exact Hn]|].
    split; [constructor; [reflexivity | exact Ha]|].
    intros Hpoly. rewrite (Hf Hpoly), (Hflag Hpoly). reflexivity.
Qed.

Lemma CopySurfacesTrimAgainst_shape (this sha shb : ShellPtr.t)
    (type : CombineAs) (into this' into' : SShell.t) :
  CopySurfacesTrimAgainst this sha shb into type = Some (this', into') ->
  exists added : list SSurface.t,
    SShell.curve into' = SShell.curve into
    /\ SShell.surface into' = SShell.surface into ++ added
    /\ Forall2 stands_for_s (SShell.surface this') added
    /\ ((forall el : list SEdge.t, AssemblePolygon el = true) ->
        SShell.booleanFailed into' = SShell.booleanFailed into).
Proof.
  unfold CopySurfacesTrimAgainst. intros Hrun. bind Hrun.
  destruct p as [surfaces into1]. inversion Hrun; subst. clear Hrun.
  apply copy_surfaces_loop_shape in Hbind.
  destruct Hbind as (news & added & Hd & Hc & Hs & Hn & Ha & Hf).
  cbn [app] in Hd. subst surfaces. exists added.
  cbn [SShell.surface SShell.with_surface]. auto.
Qed.

Lemma assemble_curves_shape (src : Source.t) (todo : list SCurve.t) :
  forall (done : list SCurve.t) (this : SShell.t)
         (done' : list SCurve.t) (this' : SShell.t),
    assemble_curves src todo done this = (done', this') ->
    exists news added : list SCurve.t,
      done' = done ++ news
      /\ this' = SShell.with_curve (SShell.curve this ++ added) this
      /\ Forall2 same_but_newH todo news
      /\ Forall2 (stands_for src) news added.
Proof.
  induction todo as [|c todo IH]; intros done this done' this' Hrun;
    cbn [assemble_curves] in Hrun.
  - inversion Hrun; subst. exists [], []. rewrite !app_nil_r.
    split; [reflexivity|]. split; [now destruct this'|].
    split; constructor.
  - unfold AddAndAssignId in Hrun. apply IH in Hrun.
    destruct Hrun as (news & added & Hd & Hi & Hn & Ha).
    unfold SShell.with_curve in Hi |- *.
    cbn [SShell.curve SShell.surface SShell.booleanFailed] in Hi.
    match type of Hd with
    | _ = (_ ++ [?c']) ++ _ => exists (c' :: news)
    end.
    match type of Hi with
    | _ = SShell.mk ((_ ++ [?n]) ++ _) _ _ => exists (n :: added)
    end.
    split; [now rewrite Hd, <- app_assoc|].
    split; [rewrite Hi, <- app_assoc; reflexivity|].
    split; constructor; auto; try reflexivity.
    split; reflexivity.
Qed.

Lemma rewrite_trims_names (curves : list SCurve.t) (trim : list STrimBy.t) :
  forall ret_trim ret_trim' : list STrimBy.t,
    rewrite_trims curves trim ret_trim = Some ret_trim' ->
    exists news : list STrimBy.t,
      ret_trim' = ret_trim ++ news
      /\ length news = length trim
      /\ Forall
           (fun stn =>
              exists c : SCurve.t,
                In c curves /\ SCurve.newH c = STrimBy.curve stn)
           news.
Proof.
  induction trim as [|stb trim IH]; intros ret_trim ret_trim' Hrun;
    cbn [rewrite_trims] in Hrun.
  - inversion Hrun; subst. exists []. rewrite app_nil_r.
    repeat split. constructor.
  - bind Hrun. apply FindById_In in Hbind. destruct Hbind as [Hin _].
    apply IH in Hrun. destruct Hrun as (news & Hr & Hlen & Hall).
    match type of Hr with
    | _ = (_ ++ [?stn]) ++ _ => exists (stn :: news)
    end.
    split; [now rewrite Hr, <- app_assoc|].
    split; [cbn [length]; lia|].
    constructor; [|exact Hall]. exists t. split; [exact Hin | reflexivity].
Qed.

Lemma assemble_surfaces_shape (ab_curves : list SCurve.t)
    (todo : list SSurface.t) :
  forall (done : list SSurface.t) (this : SShell.t)
         (done' : list SSurface.t) (this' : SShell.t),
    assemble_surfaces ab_curves todo done this = Some (done', this') ->
    exists news added : list SSurface.t,
      done' = done ++ news
      /\ this' = SShell.with_surface (SShell.surface this ++ added) this
      /\ Forall2 same_but_newH_s todo news
      /\ Forall2 stands_for_s news added
      /\ Forall
           (fun n =>
              Forall
                (fun stb =>
                   exists c : SCurve.t,
                     In c ab_curves /\ SCurve.newH c = STrimBy.curve stb)
                (SSurface.trim n))
           added.
Proof.
  induction todo as [|s todo IH]; intros done this done' this' Hrun;
    cbn [assemble_surfaces] in Hrun.
  - inversion Hrun; subst. exists [], []. rewrite !app_nil_r.
    split; [reflexivity|]. split; [now destruct this'|].
    repeat split; constructor.
  - bind Hrun. apply rewrite_trims_names in Hbind.
    destruct Hbind as (trims & Hl & _ & Htrims). cbn [app] in Hl. subst l.
    unfold AddAndAssignId in Hrun. apply IH in Hrun.
    destruct Hrun as (news & added & Hd & Hi & Hn & Ha & Hall).
    unfold SShell.with_surface in Hi |- *.
    cbn [SShell.curve SShell.surface SShell.booleanFailed] in Hi.
    match type of Hd with
    | _ = (_ ++ [?s']) ++ _ => exists (s' :: news)
    end.
    match type of Hi with
    | _ = SShell.mk _ ((_ ++ [?n]) ++ _) _ => exists (n :: added)
    end.
    split; [now rewrite Hd, <- app_assoc|].
    split; [rewrite Hi, <- app_assoc; reflexivity|].
    split; [constructor; [reflexivity | exact Hn]|].
    split; [constructor; [reflexivity | exact Ha]|].
    constructor; [exact Htrims | exact Hall].
Qed.

Lemma RewriteSurfaceHandlesForCurves_shape (this a b this' : SShell.t) :
  RewriteSurfaceHandlesForCurves this a b = Some this' ->
  this' = SShell.with_curve (SShell.curve this') this
  /\ Forall2
       (fun c c' =>
          exists sa sb : SSurface.t,
            GetSurfaceA c a b = Some sa
            /\ GetSurfaceB c a b = Some sb
            /\ c' = SCurve.with_surfs (SSurface.newH sa) (SSurface.newH sb) c)
       (SShell.curve this) (SShell.curve this').
Proof.
  unfold RewriteSurfaceHandlesForCurves. intros Hrun. bind Hrun.
  inversion Hrun; subst. clear Hrun.
  apply rewrite_handles_loop_shape in Hbind.
  destruct Hbind as (news & Hd & Hn). cbn [app] in Hd. subst l.
  split; [reflexivity | exact Hn].
Qed.

Lemma rewritten_same_mark (a b : SShell.t) (l l' : list SCurve.t) :
  Forall2
    (fun c c' =>
       exists sa sb : SSurface.t,
         GetSurfaceA c a b = Some sa
         /\ GetSurfaceB c a b = Some sb
         /\ c' = SCurve.with_surfs (SSurface.newH sa) (SSurface.newH sb) c)
    l l' ->
  Forall2 same_mark l l'.
Proof.
  apply Forall2_impl. intros c c' (sa & sb & _ & _ & ->). split; reflexivity.
Qed.

Lemma same_mark_trans (x y z : SCurve.t) :
  same_mark x y -> same_mark y z -> same_mark x z.
Proof. intros [H1 H2] [H3 H4]. split; congruence. Qed.

Lemma stands_for_s_map (l l' added : list SSurface.t) :
  map SSurface.newH l' = map SSurface.newH l ->
  Forall2 stands_for_s l added -> Forall2 stands_for_s l' added.
Proof.
  intros Hmap Hall. revert l' Hmap.
  induction Hall as [|s n l added Hs Hall IH]; intros l' Hmap.
  - destruct l'; [constructor | discriminate].
  - destruct l' as [|s' l']; [discriminate|]. cbn [map] in Hmap.
    inversion Hmap. constructor; [|now apply IH].
    unfold stands_for_s in *. congruence.
Qed.

Lemma MakeFromAssemblyOf_shape (this a b r a' b' : SShell.t) :
  MakeFromAssemblyOf this a b = Some (r, a', b') ->
  exists (ca cb : list SCurve.t) (sa sb : list SSurface.t),
    run_shape this r a' b' ca cb [] sa sb
    /\ Forall
         (fun n =>
            Forall
              (fun stb =>
                 exists c : SCurve.t,
                   In c (SShell.curve a' ++ SShell.curve b')
                   /\ SCurve.newH c = STrimBy.curve stb)
              (SSurface.trim n))
         (sa ++ sb).
Proof.
  unfold MakeFromAssemblyOf. intros Hrun. cbv zeta in Hrun.
  set (this0 := SShell.with_booleanFailed false this) in *.
  destruct (assemble_curves Source.A (SShell.curve a) [] this0)
    as [ca this1] eqn:H1.
  destruct (assemble_curves Source.B (SShell.curve b) [] this1)
    as [cb this2] eqn:H2.
  cbn [SShell.curve SShell.surface SShell.with_curve] in Hrun.
  destruct (assemble_surfaces ca (SShell.surface a) [] this2)
    as [[sa this3]|] eqn:H3; [|discriminate].
  destruct (assemble_surfaces cb (SShell.surface b) [] this3)
    as [[sb this4]|] eqn:H4; [|discriminate].
  bind Hrun. rename t into this5. rename Hbind into H5.
  inversion Hrun; subst r a' b'. clear Hrun.
  apply assemble_curves_shape in H1.
  destruct H1 as (news1 & added1 & Hd1 & Hi1 & _ & Ha1).
  apply assemble_curves_shape in H2.
  destruct H2 as (news2 & added2 & Hd2 & Hi2 & _ & Ha2).
  apply assemble_surfaces_shape in H3.
  destruct H3 as (news3 & added3 & Hd3 & Hi3 & _ & Ha3 & Ht3).
  apply assemble_surfaces_shape in H4.
  destruct H4 as (news4 & added4 & Hd4 & Hi4 & _ & Ha4 & Ht4).
  apply RewriteSurfaceHandlesForCurves_shape in H5.
  destruct H5 as (Hi5 & Hn5). apply rewritten_same_mark in Hn5.
  cbn [app] in Hd1, Hd2, Hd3, Hd4. subst ca cb sa sb.
  subst this4 this3 this2 this1.
  cbn [SShell.curve SShell.surface SShell.with_curve SShell.with_surface]
    in *.
  exists added1, added2, added3, added4. split.
  - constructor;
      cbn [SShell.curve SShell.surface SShell.with_curve
           SShell.with_surface]; auto.
    + rewrite app_nil_r, app_assoc. exact Hn5.
    + rewrite Hi5. cbn [SShell.surface SShell.with_curve].
      now rewrite <- app_assoc.
  - apply Forall_app. split.
    + eapply Forall_impl; [|exact Ht3]. intros n Hn.
      eapply Forall_impl; [|exact Hn]. intros stb (c & Hin & Hc).
      exists c. split; [apply in_or_app; now left | exact Hc].
    + eapply Forall_impl; [|exact Ht4]. intros n Hn.
      eapply Forall_impl; [|exact Hn]. intros stb (c & Hin & Hc).
      exists c. split; [apply in_or_app; now right | exact Hc].
Qed.

Lemma MakeFromBoolean_shape (this a b : SShell.t) (type : CombineAs)
    (r a' b' : SShell.t) :
  MakeFromBoolean this a b type = Some (r, a', b') ->
  exists (ca cb ci : list SCurve.t) (sa sb : list SSurface.t),
    run_shape this r a' b' ca cb ci sa sb
    /\ (SShell.surface a = [] \/ SShell.surface b = [] -> ci = [])
    /\ ((forall el : list SEdge.t, AssemblePolygon el = true) ->
        SShell.booleanFailed r = false).
Proof.
  unfold MakeFromBoolean. intros Hrun. cbv zeta in Hrun.
  set (this0 := SShell.with_booleanFailed false this) in *.
  pose proof (MakeClassifyingBsps_spec a None) as Ha1.
  pose proof (MakeClassifyingBsps_spec b None) as Hb1.
  cbv zeta in Ha1, Hb1.
  set (a1 := MakeClassifyingBsps a None) in *.
  set (b1 := MakeClassifyingBsps b None) in *.
  destruct (CopyCurvesSplitAgainst (ShellPtr.mk OperandA a1) true
              (ShellPtr.mk OperandB b1) this0)
    as [[a2 this1]|] eqn:H1; [|discriminate].
  destruct (CopyCurvesSplitAgainst (ShellPtr.mk OperandB b1) false
              (ShellPtr.mk OperandA a2) this1)
    as [[b2 this2]|] eqn:H2; [|discriminate].
  destruct (MakeIntersectionCurvesAgainst_shape a2 b2 this2)
    as (added3 & H3 & Hnone3).
  set (this3 := MakeIntersectionCurvesAgainst a2 b2 this2) in *.
  destruct (short_segments_loop a2 b2 (SShell.curve this3) [])
    as [curves|] eqn:H4; [|discriminate].
  set (this4 := SShell.with_curve curves this3) in *.
  pose proof (CleanupAfterBoolean_spec a2) as Ha3.
  pose proof (CleanupAfterBoolean_spec b2) as Hb3.
  cbv zeta in Ha3, Hb3.
  set (a3 := CleanupAfterBoolean a2) in *.
  set (b3 := CleanupAfterBoolean b2) in *.
  pose proof (MakeClassifyingBsps_spec a3 (Some this4)) as Ha4.
  pose proof (MakeClassifyingBsps_spec b3 (Some this4)) as Hb4.
  cbv zeta in Ha4, Hb4.
  set (a4 := MakeClassifyingBsps a3 (Some this4)) in *.
  set (b4 := MakeClassifyingBsps b3 (Some this4)) in *.
  destruct (CopySurfacesTrimAgainst (ShellPtr.mk OperandA a4)
              (ShellPtr.mk OperandA a4) (ShellPtr.mk OperandB b4) this4 type)
    as [[a5 this5]|] eqn:H5; [|discriminate].
  destruct (CopySurfacesTrimAgainst (ShellPtr.mk OperandB b4)
              (ShellPtr.mk OperandA a5) (ShellPtr.mk OperandB b4) this5 type)
    as [[b5 this6]|] eqn:H6; [|discriminate].
  destruct (RewriteSurfaceHandlesForCurves this6 a5 b5)
    as [this7|] eqn:H7; [|discriminate].
  pose proof (CleanupAfterBoolean_spec a5) as Ha6.
  pose proof (CleanupAfterBoolean_spec b5) as Hb6.
  cbv zeta in Ha6, Hb6.
  inversion Hrun; subst r a' b'. clear Hrun.
  destruct Ha1 as ((_ & _ & Hsa1) & _). destruct Hb1 as ((_ & _ & Hsb1) & _).
  pose proof (CopyCurvesSplitAgainst_spec _ _ _ _ H1) as (_ & Hsa2 & _).
  pose proof (CopyCurvesSplitAgainst_spec _ _ _ _ H2) as (_ & Hsb2 & _).
  cbn [ShellPtr.target] in Hsa2, Hsb2.
  apply CopyCurvesSplitAgainst_shape in H1. cbn [ShellPtr.target] in H1.
  destruct H1 as (added1 & _ & Hi1 & _ & Hst1).
  apply CopyCurvesSplitAgainst_shape in H2. cbn [ShellPtr.target] in H2.
  destruct H2 as (added2 & _ & Hi2 & _ & Hst2).
  apply short_segments_loop_shape in H4.
  destruct H4 as (news4 & Hd4 & Hn4). cbn [app] in Hd4. subst curves.
  destruct Ha3 as (_ & Hca3 & _). destruct Hb3 as (_ & Hcb3 & _).
  destruct Ha4 as (_ & Hca4 & _). destruct Hb4 as (_ & Hcb4 & _).
  pose proof (CopySurfacesTrimAgainst_spec _ _ _ _ _ H5) as (_ & Hca5 & _).
  pose proof (CopySurfacesTrimAgainst_spec _ _ _ _ _ H6) as (_ & Hcb5 & _).
  cbn [ShellPtr.target] in Hca5, Hcb5.
  apply CopySurfacesTrimAgainst_shape in H5.
  destruct H5 as (added5 & Hc5 & Hs5 & Hst5 & Hf5).
  apply CopySurfacesTrimAgainst_shape in H6.
  destruct H6 as (added6 & Hc6 & Hs6 & Hst6 & Hf6).
  pose proof (RewriteSurfaceHandlesForCurves_spec _ _ _ H7)
    as (Hs7 & Hf7 & _).
  apply RewriteSurfaceHandlesForCurves_shape in H7.
  destruct H7 as (_ & Hn7). apply rewritten_same_mark in Hn7.
  destruct Ha6 as (_ & Hca6 & Hna6 & _).
  destruct Hb6 as (_ & Hcb6 & Hnb6 & _).
  assert (Hcur3 : SShell.curve this3
                  = SShell.curve this ++ added1 ++ added2 ++ added3).
  { rewrite H3, Hi2, Hi1. subst this0.
    cbn [SShell.curve SShell.with_curve SShell.with_booleanFailed].
    now rewrite <- !app_assoc. }
  assert (Hsur4 : SShell.surface this4 = SShell.surface this).
  { subst this4. cbn [SShell.surface SShell.with_curve].
    rewrite H3, Hi2, Hi1. reflexivity. }
  assert (Hfl4 : SShell.booleanFailed this4 = false).
  { subst this4. cbn [SShell.booleanFailed SShell.with_curve].
    rewrite H3, Hi2, Hi1. reflexivity. }
  exists added1, added2, added3, added5, added6. split; [constructor|split].
  - rewrite <- Hcur3.
    eapply Forall2_trans; [apply same_mark_trans | exact Hn4 |].
    rewrite Hc6, Hc5 in Hn7. exact Hn7.
  - rewrite Hs7, Hs6, Hs5, Hsur4. now rewrite <- app_assoc.
  - rewrite Hca6, Hca5, Hca4, Hca3. exact Hst1.
  - rewrite Hcb6, Hcb5, Hcb4, Hcb3. exact Hst2.
  - eapply stands_for_s_map; [exact Hna6 | exact Hst5].
  - eapply stands_for_s_map; [exact Hnb6 | exact Hst6].
  - intros Hnone. apply Hnone3. rewrite Hsa2, Hsb2.
    destruct Hnone as [Hn|Hn]; [left | right].
    + rewrite Hn in Hsa1. now inversion Hsa1.
    + rewrite Hn in Hsb1. now inversion Hsb1.
  - intros Hpoly. rewrite Hf7, (Hf6 Hpoly), (Hf5 Hpoly). exact Hfl4.
Qed.

Lemma Forall2_In_l {X Y : Type} (R : X -> Y -> Prop) (l : list X)
    (l' : list Y) (x : X) :
  Forall2 R l l' -> In x l -> exists y : Y, In y l' /\ R x y.
Proof.
  induction 1 as [|x0 y0 l l' Hxy Hall IH]; intros Hin; [destruct Hin|].
  destruct Hin as [->|Hin].
  - exists y0. split; [now left | exact Hxy].
  - destruct (IH Hin) as (y & Hy & Hr). exists y. split; [now right | exact Hr].
Qed.

Lemma find_hd_filter {X : Type} (f : X -> bool) (l : list X) :
  find f l = hd_error (filter f l).
Proof.
  induction l as [|x l IH]; [reflexivity|]. cbn.
  destruct (f x); [reflexivity | exact IH].
Qed.

Lemma FindById_of_unique {T : Type} `{Identified T} (l : list T) (v : N)
    (n : T) :
  count_handle v l = 1 -> In n l -> handle n = v -> FindById l v = Some n.
Proof.
  unfold count_handle, FindById. intros Hcount Hin Hv.
  rewrite find_hd_filter.
  assert (Hf : In n (filter (fun e => N.eqb (handle e) v) l)).
  { apply filter_In. split; [exact Hin | now apply N.eqb_eq]. }
  destruct (filter (fun e => N.eqb (handle e) v) l) as [|x [|y l']];
    try discriminate.
  destruct Hf as [->|[]]. reflexivity.
Qed.

(** A curve that stands for an operand curve is found in the result under
    the handle that the operand curve notes, with its mark of origin. *)
Lemma stands_for_found (src : Source.t) (this r : SShell.t)
    (before ca after : list SCurve.t) (cs : list SCurve.t) (c : SCurve.t) :
  Forall2 same_mark (before ++ ca ++ after) (SShell.curve r) ->
  Forall2 (stands_for src) cs ca ->
  allocated (length (SShell.curve this)) (SCurve.newH c) (SShell.curve r) ->
  In c cs ->
  exists n : SCurve.t,
    FindById (SShell.curve r) (SCurve.newH c) = Some n
    /\ SCurve.source n = src.
Proof.
  intros Hr Hst Halloc Hin.
  destruct (@Forall2_In_l _ _ _ _ _ c Hst Hin) as (n0 & Hn0 & Hnote & Hsrc).
  assert (Hin0 : In n0 (before ++ ca ++ after)).
  { apply in_or_app. right. apply in_or_app. now left. }
  destruct (@Forall2_In_l _ _ _ _ _ n0 Hr Hin0) as (n & Hn & Hh & Hs).
  exists n. split; [|congruence].
  apply FindById_of_unique; [|exact Hn|].
  - now apply (allocated_count (n0 := length (SShell.curve this))).
  - change (SCurve.h n = SCurve.newH c). congruence.
Qed.

(** X16.  A completed [MakeFromAssemblyOf] adds one curve to the result
    for every curve of the two operands and one surface for every surface,
    and nothing else; the surfaces that the result held stay as they
    were. *)
Theorem MakeFromAssemblyOf_counts (this a b r a' b' : SShell.t) :
  MakeFromAssemblyOf this a b = Some (r, a', b') ->
  length (SShell.curve r)
  = length (SShell.curve this) + length (SShell.curve a)
    + length (SShell.curve b)
  /\ length (SShell.surface r)
     = length (SShell.surface this) + length (SShell.surface a)
       + length (SShell.surface b)
  /\ firstn (length (SShell.surface this)) (SShell.surface r)
     = SShell.surface this.
Proof.
  intros Hrun.
  pose proof (MakeFromAssemblyOf_facts _ _ _ Hrun) as Hfacts.
  destruct (MakeFromAssemblyOf_shape _ _ _ Hrun)
    as (ca & cb & sa & sb & Hshape & _).
  destruct (rf_a Hfacts) as (_ & Hca & Hsa).
  destruct (rf_b Hfacts) as (_ & Hcb & Hsb).
  apply Forall2_length in Hca, Hsa, Hcb, Hsb.
  pose proof (Forall2_length (rs_curves Hshape)) as Hlen.
  pose proof (Forall2_length (rs_a Hshape)) as Hla.
  pose proof (Forall2_length (rs_b Hshape)) as Hlb.
  pose proof (Forall2_length (rs_sa Hshape)) as Hlsa.
  pose proof (Forall2_length (rs_sb Hshape)) as Hlsb.
  rewrite !length_app in Hlen. cbn [length] in Hlen.
  rewrite (rs_surfaces Hshape), !length_app.
  split; [lia|]. split; [lia|].
  rewrite firstn_app, Nat.sub_diag, firstn_all. cbn [firstn].
  apply app_nil_r.
Qed.

(** X17.  A completed [MakeFromBoolean] adds one surface to the result
    for every surface of the two operands, also for a surface of which
    nothing is kept, and leaves the surfaces that the result held; it adds
    one curve for every curve of the operands and the intersection curves
    beyond them, none if an operand has no surface. *)
Theorem MakeFromBoolean_counts (this a b : SShell.t) (type : CombineAs)
    (r a' b' : SShell.t) :
  MakeFromBoolean this a b type = Some (r, a', b') ->
  length (SShell.surface r)
  = length (SShell.surface this) + length (SShell.surface a)
    + length (SShell.surface b)
  /\ firstn (length (SShell.surface this)) (SShell.surface r)
     = SShell.surface this
  /\ length (SShell.curve this) + length (SShell.curve a)
     + length (SShell.curve b) <= length (SShell.curve r)
  /\ (SShell.surface a = [] \/ SShell.surface b = [] ->
      length (SShell.curve r)
      = length (SShell.curve this) + length (SShell.curve a)
        + length (SShell.curve b)).
Proof.
  intros Hrun.
  pose proof (MakeFromBoolean_facts _ _ _ _ Hrun) as [Hfacts _].
  destruct (MakeFromBoolean_shape _ _ _ _ Hrun)
    as (ca & cb & ci & sa & sb & Hshape & Hnone & _).
  destruct (rf_a Hfacts) as (_ & Hca & Hsa).
  destruct (rf_b Hfacts) as (_ & Hcb & Hsb).
  apply Forall2_length in Hca, Hsa, Hcb, Hsb.
  pose proof (Forall2_length (rs_curves Hshape)) as Hlen.
  pose proof (Forall2_length (rs_a Hshape)) as Hla.
  pose proof (Forall2_length (rs_b Hshape)) as Hlb.
  pose proof (Forall2_length (rs_sa Hshape)) as Hlsa.
  pose proof (Forall2_length (rs_sb Hshape)) as Hlsb.
  rewrite !length_app in Hlen.
  rewrite (rs_surfaces Hshape), !length_app.
  split; [lia|]. split; [|split; [lia|]].
  - rewrite firstn_app, Nat.sub_diag, firstn_all. cbn [firstn].
    apply app_nil_r.
  - intros Hs. rewrite (Hnone Hs) in Hlen. cbn [length] in Hlen. lia.
Qed.

Lemma run_keeps_source (this a b r a' b' : SShell.t)
    (ca cb ci : list SCurve.t) (sa sb : list SSurface.t) (k : bool) :
  run_facts k this a b r a' b' ->
  run_shape this r a' b' ca cb ci sa sb ->
  (forall c : SCurve.t,
     In c (SShell.curve a') ->
     exists n : SCurve.t,
       FindById (SShell.curve r) (SCurve.newH c) = Some n
       /\ SCurve.source n = Source.A)
  /\ (forall c : SCurve.t,
        In c (SShell.curve b') ->
        exists n : SCurve.t,
          FindById (SShell.curve r) (SCurve.newH c) = Some n
          /\ SCurve.source n = Source.B).
Proof.
  intros Hfacts Hshape.
  pose proof (rf_curves Hfacts) as Hall. rewrite Forall_forall in Hall.
  split; intros c Hin.
  - apply (@stands_for_found Source.A this r (SShell.curve this) ca
             (cb ++ ci) (SShell.curve a') c);
      [exact (rs_curves Hshape) | exact (rs_a Hshape) | | exact Hin].
    apply Hall. apply in_or_app. now left.
  - apply (@stands_for_found Source.B this r (SShell.curve this ++ ca) cb
             ci (SShell.curve b') c);
      [|exact (rs_b Hshape) | | exact Hin].
    + rewrite <- app_assoc. exact (rs_curves Hshape).
    + apply Hall. apply in_or_app. now right.
Qed.

Lemma run_keeps_source_operands (this a b r a' b' : SShell.t)
    (ca cb ci : list SCurve.t) (sa sb : list SSurface.t) (k : bool) :
  run_facts k this a b r a' b' ->
  run_shape this r a' b' ca cb ci sa sb ->
  Forall2 (curve_kept_from Source.A (SShell.curve r))
    (SShell.curve a) (SShell.curve a')
  /\ Forall2 (curve_kept_from Source.B (SShell.curve r))
       (SShell.curve b) (SShell.curve b').
Proof.
  intros Hfacts Hshape.
  destruct (run_keeps_source Hfacts Hshape) as [HA HB].
  destruct (rf_a Hfacts) as (_ & Hca & _).
  destruct (rf_b Hfacts) as (_ & Hcb & _).
  split; apply Forall2_and_r; assumption.
Qed.

(** X18.  After a completed [MakeFromBoolean] or [MakeFromAssemblyOf] on
    the operands [a] and [b], every curve of operand A is still in its
    operand, in its place and changed in [newH] at most, and the curve that
    the result holds under its [newH] is marked as coming from A; the same
    for every curve of operand B and the mark B. *)
Theorem new_handles_keep_source (this a b : SShell.t) (type : CombineAs)
    (r a' b' : SShell.t) :
  MakeFromBoolean this a b type = Some (r, a', b')
  \/ MakeFromAssemblyOf this a b = Some (r, a', b') ->
  Forall2 (curve_kept_from Source.A (SShell.curve r))
    (SShell.curve a) (SShell.curve a')
  /\ Forall2 (curve_kept_from Source.B (SShell.curve r))
       (SShell.curve b) (SShell.curve b').
Proof.
  intros [Hrun|Hrun].
  - pose proof (MakeFromBoolean_facts _ _ _ _ Hrun) as [Hfacts _].
    destruct (MakeFromBoolean_shape _ _ _ _ Hrun)
      as (ca & cb & ci & sa & sb & Hshape & _).
    exact (run_keeps_source_operands Hfacts Hshape).
  - pose proof (MakeFromAssemblyOf_facts _ _ _ Hrun) as Hfacts.
    destruct (MakeFromAssemblyOf_shape _ _ _ Hrun)
      as (ca & cb & sa & sb & Hshape & _).
    exact (run_keeps_source_operands Hfacts Hshape).
Qed.

(** X19.  After a completed [MakeFromAssemblyOf], every trim of every
    surface that the run added names the handle of a curve of the
    result. *)
Theorem MakeFromAssemblyOf_trims (this a b r a' b' : SShell.t) :
  MakeFromAssemblyOf this a b = Some (r, a', b') ->
  Forall (trims_resolve (SShell.curve r))
    (skipn (length (SShell.surface this)) (SShell.surface r)).
Proof.
  intros Hrun.
  pose proof (MakeFromAssemblyOf_facts _ _ _ Hrun) as Hfacts.
  destruct (MakeFromAssemblyOf_shape _ _ _ Hrun)
    as (ca & cb & sa & sb & Hshape & Htrims).
  rewrite (rs_surfaces Hshape), skipn_app, Nat.sub_diag, skipn_all.
  cbn [skipn app].
  pose proof (rf_curves Hfacts) as Hall. rewrite Forall_forall in Hall.
  eapply Forall_impl; [|exact Htrims]. intros n Hn.
  unfold trims_resolve. eapply Forall_impl; [|exact Hn].
  intros stb (c & Hin & Hc).
  destruct (allocated_In (Hall c Hin)) as (x & Hx & Hh).
  exists x. split; [exact Hx|].
  change (SCurve.h x = SCurve.newH c) in Hh. congruence.
Qed.






(** X21.  [MakeCopyTrimAgainst] returns the surface it was given with
    other trims, as the comment in the source says, or, for the second
    operand of a difference, that surface reversed after the renaming of
    its trims; of the shell [into] it changes the failure flag at most,
    which it may set and never clears. *)
Theorem MakeCopyTrimAgainst_changes_trims (this : SSurface.t)
    (parent sha shb : ShellPtr.t) (into : SShell.t) (type : CombineAs)
    (ret : SSurface.t) (into' : SShell.t) :
  MakeCopyTrimAgainst this parent sha shb into type = Some (ret, into') ->
  (into' = into \/ into' = SShell.with_booleanFailed true into)
  /\ exists trims : list STrimBy.t,
       rewrite_trims (SShell.curve (ShellPtr.target parent))
         (SSurface.trim this) [] = Some trims
       /\ ret
          = SSurface.with_trim (SSurface.trim ret)
              (if match type with
                  | DIFFERENCE =>
                      negb (ShellId_eqb (ShellPtr.id parent) (ShellPtr.id sha))
                  | _ => false
                  end
               then Reverse (SSurface.with_trim trims this)
               else this).
Proof.
  intros Hrun.
  split; [exact (proj1 (MakeCopyTrimAgainst_result _ _ _ _ _ _ Hrun))|].
  unfold MakeCopyTrimAgainst in Hrun. cbv zeta in Hrun.
  bind Hrun. exists l. split; [reflexivity|].
  bind Hrun. bind Hrun.
  destruct (TrimFromEdgeList _ _ _) as [[ret1 final]|] eqn:Htrim;
    [|discriminate].
  inversion Hrun; subst ret into'. clear Hrun.
  apply TrimFromEdgeList_frame in Htrim. rewrite Htrim.
  destruct type; try reflexivity.
  destruct (negb (ShellId_eqb (ShellPtr.id parent) (ShellPtr.id sha)));
    reflexivity.
Qed.

Lemma rewrite_handles_loop_None (a b : SShell.t) (todo : list SCurve.t) :
  forall done : list SCurve.t,
    rewrite_handles_loop a b todo done = None ->
    Exists
      (fun c => GetSurfaceA c a b = None \/ GetSurfaceB c a b = None) todo.
Proof.
  induction todo as [|sc todo IH]; intros done Hrun;
    cbn [rewrite_handles_loop] in Hrun; [discriminate|].
  destruct (GetSurfaceA sc a b) eqn:HA; [|left; now left].
  destruct (GetSurfaceB sc a b) eqn:HB; [|left; now right].
  right. exact (IH _ Hrun).
Qed.

(** X22.  [RewriteSurfaceHandlesForCurves] fails only at a curve one of
    whose two surfaces is not found in the operand that its source names;
    otherwise it gives every curve of the shell the [newH] of those two
    surfaces as [surfA] and [surfB], and changes nothing else. *)
Theorem RewriteSurfaceHandlesForCurves_result (this a b : SShell.t) :
  match RewriteSurfaceHandlesForCurves this a b with
  | None =>
      Exists
        (fun c => GetSurfaceA c a b = None \/ GetSurfaceB c a b = None)
        (SShell.curve this)
  | Some this' =>
      this' = SShell.with_curve (SShell.curve this') this
      /\ Forall2
           (fun c c' =>
              exists sa sb : SSurface.t,
                GetSurfaceA c a b = Some sa
                /\ GetSurfaceB c a b = Some sb
                /\ c' = SCurve.with_surfs (SSurface.newH sa)
                          (SSurface.newH sb) c)
           (SShell.curve this) (SShell.curve this')
  end.
Proof.
  destruct (RewriteSurfaceHandlesForCurves this a b) as [this'|] eqn:Hrun.
  - now apply RewriteSurfaceHandlesForCurves_shape.
  - unfold RewriteSurfaceHandlesForCurves in Hrun.
    destruct (rewrite_handles_loop a b (SShell.curve this) []) eqn:Hloop;
      [discriminate|].
    exact (rewrite_handles_loop_None _ _ _ _ Hloop).
Qed.

Lemma IndexById_found {T : Type} `{Identified T} (l : list T) (v : N)
    (e : T) :
  FindById l v = Some e -> exists i : nat, IndexById l v = Some i.
Proof.
  unfold FindById. induction l as [|x l IH]; cbn [find IndexById];
    [discriminate|].
  destruct (N.eqb (handle x) v); [eauto|].
  intros Hf. destruct (IH Hf) as [i Hi]. rewrite Hi. eauto.
Qed.

Lemma SurfaceById_None (sh : ShellPtr.t) (v : hSSurface) :
  SurfaceById sh v = None ->
  FindById (SShell.surface (ShellPtr.target sh)) v = None.
Proof.
  unfold SurfaceById.
  destruct (FindById (SShell.surface (ShellPtr.target sh)) v) as [s|] eqn:Hf;
    [|reflexivity].
  destruct (IndexById_found _ _ Hf) as [i Hi]. rewrite Hi. discriminate.
Qed.

Lemma copy_curves_loop_None (this : ShellPtr.t) (opA : bool)
    (agnst : ShellPtr.t) (todo : list SCurve.t) :
  forall (done : list SCurve.t) (into : SShell.t),
    copy_curves_loop this opA agnst todo done into = None ->
    Exists
      (fun sc =>
         SCurve.pts sc = []
         \/ FindById (SShell.surface (ShellPtr.target this)) (SCurve.surfA sc)
            = None
         \/ FindById (SShell.surface (ShellPtr.target this)) (SCurve.surfB sc)
            = None)
      todo.
Proof.
  induction todo as [|sc todo IH]; intros done into Hrun;
    cbn [copy_curves_loop] in Hrun; [discriminate|].
  destruct (SurfaceById this (SCurve.surfA sc)) as [srfA|] eqn:HA;
    [|left; right; left; now apply SurfaceById_None].
  destruct (SurfaceById this (SCurve.surfB sc)) as [srfB|] eqn:HB;
    [|left; right; right; now apply SurfaceById_None].
  destruct (MakeCopySplitAgainst sc (Some agnst) None (Some srfA) (Some srfB))
    as [scn|] eqn:Hsplit.
  - right. unfold AddAndAssignId in Hrun. exact (IH _ _ Hrun).
  - left. left. unfold MakeCopySplitAgainst in Hsplit.
    destruct (SCurve.pts sc); [reflexivity | discriminate].
Qed.

(** X23.  [CopyCurvesSplitAgainst] fails only at a curve without points or
    with a surface that is not a surface of its own shell.  Otherwise it
    appends to [into] one curve for every curve of the shell, in their
    order and marked with the operand, notes the handle of each in the
    [newH] of the curve it stands for, and changes nothing else of the two
    shells. *)
Theorem CopyCurvesSplitAgainst_result (this : ShellPtr.t) (opA : bool)
    (agnst : ShellPtr.t) (into : SShell.t) :
  match CopyCurvesSplitAgainst this opA agnst into with
  | None =>
      Exists
        (fun sc =>
           SCurve.pts sc = []
           \/ FindById (SShell.surface (ShellPtr.target this))
                (SCurve.surfA sc) = None
           \/ FindById (SShell.surface (ShellPtr.target this))
                (SCurve.surfB sc) = None)
        (SShell.curve (ShellPtr.target this))
  | Some (this', into') =>
      exists added : list SCurve.t,
        this' = SShell.with_curve (SShell.curve this') (ShellPtr.target this)
        /\ into' = SShell.with_curve (SShell.curve into ++ added) into
        /\ Forall2 same_but_newH (SShell.curve (ShellPtr.target this))
             (SShell.curve this')
        /\ Forall2 (stands_for (if opA then Source.A else Source.B))
             (SShell.curve this') added
  end.
Proof.
  destruct (CopyCurvesSplitAgainst this opA agnst into) as [[this' into']|]
    eqn:Hrun.
  - exact (CopyCurvesSplitAgainst_shape _ _ _ _ Hrun).
  - unfold CopyCurvesSplitAgainst in Hrun.
    destruct (copy_curves_loop _ _ _ _ _ _) as [[curves into1]|] eqn:Hloop;
      [discriminate|].
    exact (copy_curves_loop_None _ _ _ _ _ _ Hloop).
Qed.

(** X24.  [MakeClassifyingBsps] writes the BSP and the edge list of every
    surface and nothing else: the curves and the flag of the shell stay,
    and the surfaces keep their order, their handles, their [newH], their
    geometry and their trims. *)
Theorem MakeClassifyingBsps_keeps (this : SShell.t)
    (useCurvesFrom : option SShell.t) :
  SShell.curve (MakeClassifyingBsps this useCurvesFrom) = SShell.curve this
  /\ SShell.booleanFailed (MakeClassifyingBsps this useCurvesFrom)
     = SShell.booleanFailed this
  /\ Forall2
       (fun s s' =>
          SSurface.h s' = SSurface.h s
          /\ SSurface.newH s' = SSurface.newH s
          /\ SSurface.geom s' = SSurface.geom s
          /\ SSurface.trim s' = SSurface.trim s)
       (SShell.surface this)
       (SShell.surface (MakeClassifyingBsps this useCurvesFrom)).
Proof.
  split; [reflexivity|]. split; [reflexivity|].
  unfold MakeClassifyingBsps. cbn [SShell.surface SShell.with_surface].
  destruct (classifying_bsps_loop_spec this useCurvesFrom
              (SShell.surface this) []) as (news & Hloop & Hall).
  rewrite Hloop. cbn [app]. eapply Forall2_impl; [|exact Hall].
  intros s s' [(Hh & Hg & Ht) Hn]. auto.
Qed.

(** ** Further properties: when the assembly completes *)

Lemma Forall_equiv {X : Type} (Q Q' : X -> Prop) :
  (forall x : X, Q x <-> Q' x) ->
  forall l : list X, Forall Q l <-> Forall Q' l.
Proof.
  intros Hq l. split; apply Forall_impl; intros x; apply Hq.
Qed.

Lemma FindById_None_iff {T : Type} `{Identified T} (l : list T) (v : N) :
  FindById l v = None <-> ~ In v (map handle l).
Proof.
  unfold FindById. induction l as [|x l IH]; cbn [find map In].
  - tauto.
  - destruct (N.eqb_spec (handle x) v) as [Heq|Hne].
    + split; [discriminate | intros Hn; exfalso; apply Hn; now left].
    + rewrite IH. tauto.
Qed.

Lemma FindById_same_handles {T : Type} `{Identified T} (l l' : list T)
    (v : N) :
  map handle l' = map handle l ->
  (FindById l' v <> None <-> FindById l v <> None).
Proof. intros Hmap. rewrite !FindById_None_iff, Hmap. tauto. Qed.

Lemma same_but_newH_handles (l l' : list SCurve.t) :
  Forall2 same_but_newH l l' -> map handle l' = map handle l.
Proof.
  induction 1 as [|c c' l l' Hc Hall IH]; [reflexivity|]. cbn [map].
  rewrite IH. f_equal. rewrite Hc. reflexivity.
Qed.

Lemma same_but_newH_s_handles (l l' : list SSurface.t) :
  Forall2 same_but_newH_s l l' -> map handle l' = map handle l.
Proof.
  induction 1 as [|s s' l l' Hs Hall IH]; [reflexivity|]. cbn [map].
  rewrite IH. f_equal. rewrite Hs. reflexivity.
Qed.

Lemma surfaces_found_same_handles (a b a' b' : SShell.t) (c : SCurve.t) :
  map handle (SShell.surface a') = map handle (SShell.surface a) ->
  map handle (SShell.surface b') = map handle (SShell.surface b) ->
  (surfaces_found a' b' c <-> surfaces_found a b c).
Proof.
  intros Ha Hb. unfold surfaces_found, GetSurfaceA, GetSurfaceB.
  destruct (SCurve.source c);
    rewrite ?(FindById_same_handles _ _ _ Ha),
            ?(FindById_same_handles _ _ _ Hb); tauto.
Qed.

Lemma rewrite_trims_Some_iff (curves : list SCurve.t)
    (trim : list STrimBy.t) :
  forall ret_trim : list STrimBy.t,
    rewrite_trims curves trim ret_trim <> None
    <-> Forall (fun stb => FindById curves (STrimBy.curve stb) <> None) trim.
Proof.
  induction trim as [|stb trim IH]; intros ret_trim; cbn [rewrite_trims].
  - split; [constructor | discriminate].
  - destruct (FindById curves (STrimBy.curve stb)) as [sc|] eqn:Hf.
    + rewrite IH. split.
      * intros Hall. constructor; [now rewrite Hf | exact Hall].
      * intros Hall. now inversion Hall.
    + split; [congruence|]. intros Hall. inversion Hall. congruence.
Qed.

Lemma assemble_surfaces_Some_iff (ab_curves : list SCurve.t)
    (todo : list SSurface.t) :
  forall (done : list SSurface.t) (this : SShell.t),
    assemble_surfaces ab_curves todo done this <> None
    <-> Forall (trims_found ab_curves) todo.
Proof.
  induction todo as [|s todo IH]; intros done this;
    cbn [assemble_surfaces].
  - split; [constructor | discriminate].
  - pose proof (rewrite_trims_Some_iff ab_curves
                  (SSurface.trim (SSurface_FromTransformationOf s)) [])
      as Htrims.
    destruct (rewrite_trims ab_curves
                (SSurface.trim (SSurface_FromTransformationOf s)) [])
      as [trims|].
    + unfold AddAndAssignId. rewrite IH. split.
      * intros Hall. constructor; [|exact Hall]. apply Htrims. discriminate.
      * intros Hall. now inversion Hall.
    + split; [congruence|]. intros Hall. inversion Hall as [|? ? Hs _].
      apply Htrims in Hs. congruence.
Qed.

Lemma rewrite_handles_loop_Some_iff (a b : SShell.t)
    (todo : list SCurve.t) :
  forall done : list SCurve.t,
    rewrite_handles_loop a b todo done <> None
    <-> Forall (surfaces_found a b) todo.
Proof.
  unfold surfaces_found.
  induction todo as [|sc todo IH]; intros done; cbn [rewrite_handles_loop].
  - split; [constructor | discriminate].
  - destruct (GetSurfaceA sc a b) as [sa|] eqn:HA.
    + destruct (GetSurfaceB sc a b) as [sb|] eqn:HB.
      * rewrite IH. split.
        -- intros Hall. constructor; [|exact Hall].
           rewrite HA, HB. split; discriminate.
        -- intros Hall. now inversion Hall.
      * split; [congruence|]. intros Hall. inversion Hall as [|? ? [_ Hs] _].
        congruence.
    + split; [congruence|]. intros Hall. inversion Hall as [|? ? [Hs _] _].
      congruence.
Qed.

Lemma assemble_curves_added (src : Source.t) (todo : list SCurve.t) :
  forall (done : list SCurve.t) (this : SShell.t)
         (done' : list SCurve.t) (this' : SShell.t),
    assemble_curves src todo done this = (done', this') ->
    exists added : list SCurve.t,
      SShell.curve this' = SShell.curve this ++ added
      /\ SShell.surface this' = SShell.surface this
      /\ Forall2
           (fun c n =>
              n = SCurve.with_h (SCurve.h n)
                    (SCurve.with_source src (SCurve_FromTransformationOf c)))
           todo added.
Proof.
  induction todo as [|c todo IH]; intros done this done' this' Hrun;
    cbn [assemble_curves] in Hrun.
  - inversion Hrun; subst. exists []. rewrite app_nil_r.
    repeat split. constructor.
  - unfold AddAndAssignId in Hrun. apply IH in Hrun.
    destruct Hrun as (added & Hc & Hs & Hall).
    cbn [SShell.curve SShell.surface SShell.with_curve] in Hc, Hs.
    match type of Hc with
    | _ = (_ ++ [?n]) ++ _ => exists (n :: added)
    end.
    split; [now rewrite Hc, <- app_assoc|]. split; [exact Hs|].
    constructor; [reflexivity | exact Hall].
Qed.

Lemma added_surfaces_found (src : Source.t) (a b : SShell.t)
    (todo added : list SCurve.t) :
  Forall2
    (fun c n =>
       n = SCurve.with_h (SCurve.h n)
             (SCurve.with_source src (SCurve_FromTransformationOf c)))
    todo added ->
  (Forall (surfaces_found a b) added
   <-> Forall
         (fun c =>
            surfaces_found a b
              (SCurve.with_source src (SCurve_FromTransformationOf c)))
         todo).
Proof.
  induction 1 as [|c n todo added Hn Hall IH].
  - split; constructor.
  - assert (Hsame : surfaces_found a b n
                    <-> surfaces_found a b
                          (SCurve.with_source src
                             (SCurve_FromTransformationOf c))).
    { rewrite Hn. unfold surfaces_found, GetSurfaceA, GetSurfaceB.
      cbn [SCurve.source SCurve.surfA SCurve.surfB SCurve.with_h
           SCurve.with_source]. tauto. }
    split; intros Hf; inversion Hf; subst; constructor; tauto.
Qed.

(** X25.  [MakeFromAssemblyOf] completes exactly when its look-ups
    succeed: every trim of every copied surface names a curve of the shell
    of the surface, the two surfaces of every copied curve are surfaces of
    the shell of the curve, and the surfaces of the curves that the result
    held are found in the operand that their source names. *)
Theorem MakeFromAssemblyOf_completes (this a b : SShell.t) :
  MakeFromAssemblyOf this a b <> None <-> assemblable this a b.
Proof.
  unfold MakeFromAssemblyOf, assemblable. cbv zeta.
  set (this0 := SShell.with_booleanFailed false this).
  destruct (assemble_curves Source.A (SShell.curve a) [] this0)
    as [ca this1] eqn:H1.
  destruct (assemble_curves Source.B (SShell.curve b) [] this1)
    as [cb this2] eqn:H2.
  cbn [SShell.curve SShell.surface SShell.with_curve].
  pose proof (assemble_curves_shape _ _ _ _ H1)
    as (news1 & _ & Hd1 & _ & Hn1 & _).
  pose proof (assemble_curves_shape _ _ _ _ H2)
    as (news2 & _ & Hd2 & _ & Hn2 & _).
  cbn [app] in Hd1, Hd2. subst ca cb.
  apply assemble_curves_added in H1. destruct H1 as (added1 & Hc1 & Hs1 & Ha1).
  apply assemble_curves_added in H2. destruct H2 as (added2 & Hc2 & Hs2 & Ha2).
  apply same_but_newH_handles in Hn1, Hn2.
  assert (Hta : Forall (trims_found news1) (SShell.surface a)
                <-> Forall (trims_found (SShell.curve a)) (SShell.surface a)).
  { apply Forall_equiv. intros s. unfold trims_found. apply Forall_equiv.
    intros stb. apply FindById_same_handles. exact Hn1. }
  assert (Htb : Forall (trims_found news2) (SShell.surface b)
                <-> Forall (trims_found (SShell.curve b)) (SShell.surface b)).
  { apply Forall_equiv. intros s. unfold trims_found. apply Forall_equiv.
    intros stb. apply FindById_same_handles. exact Hn2. }
  pose proof (assemble_surfaces_Some_iff news1 (SShell.surface a) [] this2)
    as H3iff.
  destruct (assemble_surfaces news1 (SShell.surface a) [] this2)
    as [[sa this3]|] eqn:H3.
  2:{ split; [congruence|]. intros (Hfa & _). apply Hta, H3iff in Hfa.
      congruence. }
  pose proof (assemble_surfaces_Some_iff news2 (SShell.surface b) [] this3)
    as H4iff.
  destruct (assemble_surfaces news2 (SShell.surface b) [] this3)
    as [[sb this4]|] eqn:H4.
  2:{ split; [congruence|]. intros (_ & Hfb & _). apply Htb, H4iff in Hfb.
      congruence. }
  apply assemble_surfaces_shape in H3.
  destruct H3 as (news3 & added3 & Hd3 & Hi3 & Hn3 & _).
  apply assemble_surfaces_shape in H4.
  destruct H4 as (news4 & added4 & Hd4 & Hi4 & Hn4 & _).
  cbn [app] in Hd3, Hd4. subst sa sb.
  apply same_but_newH_s_handles in Hn3, Hn4.
  set (a' := SShell.with_surface news3 (SShell.with_curve news1 a)).
  set (b' := SShell.with_surface news4 (SShell.with_curve news2 b)).
  assert (Hcur4 : SShell.curve this4
                  = SShell.curve this ++ added1 ++ added2).
  { rewrite Hi4, Hi3. cbn [SShell.curve SShell.with_surface].
    rewrite Hc2, Hc1. subst this0.
    cbn [SShell.curve SShell.with_booleanFailed]. now rewrite <- app_assoc. }
  assert (Hfound : forall c,
             surfaces_found a' b' c <-> surfaces_found a b c).
  { intros c. apply surfaces_found_same_handles; assumption. }
  unfold RewriteSurfaceHandlesForCurves.
  pose proof (rewrite_handles_loop_Some_iff a' b' (SShell.curve this4) [])
    as H5iff.
  rewrite Hcur4, !Forall_app in H5iff.
  rewrite (Forall_equiv _ _ Hfound (SShell.curve this)) in H5iff.
  rewrite (Forall_equiv _ _ Hfound added1) in H5iff.
  rewrite (Forall_equiv _ _ Hfound added2) in H5iff.
  rewrite (added_surfaces_found a b Ha1) in H5iff.
  rewrite (added_surfaces_found a b Ha2) in H5iff.
  rewrite <- Hcur4 in H5iff.
  assert (Hfa : Forall (trims_found (SShell.curve a)) (SShell.surface a)).
  { apply Hta, H3iff. discriminate. }
  assert (Hfb : Forall (trims_found (SShell.curve b)) (SShell.surface b)).
  { apply Htb, H4iff. discriminate. }
  destruct (rewrite_handles_loop a' b' (SShell.curve this4) []) as [curves|].
  - split; [intros _|discriminate].
    destruct (proj1 H5iff) as (H5 & H6 & H7); [discriminate|]. auto.
  - split; [congruence|]. intros (_ & _ & H6 & H7 & H5).
    destruct (proj2 H5iff); auto.
Qed.

(** ** Further properties: the edges that are kept *)

Lemma chain_edges_from_source (first : SEdge.t) (rest : list SEdge.t)
    (avoid : list SPoint.t) (src' chain : list SEdge.t) (e : SEdge.t) :
  FindChainAvoiding (first :: rest) [] avoid = Some (src', chain) ->
  In e (src' ++ chain) ->
  exists e0 : SEdge.t,
    In e0 (first :: rest) /\ with_tag 0%Z e = with_tag 0%Z e0.
Proof.
  intros Hrun Hin. apply FindChainAvoiding_perm in Hrun.
  apply (Permutation_in _ Hrun) in Hin. cbn [app] in Hin.
  apply in_app_or in Hin. destruct Hin as [Hin|[<-|[]]].
  - unfold ClearTags in Hin. apply in_map_iff in Hin.
    destruct Hin as (e0 & <- & Hin0). exists e0. split; [now right|].
    reflexivity.
  - exists first. split; [now left | reflexivity].
Qed.

Lemma added_edges (chain final : list SEdge.t) :
  fold_left
    (fun fl se =>
       AddEdge fl (SEdge.a se) (SEdge.b se) (SEdge.auxA se) (SEdge.auxB se))
    chain final
  = final ++ map (with_tag 0%Z) chain.
Proof.
  revert final. induction chain as [|se chain IH]; intros final;
    cbn [fold_left map].
  - now rewrite app_nil_r.
  - rewrite IH. unfold AddEdge. rewrite <- app_assoc. reflexivity.
Qed.

(** X26.  The loops of [MakeCopyTrimAgainst] that consume an edge list
    chain by chain invent no edge: every edge that they add to the list
    [final] is an edge of the list they consume, with a clear tag. *)
Theorem kept_edges_from_source (ret : SSurface.t)
    (agnst into sha shb : SShell.t) (type : CombineAs) (opA : bool)
    (choosing : list SPoint.t)
    (orig_side : Point2d.t -> Point2d.t -> ShellClass.t * ShellClass.t)
    (fuel : nat) :
  forall (src final final' : list SEdge.t) (e : SEdge.t),
    keep_chains fuel ret agnst into sha shb type opA choosing orig_side
      src final = Some final' ->
    In e final' ->
    In e final
    \/ exists e0 : SEdge.t, In e0 src /\ e = with_tag 0%Z e0.
Proof.
  induction fuel as [|fuel IH]; intros src final final' e Hrun Hin;
    cbn [keep_chains] in Hrun.
  - destruct src; [|discriminate]. inversion Hrun; subst. now left.
  - destruct src as [|first rest]; [inversion Hrun; subst; now left|].
    destruct (FindChainAvoiding (first :: rest) [] choosing)
      as [[src' chain]|] eqn:Hchain; [|discriminate].
    bind Hrun. bind Hrun. destruct p as [[[pt enin] enout] surfn].
    destruct (orig_side _ _) as [indir_orig outdir_orig].
    destruct (SShell_ClassifyEdge _ _ _ _ _ _ _)
      as [indir_shell outdir_shell].
    bind Hrun.
    assert (Hsrc : forall x, In x (src' ++ chain) ->
              exists e0, In e0 (first :: rest)
                         /\ with_tag 0%Z x = with_tag 0%Z e0).
    { intros x Hx. eapply chain_edges_from_source; eassumption. }
    destruct (IH _ _ _ e Hrun Hin) as [Hf|(e1 & He1 & ->)].
    + destruct b; [|now left]. rewrite added_edges in Hf.
      apply in_app_or in Hf. destruct Hf as [Hf|Hf]; [now left|].
      apply in_map_iff in Hf. destruct Hf as (x & <- & Hx).
      right. destruct (Hsrc x) as (e0 & He0 & Heq);
        [apply in_or_app; now right|].
      exists e0. split; [exact He0 | exact Heq].
    + right. destruct (Hsrc e1) as (e0 & He0 & Heq);
        [apply in_or_app; now left|].
      exists e0. split; [exact He0 | exact Heq].
Qed.

(** ** Further properties: the normals of an edge *)

(** X27.  [EdgeNormalsWithinSurface] completes exactly when the curve of
    the edge is a curve of the shell and, unless that curve is exact, its
    two surfaces are found in the operand that its source names. *)
Theorem EdgeNormalsWithinSurface_completes (this : SSurface.t)
    (auv buv : Point2d.t) (auxA : N) (shell sha shb : SShell.t) :
  EdgeNormalsWithinSurface this auv buv auxA shell sha shb <> None
  <-> exists sc : SCurve.t,
        FindById (SShell.curve shell) auxA = Some sc
        /\ (SCurve.isExact sc = true \/ surfaces_found sha shb sc).
Proof.
  unfold EdgeNormalsWithinSurface, surfaces_found. cbv zeta.
  destruct (FindById (SShell.curve shell) auxA) as [sc|].
  2:{ split; [congruence|]. intros (sc & Hf & _). discriminate. }
  destruct (SCurve.isExact sc) eqn:Hexact; cbn [andb negb].
  - split.
    + intros _. exists sc. split; [reflexivity | now left].
    + intros _.
      destruct (negb (SBezier_deg (SCurve.exact sc) =? 1)%Z);
        destruct (TangentsAt _ _ _); discriminate.
  - destruct (GetSurfaceA sc sha shb) as [ta|] eqn:HA.
    + destruct (GetSurfaceB sc sha shb) as [tb|] eqn:HB.
      * split.
        -- intros _. exists sc. split; [reflexivity|]. right.
           rewrite HA, HB. split; discriminate.
        -- intros _. destruct (TangentsAt _ _ _); discriminate.
      * split; [congruence|].
        intros (sc' & Hf & [He|[_ Hb]]); inversion Hf; subst; congruence.
    + split; [congruence|].
      intros (sc' & Hf & [He|[Ha _]]); inversion Hf; subst; congruence.
Qed.

(** ** Further properties: what the combine type decides *)

Lemma MaximumId_handles {T : Type} `{Identified T} (l : list T) :
  MaximumId l = fold_right N.max 0%N (map handle l).
Proof.
  unfold MaximumId. induction l as [|x l IH]; [reflexivity|].
  cbn [fold_right map]. now rewrite IH.
Qed.

Lemma MaximumId_same_handles {T : Type} `{Identified T} (l l' : list T) :
  map handle l = map handle l' -> MaximumId l = MaximumId l'.
Proof. intros Hmap. now rewrite !MaximumId_handles, Hmap. Qed.

Lemma copy_surfaces_loop_same (todo : list SSurface.t) :
  forall (this1 sha1 shb1 this2 sha2 shb2 : ShellPtr.t)
         (done : list SSurface.t) (into1 into2 : SShell.t)
         (type1 type2 : CombineAs)
         (done1 done2 : list SSurface.t) (into1' into2' : SShell.t),
    SShell.curve into1 = SShell.curve into2 ->
    map handle (SShell.surface into1) = map handle (SShell.surface into2) ->
    copy_surfaces_loop this1 sha1 shb1 todo done into1 type1
    = Some (done1, into1') ->
    copy_surfaces_loop this2 sha2 shb2 todo done into2 type2
    = Some (done2, into2') ->
    done1 = done2
    /\ SShell.curve into1' = SShell.curve into2'
    /\ map handle (SShell.surface into1')
       = map handle (SShell.surface into2').
Proof.
  induction todo as [|ss todo IH];
    intros this1 sha1 shb1 this2 sha2 shb2 done into1 into2 type1 type2
           done1 done2 into1' into2' Hc Hh Hrun1 Hrun2;
    cbn [copy_surfaces_loop] in Hrun1, Hrun2.
  - inversion Hrun1; inversion Hrun2; subst. auto.
  - destruct (MakeCopyTrimAgainst ss _ _ _ into1 type1)
      as [[ssn1 into1a]|] eqn:Htrim1; [|discriminate].
    destruct (MakeCopyTrimAgainst ss _ _ _ into2 type2)
      as [[ssn2 into2a]|] eqn:Htrim2; [|discriminate].
    apply MakeCopyTrimAgainst_frame in Htrim1, Htrim2.
    destruct Htrim1 as [Hc1 Hs1]. destruct Htrim2 as [Hc2 Hs2].
    unfold AddAndAssignId in Hrun1, Hrun2.
    rewrite Hs1 in Hrun1. rewrite Hs2 in Hrun2.
    rewrite (MaximumId_same_handles _ _ Hh) in Hrun1.
    eapply IH; [| |exact Hrun1|exact Hrun2];
      cbn [SShell.curve SShell.surface SShell.with_surface].
    + congruence.
    + rewrite !map_app, Hh. cbn [map].
      now rewrite !handle_with_handle.
Qed.

(** X28.  The combine type decides the surfaces of the result, their
    trims and, through [Reverse], their sense, and the failure flag, and
    nothing else: two completed runs of [MakeFromBoolean] on the same
    shells with two types give the same curves and the same surface
    handles in the same order, and leave the same operands. *)
Theorem MakeFromBoolean_type_decides_trims (this a b : SShell.t)
    (type1 type2 : CombineAs) (r1 a1 b1 r2 a2 b2 : SShell.t) :
  MakeFromBoolean this a b type1 = Some (r1, a1, b1) ->
  MakeFromBoolean this a b type2 = Some (r2, a2, b2) ->
  SShell.curve r1 = SShell.curve r2
  /\ map SSurface.h (SShell.surface r1) = map SSurface.h (SShell.surface r2)
  /\ a1 = a2
  /\ b1 = b2.
Proof.
  unfold MakeFromBoolean. intros Hrun1 Hrun2. cbv zeta in Hrun1, Hrun2.
  set (this0 := SShell.with_booleanFailed false this) in *.
  set (a0 := MakeClassifyingBsps a None) in *.
  set (b0 := MakeClassifyingBsps b None) in *.
  destruct (CopyCurvesSplitAgainst (ShellPtr.mk OperandA a0) true
              (ShellPtr.mk OperandB b0) this0)
    as [[a2' this1]|]; [|discriminate].
  destruct (CopyCurvesSplitAgainst (ShellPtr.mk OperandB b0) false
              (ShellPtr.mk OperandA a2') this1)
    as [[b2' this2]|]; [|discriminate].
  set (this3 := MakeIntersectionCurvesAgainst a2' b2' this2) in *.
  destruct (short_segments_loop a2' b2' (SShell.curve this3) [])
    as [curves|]; [|discriminate].
  set (this4 := SShell.with_curve curves this3) in *.
  set (a4 := MakeClassifyingBsps (CleanupAfterBoolean a2') (Some this4)) in *.
  set (b4 := MakeClassifyingBsps (CleanupAfterBoolean b2') (Some this4)) in *.
  unfold CopySurfacesTrimAgainst in Hrun1, Hrun2.
  cbn [ShellPtr.target] in Hrun1, Hrun2.
  destruct (copy_surfaces_loop (ShellPtr.mk OperandA a4) _ _ _ [] this4
              type1) as [[sa1 this5]|] eqn:H51; [|discriminate].
  destruct (copy_surfaces_loop (ShellPtr.mk OperandA a4) _ _ _ [] this4
              type2) as [[sa2 this5']|] eqn:H52; [|discriminate].
  destruct (@copy_surfaces_loop_same _ _ _ _ _ _ _ _ this4 this4 _ _ _ _ _ _
              eq_refl eq_refl H51 H52) as (Hsa & Hc5 & Hh5).
  subst sa2.
  destruct (copy_surfaces_loop (ShellPtr.mk OperandB b4) _ _ _ [] this5
              type1) as [[sb1 this6]|] eqn:H61; [|discriminate].
  destruct (copy_surfaces_loop (ShellPtr.mk OperandB b4) _ _ _ [] this5'
              type2) as [[sb2 this6']|] eqn:H62; [|discriminate].
  destruct (@copy_surfaces_loop_same _ _ _ _ _ _ _ _ this5 this5' _ _ _ _ _ _
              Hc5 Hh5 H61 H62) as (Hsb & Hc6 & Hh6).
  subst sb2.
  unfold RewriteSurfaceHandlesForCurves in Hrun1, Hrun2.
  rewrite <- Hc6 in Hrun2.
  destruct (rewrite_handles_loop _ _ (SShell.curve this6) [])
    as [curves7|]; [|discriminate].
  inversion Hrun1; inversion Hrun2; subst.
  cbn [SShell.curve SShell.surface SShell.with_curve]. auto.
Qed.

End Properties.

(** * Part VI: the properties at the planar instance *)

Import Planar.

Lemma v_equals_spec (p q : Vector.t) : v_equals p q = true <-> p = q.
Proof.
  unfold v_equals. destruct p as [px py pz], q as [qx qy qz]. cbn.
  rewrite !andb_true_iff, !Leibniz.eqb_spec. split.
  - intros [[-> ->] ->]. reflexivity.
  - intros Heq. inversion Heq. auto.
Qed.

(** ** Keep policy *)

(** C1, witness: operand B of either operation, on the inside of its own
    face and on a face of the other shell with the same normal. *)
Lemma KeepRegion_truth_table_witness :
  (ShellClass.INSIDE = ShellClass.INSIDE
   \/ ShellClass.INSIDE = ShellClass.OUTSIDE)
  /\ KeepRegion UNION false ShellClass.COINC_SAME ShellClass.INSIDE
     = Some true
  /\ KeepRegion DIFFERENCE false ShellClass.COINC_SAME ShellClass.INSIDE
     = Some true.
Proof.
  split; [left; reflexivity |].
  apply (@KeepRegion_truth_table false ShellClass.COINC_SAME
           ShellClass.INSIDE).
  left; reflexivity.
Defined.

(** C6, witness: operand A of a union, with the in-normal side outside the
    other shell and the out-normal side inside it. *)
Lemma KeepEdge_antisymmetric_witness :
  (ShellClass.OUTSIDE, ShellClass.INSIDE)
  <> (ShellClass.INSIDE, ShellClass.INSIDE)
  /\ (KeepEdge UNION true ShellClass.OUTSIDE ShellClass.INSIDE
        ShellClass.INSIDE ShellClass.INSIDE = Some true
      <-> KeepRegion UNION true ShellClass.OUTSIDE ShellClass.INSIDE
          = Some true
          /\ KeepRegion UNION true ShellClass.INSIDE ShellClass.INSIDE
             = Some false)
  /\ (KeepEdge UNION true ShellClass.OUTSIDE ShellClass.INSIDE
        ShellClass.INSIDE ShellClass.INSIDE = Some true ->
      KeepEdge UNION true ShellClass.INSIDE ShellClass.OUTSIDE
        ShellClass.INSIDE ShellClass.INSIDE = Some false).
Proof.
  assert (Hne : (ShellClass.OUTSIDE, ShellClass.INSIDE)
                <> (ShellClass.INSIDE, ShellClass.INSIDE)) by discriminate.
  split; [exact Hne|].
  exact (KeepEdge_antisymmetric UNION true Hne).
Defined.

(** ** UV BSP *)

Example axis_tree_built : axis_tree = Some axis_root.
Proof. vm_compute. reflexivity. Qed.

Example axis_root_classifies :
  map (fun p => ClassifyPoint axis_root p origin (plane 1%N None))
    [Point2d.mk 1 (-1); Point2d.mk 1 1; Point2d.mk 1 0; Point2d.mk 4 (-0.5)]
  = [BspClass.INSIDE; BspClass.OUTSIDE; BspClass.EDGE_ANTIPARALLEL;
     BspClass.OUTSIDE].
Proof. vm_compute. reflexivity. Qed.

(** C3, witness: the point [(2.5, 0)] on the line of the root of
    [axis_tree], beyond its segment; the root has no [neg] child. *)
Lemma ClassifyPoint_tie_break_witness :
  (abs (ScaledSignedDistanceToLine beyond (Point2d.mk 0 0) (Point2d.mk 2 0)
          (plane 1%N None)) <? LENGTH_EPS)%float = true
  /\ on_chain_segment axis_root beyond (plane 1%N None) = false
  /\ ClassifyPoint axis_root beyond origin (plane 1%N None)
     = BspClass.OUTSIDE.
Proof.
  assert (Hnear :
            (abs (ScaledSignedDistanceToLine beyond (Point2d.mk 0 0)
                    (Point2d.mk 2 0) (plane 1%N None)) <? LENGTH_EPS)%float
            = true) by (vm_compute; reflexivity).
  assert (Hoff : on_chain_segment axis_root beyond (plane 1%N None) = false)
    by (vm_compute; reflexivity).
  split; [exact Hnear|]. split; [exact Hoff|].
  exact (@ClassifyPoint_tie_break payload extern (Point2d.mk 0 0)
           (Point2d.mk 2 0) (Some axis_child) None None beyond origin
           (plane 1%N None) Hnear Hoff).
Defined.

(** C3, counterexample: at the root of [axis_tree] only the [pos] child
    exists and it classifies the point [(2.5, 0)] as [INSIDE]; the root
    returns [OUTSIDE], not the classification of the child that exists. *)
Lemma ClassifyPoint_tie_break_differs :
  axis_tree = Some axis_root
  /\ (abs (ScaledSignedDistanceToLine beyond (Point2d.mk 0 0) (Point2d.mk 2 0)
             (plane 1%N None)) <? LENGTH_EPS)%float = true
  /\ on_chain_segment axis_root beyond (plane 1%N None) = false
  /\ ClassifyPoint axis_child beyond origin (plane 1%N None)
     = BspClass.INSIDE
  /\ ~ tie_break_as_specified (Some axis_child) None beyond origin
         (plane 1%N None)
         (ClassifyPoint axis_root beyond origin (plane 1%N None)).
Proof.
  split; [vm_compute; reflexivity|].
  split; [vm_compute; reflexivity|].
  split; [vm_compute; reflexivity|].
  split; [vm_compute; reflexivity|].
  unfold tie_break_as_specified. vm_compute. discriminate.
Qed.

(** ** Curve splitter *)

(** C2, counterexample: an intersection on the trim boundary of its surface
    is classified [EDGE_ANTIPARALLEL], neither [INSIDE] nor [OUTSIDE], and
    is kept for splitting. *)
Lemma split_keeps_on_edge :
  inter_class on_boundary = BspClass.EDGE_ANTIPARALLEL
  /\ keep_as_specified on_boundary = false
  /\ In (refined None None on_boundary)
       (refine_intersections None None [on_boundary]).
Proof.
  split; [vm_compute; reflexivity|].
  split; [vm_compute; reflexivity|].
  vm_compute. left. reflexivity.
Qed.

Example split_right_side :
  option_map (fun c => map SCurvePt.p (SCurve.pts c))
    (MakeCopySplitAgainst (side 3%N 1 1 1 0) (Some against_b) None None None)
  = Some [Vector.mk 1 1 0; Vector.mk 1 0.5 0; Vector.mk 1 0 0].
Proof. vm_compute. reflexivity. Qed.

(** C5, witness: the right side of the first square, split against the
    second square. *)
Lemma MakeCopySplitAgainst_refines_witness :
  SCurve.pts (side 3%N 1 1 1 0) <> []
  /\ exists ret : SCurve.t,
       MakeCopySplitAgainst (side 3%N 1 1 1 0) (Some against_b) None None None
       = Some ret
       /\ refines (SCurve.pts (side 3%N 1 1 1 0)) (SCurve.pts ret)
       /\ hd_error (SCurve.pts ret) = hd_error (SCurve.pts (side 3%N 1 1 1 0))
       /\ last (SCurve.pts ret) (SCurvePt.mk 0 (Vector.mk 0 0 0) false)
          = last (SCurve.pts (side 3%N 1 1 1 0))
              (SCurvePt.mk 0 (Vector.mk 0 0 0) false).
Proof.
  assert (Hne : SCurve.pts (side 3%N 1 1 1 0) <> []) by discriminate.
  split; [exact Hne|].
  exact (MakeCopySplitAgainst_refines (side 3%N 1 1 1 0) (Some against_b)
           None None None (SCurvePt.mk 0 (Vector.mk 0 0 0) false) Hne).
Defined.

(** ** Choosing points *)

Example choosing_of_square :
  map SPoint.p (choosing_points square_edges diagonal)
  = [Vector.mk 0 0 0; Vector.mk 1 1 0].
Proof. vm_compute. reflexivity. Qed.

Lemma v_equals_equivalence (pts : list Vector.t) : equivalence_on pts.
Proof.
  unfold equivalence_on. cbn [Vector_Equals extern].
  split; [|split].
  - intros p _. now apply v_equals_spec.
  - intros p q _ _ H. apply v_equals_spec in H. subst q.
    now apply v_equals_spec.
  - intros p q r _ _ _ H1 H2. apply v_equals_spec in H1, H2. subst.
    now apply v_equals_spec.
Qed.

(** C8, witness: the sides of the unit square and its diagonal, with points
    compared coordinate by coordinate. *)
Lemma choosing_points_incidence_witness :
  equivalence_on (endpoints (square_edges ++ diagonal))
  /\ (forall q : Vector.t,
        In q (endpoints (square_edges ++ diagonal)) ->
        ContainsPoint (choosing_points square_edges diagonal) q = true
        <-> incidence q square_edges diagonal <> 2)
  /\ (forall sp : SPoint.t,
        In sp (choosing_points square_edges diagonal) ->
        In (SPoint.p sp) (endpoints (square_edges ++ diagonal))
        /\ incidence (SPoint.p sp) square_edges diagonal <> 2)
  /\ separated (choosing_points square_edges diagonal).
Proof.
  split; [apply v_equals_equivalence|].
  exact (@choosing_points_incidence payload extern square_edges diagonal
           (v_equals_equivalence _)).
Defined.

(** The comparison up to the tolerance is not transitive on the three
    near points. *)
Example v_near_not_transitive :
  v_near near_0 near_1 = true /\ v_near near_1 near_2 = true
  /\ v_near near_0 near_2 = false.
Proof. vm_compute. repeat split; reflexivity. Qed.

(** C8, counterexample: with points compared up to the tolerance, the
    third of three points that lie three quarters of the tolerance apart
    compares equal with two endpoints, the second point and itself, and is
    among the choosing points all the same: the second point was counted
    with the first. *)
Lemma choosing_points_incidence_differ :
  In near_2 (endpoints (near_edges ++ []))
  /\ @incidence payload tolerant near_2 near_edges [] = 2
  /\ map SPoint.p (@choosing_points payload tolerant near_edges [])
     = [near_2; far_3]
  /\ @ContainsPoint payload tolerant
       (@choosing_points payload tolerant near_edges []) near_2 = true
  /\ ~ (forall q : Vector.t,
          In q (endpoints (near_edges ++ [])) ->
          @ContainsPoint payload tolerant
            (@choosing_points payload tolerant near_edges []) q = true
          <-> @incidence payload tolerant q near_edges [] <> 2).
Proof.
  assert (Hin : In near_2 (endpoints (near_edges ++ [])))
    by (cbn; tauto).
  assert (Htwo : @incidence payload tolerant near_2 near_edges [] = 2)
    by (vm_compute; reflexivity).
  assert (Hc : @ContainsPoint payload tolerant
                 (@choosing_points payload tolerant near_edges []) near_2
               = true)
    by (vm_compute; reflexivity).
  split; [exact Hin|]. split; [exact Htwo|].
  split; [vm_compute; reflexivity|]. split; [exact Hc|].
  intros Hall. apply (proj1 (Hall near_2 Hin) Hc). exact Htwo.
Qed.


(** ** Orchestrators *)

Lemma union_completes :
  MakeFromBoolean fresh shell_a shell_b UNION
  = Some (union_result, union_a, union_b).
Proof. vm_compute. reflexivity. Qed.

Lemma assembly_completes :
  MakeFromAssemblyOf fresh shell_a shell_b
  = Some (assembly_result, assembly_a, assembly_b).
Proof. vm_compute. reflexivity. Qed.

Example union_handles :
  map SCurve.h (SShell.curve union_result)
  = [1; 2; 3; 4; 5; 6; 7; 8; 9]%N
  /\ map SCurve.newH (SShell.curve union_a) = [1; 2; 3; 4]%N
  /\ map SCurve.newH (SShell.curve union_b) = [5; 6; 7; 8]%N
  /\ map SSurface.h (SShell.surface union_result) = [1; 2]%N
  /\ map SSurface.newH (SShell.surface union_a ++ SShell.surface union_b)
     = [1; 2]%N
  /\ map (fun c => (SCurve.surfA c, SCurve.surfB c))
       (SShell.curve union_result)
     = [(1, 1); (1, 1); (1, 1); (1, 1); (2, 2); (2, 2); (2, 2); (2, 2);
        (1, 2)]%N.
Proof. vm_compute. repeat split; reflexivity. Qed.

Example unexpected_type_fails :
  MakeFromBoolean fresh shell_a shell_b UNEXPECTED = None.
Proof. vm_compute. reflexivity. Qed.

(** C4, witness: the union of the two squares. *)
Lemma new_handles_designate_witness :
  (MakeFromBoolean fresh shell_a shell_b UNION
   = Some (union_result, union_a, union_b)
   \/ MakeFromAssemblyOf fresh shell_a shell_b
      = Some (union_result, union_a, union_b))
  /\ Forall2
       (curve_designates (length (SShell.curve fresh))
          (SShell.curve union_result))
       (SShell.curve shell_a) (SShell.curve union_a)
  /\ Forall2
       (curve_designates (length (SShell.curve fresh))
          (SShell.curve union_result))
       (SShell.curve shell_b) (SShell.curve union_b)
  /\ Forall2
       (surface_designates (length (SShell.surface fresh))
          (SShell.surface union_result))
       (SShell.surface shell_a) (SShell.surface union_a)
  /\ Forall2
       (surface_designates (length (SShell.surface fresh))
          (SShell.surface union_result))
       (SShell.surface shell_b) (SShell.surface union_b)
  /\ (forall c : SCurve.t,
        In c (SShell.curve union_result) ->
        resolves (SCurve.surfA c) union_result
        /\ resolves (SCurve.surfB c) union_result).
Proof.
  split; [left; exact union_completes|].
  exact (@new_handles_designate payload extern fresh shell_a shell_b UNION
           union_result union_a union_b (or_introl union_completes)).
Defined.

(** C7, witness: the union of the two squares, and the clean-up of the
    first square. *)
Lemma CleanupAfterBoolean_clears_edges_witness :
  MakeFromBoolean fresh shell_a shell_b UNION
  = Some (union_result, union_a, union_b)
  /\ (SShell.curve (CleanupAfterBoolean shell_a) = SShell.curve shell_a
      /\ SShell.booleanFailed (CleanupAfterBoolean shell_a)
         = SShell.booleanFailed shell_a
      /\ Forall2 (fun s s' => s' = SSurface.with_edges [] s)
           (SShell.surface shell_a)
           (SShell.surface (CleanupAfterBoolean shell_a)))
  /\ Forall (fun s => SSurface.edges s = [])
       (SShell.surface union_a ++ SShell.surface union_b)
  /\ operand_kept shell_a union_a
  /\ operand_kept shell_b union_b.
Proof.
  split; [exact union_completes|].
  exact (@CleanupAfterBoolean_clears_edges payload extern shell_a fresh
           shell_a shell_b UNION union_result union_a union_b
           union_completes).
Defined.

(** C7, counterexample: the two squares start with every scratch field
    clear; after the union, clean-up included, their surfaces still hold the
    BSP that the run built and their curves and surfaces the [newH] that
    the run noted. *)
Lemma CleanupAfterBoolean_leaves_scratch :
  scratch_is_reset shell_a = true
  /\ scratch_is_reset shell_b = true
  /\ MakeFromBoolean fresh shell_a shell_b UNION
     = Some (union_result, union_a, union_b)
  /\ scratch_is_reset union_a = false
  /\ scratch_is_reset union_b = false
  /\ scratch_is_reset (CleanupAfterBoolean union_a) = false
  /\ map (fun s => match SSurface.bsp s with
                   | Some _ => true
                   | None => false
                   end)
       (SShell.surface union_a ++ SShell.surface union_b)
     = [true; true]
  /\ map SCurve.newH (SShell.curve union_a ++ SShell.curve union_b)
     = [1; 2; 3; 4; 5; 6; 7; 8]%N.
Proof.
  split; [reflexivity|]. split; [reflexivity|].
  split; [exact union_completes|].
  vm_compute. repeat split; reflexivity.
Qed.

(** C10, witness: the assembly of the two squares into a shell whose flag
    was set. *)
Lemma MakeFromAssemblyOf_not_failed_witness :
  SShell.booleanFailed fresh = true
  /\ MakeFromAssemblyOf fresh shell_a shell_b
     = Some (assembly_result, assembly_a, assembly_b)
  /\ SShell.booleanFailed assembly_result = false.
Proof.
  split; [reflexivity|]. split; [exact assembly_completes|].
  exact (@MakeFromAssemblyOf_not_failed payload extern fresh shell_a shell_b
           assembly_result assembly_a assembly_b assembly_completes).
Defined.

(** ** Further properties: the keep policy *)

(** X3 at an intersection edge inside the face of operand A of a union,
    with the other shell on its outer side only. *)
Lemma KeepEdge_intersection_inside_witness :
  KeepEdge UNION true ShellClass.OUTSIDE ShellClass.INSIDE
    (fst (TagByClassifiedEdge BspClass.INSIDE))
    (snd (TagByClassifiedEdge BspClass.INSIDE)) = Some true
  /\ (BspClass.INSIDE = BspClass.INSIDE
      \/ BspClass.INSIDE = BspClass.EDGE_PARALLEL).
Proof.
  split; [reflexivity|].
  apply (KeepEdge_intersection_inside BspClass.INSIDE UNION true
           ShellClass.OUTSIDE ShellClass.INSIDE).
  reflexivity.
Defined.

(** ** Further properties: the UV BSP *)

Lemma insert_sorted_length {T : Type} (lt : T -> T -> bool) (e : T)
    (l : list T) :
  length (insert_sorted lt e l) = S (length l).
Proof.
  induction l as [|e' l IH]; [reflexivity|]. cbn.
  destruct (lt e e'); cbn; [reflexivity | now rewrite IH].
Qed.

Lemma insertion_sort_length (T : Type) (lt : T -> T -> bool) (l : list T) :
  length (insertion_sort lt l) = length l.
Proof.
  unfold insertion_sort. induction l as [|e l IH]; [reflexivity|].
  cbn [fold_right length]. now rewrite insert_sorted_length, IH.
Qed.

(** X6 at the two edges of [two_edges], sorted by insertion. *)
Lemma SBspUv_From_size_witness :
  match SBspUv_From two_edges (plane 1%N None) with
  | None => two_edges = []
  | Some t => two_edges <> [] /\ length two_edges <= length (segments t)
  end.
Proof.
  apply (@SBspUv_From_size payload extern two_edges (plane 1%N None)).
  exact insertion_sort_length.
Defined.

(** X9 at the segment from [(3, 0)] to [(4, 0)] inserted into the tree of
    the segment from [(0, 0)] to [(2, 0)], and the point [(3.5, 0)]. *)
Lemma InsertEdge_collinear_found_witness :
  is_edge_class
    (ClassifyPoint
       (InsertEdge axis_leaf further_a further_b (plane 1%N None))
       between further_b (plane 1%N None))
  = true.
Proof.
  apply (@InsertEdge_collinear_found payload extern
           (Point2d.mk 0 0) (Point2d.mk 2 0) None None None
           further_a further_b between further_b (plane 1%N None));
    vm_compute; reflexivity.
Defined.

(** ** Further properties: the curve splitter *)

(** X11 at the right side of the first square, split against the second
    square: the point [(1, 0.5)] is added as a vertex. *)
Lemma MakeCopySplitAgainst_vertices_witness :
  MakeCopySplitAgainst (side 3%N 1 1 1 0) (Some against_b) None None None
  = Some split_side
  /\ In split_point (SCurve.pts split_side)
  /\ (In split_point (SCurve.pts (side 3%N 1 1 1 0))
      \/ (SCurvePt.vertex split_point = true
          /\ SCurvePt.tag split_point = 0%Z)).
Proof.
  assert (Hrun : MakeCopySplitAgainst (side 3%N 1 1 1 0) (Some against_b)
                   None None None = Some split_side)
    by (vm_compute; reflexivity).
  assert (Hin : In split_point (SCurve.pts split_side))
    by (vm_compute; right; left; reflexivity).
  split; [exact Hrun|]. split; [exact Hin|].
  exact (@MakeCopySplitAgainst_vertices payload extern (side 3%N 1 1 1 0)
           (Some against_b) None None None split_side split_point Hrun Hin).
Defined.

(** ** Further properties: the edge chains *)

(** X13 at the square with its diagonal: the chain from the first edge
    stops at the two corners on the diagonal. *)
Lemma FindChainAvoiding_conserves_witness :
  FindChainAvoiding (edge 0 0 0 1 :: tl crossed_square) [] corners
  = Some (fst first_chain, snd first_chain)
  /\ Permutation (fst first_chain ++ snd first_chain)
       (ClearTags (tl crossed_square) ++ [] ++ [edge 0 0 0 1]).
Proof.
  assert (Hrun : FindChainAvoiding (edge 0 0 0 1 :: tl crossed_square) []
                   corners = Some (fst first_chain, snd first_chain))
    by (vm_compute; reflexivity).
  split; [exact Hrun|].
  exact (@FindChainAvoiding_conserves payload extern (edge 0 0 0 1)
           (tl crossed_square) [] corners (fst first_chain)
           (snd first_chain) Hrun).
Defined.

(** X14 at the same chain. *)
Lemma FindChainAvoiding_chained_witness :
  FindChainAvoiding crossed_square [] corners
  = Some (fst first_chain, snd first_chain)
  /\ chained corners (snd first_chain) = true.
Proof.
  assert (Hrun : FindChainAvoiding crossed_square [] corners
                 = Some (fst first_chain, snd first_chain))
    by (vm_compute; reflexivity).
  split; [exact Hrun|].
  exact (@FindChainAvoiding_chained payload extern crossed_square corners
           (fst first_chain) (snd first_chain) Hrun).
Defined.

(** ** Further properties: the orchestrators *)

(** X16 at the assembly of the two squares. *)
Lemma MakeFromAssemblyOf_counts_witness :
  MakeFromAssemblyOf fresh shell_a shell_b
  = Some (assembly_result, assembly_a, assembly_b)
  /\ length (SShell.curve assembly_result)
     = length (SShell.curve fresh) + length (SShell.curve shell_a)
       + length (SShell.curve shell_b)
  /\ length (SShell.surface assembly_result)
     = length (SShell.surface fresh) + length (SShell.surface shell_a)
       + length (SShell.surface shell_b)
  /\ firstn (length (SShell.surface fresh)) (SShell.surface assembly_result)
     = SShell.surface fresh.
Proof.
  split; [exact assembly_completes|].
  exact (@MakeFromAssemblyOf_counts payload extern fresh shell_a shell_b
           assembly_result assembly_a assembly_b assembly_completes).
Defined.

(** X17 at the union of the two squares. *)
Lemma MakeFromBoolean_counts_witness :
  MakeFromBoolean fresh shell_a shell_b UNION
  = Some (union_result, union_a, union_b)
  /\ length (SShell.surface union_result)
     = length (SShell.surface fresh) + length (SShell.surface shell_a)
       + length (SShell.surface shell_b)
  /\ firstn (length (SShell.surface fresh)) (SShell.surface union_result)
     = SShell.surface fresh
  /\ length (SShell.curve fresh) + length (SShell.curve shell_a)
     + length (SShell.curve shell_b) <= length (SShell.curve union_result)
  /\ (SShell.surface shell_a = [] \/ SShell.surface shell_b = [] ->
      length (SShell.curve union_result)
      = length (SShell.curve fresh) + length (SShell.curve shell_a)
        + length (SShell.curve shell_b)).
Proof.
  split; [exact union_completes|].
  exact (@MakeFromBoolean_counts payload extern fresh shell_a shell_b UNION
           union_result union_a union_b union_completes).
Defined.

(** X18 at the union of the two squares. *)
Lemma new_handles_keep_source_witness :
  (MakeFromBoolean fresh shell_a shell_b UNION
   = Some (union_result, union_a, union_b)
   \/ MakeFromAssemblyOf fresh shell_a shell_b
      = Some (union_result, union_a, union_b))
  /\ Forall2 (curve_kept_from Source.A (SShell.curve union_result))
       (SShell.curve shell_a) (SShell.curve union_a)
  /\ Forall2 (curve_kept_from Source.B (SShell.curve union_result))
       (SShell.curve shell_b) (SShell.curve union_b).
Proof.
  split; [left; exact union_completes|].
  exact (@new_handles_keep_source payload extern fresh shell_a shell_b UNION
           union_result union_a union_b (or_introl union_completes)).
Defined.

(** X19 at the assembly of the two squares. *)
Lemma MakeFromAssemblyOf_trims_witness :
  MakeFromAssemblyOf fresh shell_a shell_b
  = Some (assembly_result, assembly_a, assembly_b)
  /\ Forall (trims_resolve (SShell.curve assembly_result))
       (skipn (length (SShell.surface fresh))
          (SShell.surface assembly_result)).
Proof.
  split; [exact assembly_completes|].
  exact (@MakeFromAssemblyOf_trims payload extern fresh shell_a shell_b
           assembly_result assembly_a assembly_b assembly_completes).
Defined.



(** X21 at the face of the first square, trimmed for a union. *)
Lemma MakeCopyTrimAgainst_changes_trims_witness :
  MakeCopyTrimAgainst first_face (ShellPtr.mk OperandA assembly_a)
    (ShellPtr.mk OperandA assembly_a) (ShellPtr.mk OperandB assembly_b)
    assembly_result UNION
  = Some (fst trim_run, snd trim_run)
  /\ (snd trim_run = assembly_result
      \/ snd trim_run = SShell.with_booleanFailed true assembly_result)
  /\ exists trims : list STrimBy.t,
       rewrite_trims (SShell.curve assembly_a) (SSurface.trim first_face) []
       = Some trims
       /\ fst trim_run
          = SSurface.with_trim (SSurface.trim (fst trim_run)) first_face.
Proof.
  assert (Hrun : MakeCopyTrimAgainst first_face
                   (ShellPtr.mk OperandA assembly_a)
                   (ShellPtr.mk OperandA assembly_a)
                   (ShellPtr.mk OperandB assembly_b) assembly_result UNION
                 = Some (fst trim_run, snd trim_run))
    by (vm_compute; reflexivity).
  split; [exact Hrun|].
  exact (@MakeCopyTrimAgainst_changes_trims payload extern first_face
           (ShellPtr.mk OperandA assembly_a) (ShellPtr.mk OperandA assembly_a)
           (ShellPtr.mk OperandB assembly_b) assembly_result UNION
           (fst trim_run) (snd trim_run) Hrun).
Defined.

(** X26 at the edges of the face of the first square: the loop over the
    original trim keeps them for a union. *)
Lemma kept_edges_from_source_witness :
  keep_chains (length face_edges) first_face assembly_b assembly_result
    assembly_a assembly_b UNION true []
    (fun _ _ => (ShellClass.INSIDE, ShellClass.OUTSIDE)) face_edges []
  = Some kept_edges
  /\ In kept_edge kept_edges
  /\ (In kept_edge []
      \/ exists e0 : SEdge.t,
           In e0 face_edges /\ kept_edge = with_tag 0%Z e0).
Proof.
  assert (Hrun : keep_chains (length face_edges) first_face assembly_b
                   assembly_result assembly_a assembly_b UNION true []
                   (fun _ _ => (ShellClass.INSIDE, ShellClass.OUTSIDE))
                   face_edges [] = Some kept_edges)
    by (vm_compute; reflexivity).
  assert (Hin : In kept_edge kept_edges) by (vm_compute; left; reflexivity).
  split; [exact Hrun|]. split; [exact Hin|].
  exact (@kept_edges_from_source payload extern first_face assembly_b
           assembly_result assembly_a assembly_b UNION true []
           (fun _ _ => (ShellClass.INSIDE, ShellClass.OUTSIDE))
           (length face_edges) face_edges [] kept_edges kept_edge Hrun Hin).
Defined.

Lemma difference_completes :
  MakeFromBoolean fresh shell_a shell_b DIFFERENCE
  = Some (difference_result, difference_a, difference_b).
Proof. vm_compute. reflexivity. Qed.

(** X28 at the union and the difference of the two squares. *)
Lemma MakeFromBoolean_type_decides_trims_witness :
  MakeFromBoolean fresh shell_a shell_b UNION
  = Some (union_result, union_a, union_b)
  /\ MakeFromBoolean fresh shell_a shell_b DIFFERENCE
     = Some (difference_result, difference_a, difference_b)
  /\ SShell.curve union_result = SShell.curve difference_result
  /\ map SSurface.h (SShell.surface union_result)
     = map SSurface.h (SShell.surface difference_result)
  /\ union_a = difference_a
  /\ union_b = difference_b.
Proof.
  split; [exact union_completes|]. split; [exact difference_completes|].
  exact (@MakeFromBoolean_type_decides_trims payload extern fresh shell_a
           shell_b UNION DIFFERENCE union_result union_a union_b
           difference_result difference_a difference_b union_completes
           difference_completes).
Defined.
